(** * A shallow embedding of the WYSIWYG editor core ([src/editor.js])

    The development follows the source file top to bottom:

    - the host capabilities the editor consumes (the document tree with
      node identities, the selection, element creation);
    - [UndoBufferRecord] / [UndoBufferPiece], the mutation records;
    - class [UndoBuffer]: the ring buffer ([push], [existBuffer], [undo],
      [redo]) and the capture controller (observer callbacks and the
      composition handlers of the constructor);
    - class [Nomalizer]: the record-rewriting helpers and [normalize];
    - the key handler [shiftEnter];
    - the properties of the specification, stated over these definitions.

    JavaScript exceptions are results of an error monad; every loop of the
    source whose trip count is not bounded by its arguments takes fuel. *)

From stdpp Require Import gmap strings list fin_maps.
From Stdlib Require Import ZArith Lia.

Set Warnings "-clear-no-such-hyp".

(** ** Exceptions *)

Inductive exn := TypeError | NotFoundError | HierarchyRequestError | IndexSizeError.

Inductive result (A : Type) :=
  | Ok (a : A)
  | Throw (e : exn)
  | OutOfFuel.
Arguments Ok {A} a.
Arguments Throw {A} e.
Arguments OutOfFuel {A}.

#[global] Instance result_ret : MRet result := fun A a => Ok a.
#[global] Instance result_bind : MBind result := fun A B f m =>
  match m with
  | Ok a => f a
  | Throw e => Throw e
  | OutOfFuel => OutOfFuel
  end.

Definition is_ok {A} (r : result A) : bool :=
  match r with Ok _ => true | _ => false end.

(** ** The document tree (host capability)

    Nodes are identified by a number; the store maps an identity to the
    node's kind, character data, parent, ordered child list and attributes.
    Attribute keys are (namespace, local name). *)

Definition node_id := nat.

Inductive node_kind :=
  | ElementNode (tag : string)
  | TextNode
  | CDataNode
  | CommentNode
  | DocumentNode.

Definition attr_key : Type := option string * string.

Record dom_node := {
  nkind : node_kind;
  ndata : string;
  nparent : option node_id;
  nchildren : list node_id;
  nattrs : gmap attr_key string
}.

#[global] Instance node_kind_eq_dec : EqDecision node_kind.
Proof. solve_decision. Defined.
#[global] Instance dom_node_eq_dec : EqDecision dom_node.
Proof. solve_decision. Defined.

Definition set_parent (po : option node_id) (x : dom_node) : dom_node :=
  {| nkind := nkind x; ndata := ndata x; nparent := po;
     nchildren := nchildren x; nattrs := nattrs x |}.
Definition set_children (cs : list node_id) (x : dom_node) : dom_node :=
  {| nkind := nkind x; ndata := ndata x; nparent := nparent x;
     nchildren := cs; nattrs := nattrs x |}.
Definition set_data (s : string) (x : dom_node) : dom_node :=
  {| nkind := nkind x; ndata := s; nparent := nparent x;
     nchildren := nchildren x; nattrs := nattrs x |}.
Definition set_attrs (a : gmap attr_key string) (x : dom_node) : dom_node :=
  {| nkind := nkind x; ndata := ndata x; nparent := nparent x;
     nchildren := nchildren x; nattrs := a |}.

(** [Node.ELEMENT_NODE], [Node.TEXT_NODE], ... *)
Definition ELEMENT_NODE : Z := 1.
Definition TEXT_NODE : Z := 3.
Definition CDATA_SECTION_NODE : Z := 4.
Definition COMMENT_NODE : Z := 8.
Definition DOCUMENT_NODE : Z := 9.

Definition kind_type (k : node_kind) : Z :=
  match k with
  | ElementNode _ => ELEMENT_NODE
  | TextNode => TEXT_NODE
  | CDataNode => CDATA_SECTION_NODE
  | CommentNode => COMMENT_NODE
  | DocumentNode => DOCUMENT_NODE
  end.

Definition lower_ascii (c : Ascii.ascii) : Ascii.ascii :=
  let n := Ascii.nat_of_ascii c in
  if (65 <=? n)%nat && (n <=? 90)%nat then Ascii.ascii_of_nat (n + 32) else c.

Fixpoint toLowerCase (s : string) : string :=
  match s with
  | EmptyString => EmptyString
  | String c s' => String (lower_ascii c) (toLowerCase s')
  end.

Arguments toLowerCase : simpl never.

Fixpoint index_of (n : node_id) (l : list node_id) : option nat :=
  match l with
  | [] => None
  | x :: l' => if decide (x = n) then Some 0%nat else S <$> index_of n l'
  end.

Module Dom.

Definition kind (d : gmap node_id dom_node) (n : node_id) : node_kind :=
  from_option nkind CommentNode (d !! n).
Definition nodeType (d : gmap node_id dom_node) (n : node_id) : Z :=
  kind_type (kind d n).
Definition tagName (d : gmap node_id dom_node) (n : node_id) : string :=
  match kind d n with ElementNode t => t | _ => EmptyString end.
Definition parentNode (d : gmap node_id dom_node) (n : node_id) : option node_id :=
  d !! n ≫= nparent.
Definition childNodes (d : gmap node_id dom_node) (n : node_id) : list node_id :=
  from_option nchildren [] (d !! n).

Definition previousSibling (d : gmap node_id dom_node) (n : node_id) : option node_id :=
  p ← parentNode d n;
  match index_of n (childNodes d p) with
  | Some (S i) => childNodes d p !! i
  | _ => None
  end.
Definition nextSibling (d : gmap node_id dom_node) (n : node_id) : option node_id :=
  p ← parentNode d n;
  i ← index_of n (childNodes d p);
  childNodes d p !! S i.

(** [node.nodeValue]: the data of a character-data node, [null] otherwise;
    assigning [null] to a character-data node stores the empty string and
    assigning to any other node does nothing. *)
Definition is_character_data (k : node_kind) : bool :=
  match k with TextNode | CDataNode | CommentNode => true | _ => false end.
Definition nodeValue (d : gmap node_id dom_node) (n : node_id) : option string :=
  match d !! n with
  | Some x => if is_character_data (nkind x) then Some (ndata x) else None
  | None => None
  end.
Definition set_nodeValue (d : gmap node_id dom_node) (n : node_id) (v : option string)
  : gmap node_id dom_node :=
  match d !! n with
  | Some x =>
      if is_character_data (nkind x) then <[n := set_data (default EmptyString v) x]> d
      else d
  | None => d
  end.

Definition is_element (d : gmap node_id dom_node) (n : node_id) : bool :=
  match kind d n with ElementNode _ => true | _ => false end.
Definition can_have_children (d : gmap node_id dom_node) (n : node_id) : bool :=
  match kind d n with ElementNode _ | DocumentNode => true | _ => false end.

Definition getAttribute (d : gmap node_id dom_node) (n : node_id) (k : attr_key)
  : result (option string) :=
  if is_element d n then Ok (d !! n ≫= fun x => nattrs x !! k) else Throw TypeError.
Definition setAttribute (d : gmap node_id dom_node) (n : node_id) (k : attr_key) (v : string)
  : result (gmap node_id dom_node) :=
  if is_element d n then Ok (alter (fun x => set_attrs (<[k := v]> (nattrs x)) x) n d)
  else Throw TypeError.
Definition removeAttribute (d : gmap node_id dom_node) (n : node_id) (k : attr_key)
  : result (gmap node_id dom_node) :=
  if is_element d n then Ok (alter (fun x => set_attrs (delete k (nattrs x)) x) n d)
  else Throw TypeError.

(** Walk of the parent chain: is [a] the node [n] or one of its ancestors? *)
Fixpoint ancestor_walk (fuel : nat) (d : gmap node_id dom_node) (a n : node_id) : bool :=
  if decide (a = n) then true
  else match fuel with
       | O => false
       | S f => match parentNode d n with
                | Some p => ancestor_walk f d a p
                | None => false
                end
       end.
Definition is_inclusive_ancestor (d : gmap node_id dom_node) (a n : node_id) : bool :=
  ancestor_walk (size d) d a n.

(** Unlink [n] from its parent, if it has one. *)
Definition detach (d : gmap node_id dom_node) (n : node_id) : gmap node_id dom_node :=
  match parentNode d n with
  | None => d
  | Some p =>
      alter (set_parent None) n
        (alter (fun x => set_children (filter (fun c => c ≠ n) (nchildren x)) x) p d)
  end.

Definition place (n : node_id) (ref : option node_id) (cs : list node_id) : list node_id :=
  match ref with
  | None => cs ++ [n]
  | Some r =>
      match index_of r cs with
      | Some i => take i cs ++ n :: drop i cs
      | None => cs ++ [n]
      end
  end.

Definition attach (d : gmap node_id dom_node) (parent n : node_id) (ref : option node_id)
  : gmap node_id dom_node :=
  alter (set_parent (Some parent)) n
    (alter (fun x => set_children (place n ref (nchildren x)) x) parent d).

(** [parent.removeChild(child)] *)
Definition removeChild (d : gmap node_id dom_node) (parent child : node_id)
  : result (gmap node_id dom_node) :=
  if decide (parentNode d child = Some parent) then Ok (detach d child)
  else Throw NotFoundError.

(** [parent.insertBefore(node, ref)] *)
Definition insertBefore (d : gmap node_id dom_node) (parent node : node_id)
    (ref : option node_id) : result (gmap node_id dom_node) :=
  if negb (can_have_children d parent) then Throw HierarchyRequestError
  else if is_inclusive_ancestor d node parent then Throw HierarchyRequestError
  else
    let ref_ok := match ref with
                  | Some r => bool_decide (parentNode d r = Some parent)
                  | None => true
                  end in
    if negb ref_ok then Throw NotFoundError
    else
      let ref' := if decide (ref = Some node) then nextSibling d node else ref in
      Ok (attach (detach d node) parent node ref').

(** [parent.replaceChild(node, child)] *)
Definition replaceChild (d : gmap node_id dom_node) (parent node child : node_id)
  : result (gmap node_id dom_node) :=
  if negb (can_have_children d parent) then Throw HierarchyRequestError
  else if is_inclusive_ancestor d node parent then Throw HierarchyRequestError
  else if negb (bool_decide (parentNode d child = Some parent)) then Throw NotFoundError
  else
    let ref := nextSibling d child in
    let ref' := if decide (ref = Some node) then nextSibling d node else ref in
    Ok (attach (detach (detach d child) node) parent node ref').

(** [parent.append(...nodes)] *)
Fixpoint append (d : gmap node_id dom_node) (parent : node_id) (nodes : list node_id)
  : result (gmap node_id dom_node) :=
  match nodes with
  | [] => Ok d
  | n :: rest => d' ← insertBefore d parent n None; append d' parent rest
  end.

End Dom.

(** A caret snapshot ([Range]-compatible plain object). *)
Record caret := {
  startContainer : node_id;
  startOffset : Z;
  endContainer : node_id;
  endOffset : Z
}.

#[global] Instance caret_eq_dec : EqDecision caret.
Proof. solve_decision. Defined.

(** The host: document tree, live selection ([None] when
    [selection.rangeCount] is 0) and the identity the next created node
    receives.  The selection is kept as the value last read or written;
    the host's own adjustment of live ranges under tree edits is outside
    the model. *)
Record world := {
  w_dom : gmap node_id dom_node;
  w_sel : option caret;
  w_next : node_id
}.

Definition with_dom (w : world) (d : gmap node_id dom_node) : world :=
  {| w_dom := d; w_sel := w_sel w; w_next := w_next w |}.

(** [document.createElement(tag)]; an HTML element reports its tag name in
    upper case. *)
Definition upper_ascii (c : Ascii.ascii) : Ascii.ascii :=
  let n := Ascii.nat_of_ascii c in
  if (97 <=? n)%nat && (n <=? 122)%nat then Ascii.ascii_of_nat (n - 32) else c.
Fixpoint toUpperCase (s : string) : string :=
  match s with
  | EmptyString => EmptyString
  | String c s' => String (upper_ascii c) (toUpperCase s')
  end.

Arguments toUpperCase : simpl never.

Definition blank_element (tag : string) : dom_node :=
  {| nkind := ElementNode tag; ndata := EmptyString; nparent := None;
     nchildren := []; nattrs := ∅ |}.

Definition createElement (w : world) (tag : string) : world * node_id :=
  ({| w_dom := <[w_next w := blank_element (toUpperCase tag)]> (w_dom w);
      w_sel := w_sel w;
      w_next := S (w_next w) |},
   w_next w).

(** [window.getSelection()] read as a plain object. *)
Definition getCaret (w : world) : option caret := w_sel w.

(** The length of a node: the number of characters of a character-data
    node, the number of children of any other node. *)
Definition node_length (d : gmap node_id dom_node) (n : node_id) : Z :=
  match Dom.nodeValue d n with
  | Some s => Z.of_nat (String.length s)
  | None => Z.of_nat (length (Dom.childNodes d n))
  end.

(** [Range.setStart] and [Range.setEnd] accept a boundary point whose
    offset is at most the length of its node (a negative number is
    converted to a large unsigned one). *)
Definition boundary_ok (d : gmap node_id dom_node) (n : node_id) (o : Z) : bool :=
  (0 <=? o)%Z && (o <=? node_length d n)%Z.

(** [updateCaret(range)]: reading a property of [null] throws a TypeError
    and a boundary point past the end of its node an IndexSizeError; the
    range is then made the selection.  The boundary points are stored as
    given: the host would collapse a range whose end precedes its start,
    which the ranges read from the host's selection never are, and this
    is not modelled. *)
Definition updateCaret (w : world) (range : option caret) : result world :=
  match range with
  | None => Throw TypeError
  | Some r =>
      if negb (boundary_ok (w_dom w) (startContainer r) (startOffset r))
      then Throw IndexSizeError
      else if negb (boundary_ok (w_dom w) (endContainer r) (endOffset r))
      then Throw IndexSizeError
      else Ok {| w_dom := w_dom w; w_sel := Some r; w_next := w_next w |}
  end.

(** A caret whose two boundary points lie inside their nodes, as every
    range the host hands out does. *)
Definition caret_ok (d : gmap node_id dom_node) (c : caret) : Prop :=
  boundary_ok d (startContainer c) (startOffset c) = true
  ∧ boundary_ok d (endContainer c) (endOffset c) = true.

(** ** Mutation records ([UndoBufferRecord], [UndoBufferPiece]) *)

Inductive record_type := attributes | characterData | childList.

#[global] Instance record_type_eq_dec : EqDecision record_type.
Proof. solve_decision. Defined.

Record record := {
  type : record_type;
  target : node_id;
  addedNodes : list node_id;
  removedNodes : list node_id;
  previousSibling : option node_id;
  nextSibling : option node_id;
  attributeName : option string;
  attributeNamespace : option string;
  oldValue : option string;
  newValue : option string
}.

#[global] Instance record_eq_dec : EqDecision record.
Proof. solve_decision. Defined.

Definition set_newValue (v : option string) (op : record) : record :=
  {| type := type op; target := target op; addedNodes := addedNodes op;
     removedNodes := removedNodes op; previousSibling := previousSibling op;
     nextSibling := nextSibling op; attributeName := attributeName op;
     attributeNamespace := attributeNamespace op; oldValue := oldValue op;
     newValue := v |}.
Definition set_target (t : node_id) (op : record) : record :=
  {| type := type op; target := t; addedNodes := addedNodes op;
     removedNodes := removedNodes op; previousSibling := previousSibling op;
     nextSibling := nextSibling op; attributeName := attributeName op;
     attributeNamespace := attributeNamespace op; oldValue := oldValue op;
     newValue := newValue op |}.
Definition set_addedNodes (l : list node_id) (op : record) : record :=
  {| type := type op; target := target op; addedNodes := l;
     removedNodes := removedNodes op; previousSibling := previousSibling op;
     nextSibling := nextSibling op; attributeName := attributeName op;
     attributeNamespace := attributeNamespace op; oldValue := oldValue op;
     newValue := newValue op |}.
Definition set_previousSibling (o : option node_id) (op : record) : record :=
  {| type := type op; target := target op; addedNodes := addedNodes op;
     removedNodes := removedNodes op; previousSibling := o;
     nextSibling := nextSibling op; attributeName := attributeName op;
     attributeNamespace := attributeNamespace op; oldValue := oldValue op;
     newValue := newValue op |}.
Definition set_nextSibling (o : option node_id) (op : record) : record :=
  {| type := type op; target := target op; addedNodes := addedNodes op;
     removedNodes := removedNodes op; previousSibling := previousSibling op;
     nextSibling := o; attributeName := attributeName op;
     attributeNamespace := attributeNamespace op; oldValue := oldValue op;
     newValue := newValue op |}.

Record piece := {
  records : list record;
  oldRange : caret;
  newRange : option caret
}.

#[global] Instance piece_eq_dec : EqDecision piece.
Proof. solve_decision. Defined.

(** A slot of the JavaScript array [#buffer]: a piece, the empty array [[]]
    written by the clearing loops of [push], or an index never assigned. *)
Inductive slot := Piece (p : piece) | Cleared | Hole.

#[global] Instance slot_eq_dec : EqDecision slot.
Proof. solve_decision. Defined.

(** [a[i] = v] on a JavaScript array: an index at or past the length
    extends the array. *)
Definition array_set (i : nat) (v : slot) (l : list slot) : list slot :=
  if (i <? length l)%nat then <[i := v]> l
  else l ++ replicate (i - length l) Hole ++ [v].

Definition lookupZ {A} (l : list A) (i : Z) : option A :=
  if (i <? 0)%Z then None else l !! Z.to_nat i.

(** JavaScript truthiness of a nullable string. *)
Definition truthy (o : option string) : bool :=
  match o with
  | Some s => negb (String.eqb s EmptyString)
  | None => false
  end.

(** The attribute a record of type [attributes] names: the [...NS] methods
    are used when [attributeNamespace] is truthy. *)
Definition record_attr (op : record) : attr_key :=
  (if truthy (attributeNamespace op) then attributeNamespace op else None,
   default "null"%string (attributeName op)).

(** ** class UndoBuffer *)

Record ubuf := {
  ub_target : node_id;             (* #target *)
  bufferSize : Z;                  (* #bufferSize *)
  offset : Z;                      (* #offset *)
  pos : Z;                         (* #pos *)
  endPos : Z;                      (* #endPos *)
  buffer : list slot;              (* #buffer *)
  tempBuffer : list record;        (* #tempBuffer *)
  range : caret;                   (* #range *)
  observing : bool;                (* #observer is observing *)
  tempObserving : bool;            (* #tempObserver is observing *)
  caretTracking : bool;            (* the 'beforeinput' listener is installed *)
  comp_oldValue : option string    (* the closure variable oldValue *)
}.

Definition with_ring (s : ubuf) (off p e : Z) (b : list slot) : ubuf :=
  {| ub_target := ub_target s; bufferSize := bufferSize s;
     offset := off; pos := p; endPos := e; buffer := b;
     tempBuffer := tempBuffer s; range := range s;
     observing := observing s; tempObserving := tempObserving s;
     caretTracking := caretTracking s; comp_oldValue := comp_oldValue s |}.

Definition with_observing (s : ubuf) (o t : bool) : ubuf :=
  {| ub_target := ub_target s; bufferSize := bufferSize s;
     offset := offset s; pos := pos s; endPos := endPos s; buffer := buffer s;
     tempBuffer := tempBuffer s; range := range s;
     observing := o; tempObserving := t;
     caretTracking := caretTracking s; comp_oldValue := comp_oldValue s |}.

Definition with_capture (s : ubuf) (tb : list record) (r : caret) (ct : bool)
    (ov : option string) : ubuf :=
  {| ub_target := ub_target s; bufferSize := bufferSize s;
     offset := offset s; pos := pos s; endPos := endPos s; buffer := buffer s;
     tempBuffer := tb; range := r;
     observing := observing s; tempObserving := tempObserving s;
     caretTracking := ct; comp_oldValue := ov |}.

Module UndoBuffer.

(** The object right after the constructor has run: [range0] stands for
    the collapsed [new Range()]. *)
Definition init (tgt : node_id) (size : Z) (range0 : caret) : ubuf :=
  {| ub_target := tgt; bufferSize := size; offset := 0; pos := 0; endPos := 0;
     buffer := []; tempBuffer := []; range := range0;
     observing := true; tempObserving := false; caretTracking := true;
     comp_oldValue := Some EmptyString |}.

(** [#existBuffer(readPos)] *)
Definition existBuffer (s : ubuf) (readPos : Z) : bool :=
  if negb (offset s =? endPos s)%Z then
    if (offset s <? endPos s)%Z then
      (offset s <=? readPos)%Z && (readPos <? endPos s)%Z
    else
      (offset s <=? readPos)%Z && (readPos <? bufferSize s)%Z
      || (0 <=? readPos)%Z && (readPos <? endPos s)%Z
  else false.

(** [for (let i = lo; i < hi; ++i) this.#buffer[i] = [];] *)
Fixpoint clear_loop (n i : nat) (b : list slot) : list slot :=
  match n with
  | O => b
  | S n' => clear_loop n' (S i) (array_set i Cleared b)
  end.
Definition clear_range (lo hi : Z) (b : list slot) : list slot :=
  clear_loop (Z.to_nat (hi - lo)) (Z.to_nat lo) b.

Definition append_records (rs : list record) (sl : slot) : result slot :=
  match sl with
  | Piece p => Ok (Piece {| records := records p ++ rs; oldRange := oldRange p;
                            newRange := newRange p |})
  | _ => Throw TypeError
  end.

(** The [else] branch of [push]: a new piece is written at [#pos]. *)
Definition push_new (s : ubuf) (w : world) (rs : list record) : ubuf :=
  let piece := {| records := rs; oldRange := range s; newRange := getCaret w |} in
  let b1 := if (pos s <? Z.of_nat (length (buffer s)))%Z
            then array_set (Z.to_nat (pos s)) (Piece piece) (buffer s)
            else buffer s ++ [Piece piece] in
  let p1 := Z.rem (pos s + 1) (bufferSize s) in
  let off1 := if (p1 =? offset s)%Z then Z.rem (offset s + 1) (bufferSize s)
              else offset s in
  let b2 := if (off1 <? p1)%Z
            then clear_range 0 off1 (clear_range p1 (Z.of_nat (length b1)) b1)
            else clear_range p1 off1 b1 in
  with_ring s off1 p1 p1 b2.

(** [push(records, mode)] *)
Definition push (s : ubuf) (w : world) (rs : list record) (mode : bool) : result ubuf :=
  if (bufferSize s <=? 0)%Z then Ok s
  else if mode then
    let writePos := Z.rem (pos s + bufferSize s - 1) (bufferSize s) in
    if existBuffer s writePos then
      match lookupZ (buffer s) writePos with
      | Some sl =>
          sl' ← append_records rs sl;
          Ok (with_ring s (offset s) (pos s) (endPos s)
                (<[Z.to_nat writePos := sl']> (buffer s)))
      | None => Throw TypeError
      end
    else Ok (push_new s w rs)
  else Ok (push_new s w rs).

(** The loops of [#undo] and [#redo] over the nodes of a [childList]
    record. *)
Fixpoint removeChild_each (d : gmap node_id dom_node) (tgt : node_id)
    (nodes : list node_id) : result (gmap node_id dom_node) :=
  match nodes with
  | [] => Ok d
  | n :: rest => d' ← Dom.removeChild d tgt n; removeChild_each d' tgt rest
  end.
Fixpoint insertBefore_each (d : gmap node_id dom_node) (tgt : node_id)
    (nodes : list node_id) (ref : option node_id) : result (gmap node_id dom_node) :=
  match nodes with
  | [] => Ok d
  | n :: rest => d' ← Dom.insertBefore d tgt n ref; insertBefore_each d' tgt rest ref
  end.

Definition undo_op (d : gmap node_id dom_node) (op : record)
  : result (gmap node_id dom_node * record) :=
  match type op with
  | characterData =>
      Ok (Dom.set_nodeValue d (target op) (oldValue op),
          set_newValue (Dom.nodeValue d (target op)) op)
  | attributes =>
      v ← Dom.getAttribute d (target op) (record_attr op);
      d' ← match oldValue op with
           | None => Dom.removeAttribute d (target op) (record_attr op)
           | Some o => Dom.setAttribute d (target op) (record_attr op) o
           end;
      Ok (d', set_newValue v op)
  | childList =>
      d1 ← removeChild_each d (target op) (reverse (addedNodes op));
      d2 ← insertBefore_each d1 (target op) (reverse (removedNodes op)) (nextSibling op);
      Ok (d2, op)
  end.

(** [#undo(records)]: the records are visited from the last to the first
    and each one is updated in place. *)
Fixpoint undo_records (d : gmap node_id dom_node) (rs : list record)
  : result (gmap node_id dom_node * list record) :=
  match rs with
  | [] => Ok (d, [])
  | op :: rest =>
      '(d1, rest') ← undo_records d rest;
      '(d2, op') ← undo_op d1 op;
      Ok (d2, op' :: rest')
  end.

Definition redo_op (d : gmap node_id dom_node) (op : record)
  : result (gmap node_id dom_node) :=
  match type op with
  | characterData => Ok (Dom.set_nodeValue d (target op) (newValue op))
  | attributes =>
      match newValue op with
      | None => Dom.removeAttribute d (target op) (record_attr op)
      | Some v => Dom.setAttribute d (target op) (record_attr op) v
      end
  | childList =>
      d1 ← insertBefore_each d (target op) (addedNodes op) (nextSibling op);
      removeChild_each d1 (target op) (removedNodes op)
  end.

(** [#redo(records)] *)
Fixpoint redo_records (d : gmap node_id dom_node) (rs : list record)
  : result (gmap node_id dom_node) :=
  match rs with
  | [] => Ok d
  | op :: rest => d1 ← redo_op d op; redo_records d1 rest
  end.

Definition slot_piece (b : list slot) (i : Z) : result piece :=
  match lookupZ b i with
  | Some (Piece p) => Ok p
  | _ => Throw TypeError
  end.

(** [undo()].  With [#bufferSize] equal to 0 the remainder is NaN and
    every comparison of [#existBuffer] is false. *)
Definition undo (s : ubuf) (w : world) : result (ubuf * world) :=
  if (bufferSize s =? 0)%Z then Ok (s, w)
  else
    let readPos := Z.rem (pos s + bufferSize s - 1) (bufferSize s) in
    if existBuffer s readPos then
      p ← slot_piece (buffer s) readPos;
      '(d', rs') ← undo_records (w_dom w) (records p);
      w' ← updateCaret (with_dom w d') (Some (oldRange p));
      let p' := {| records := rs'; oldRange := oldRange p; newRange := newRange p |} in
      Ok (with_observing
            (with_ring s (offset s) readPos (endPos s)
               (<[Z.to_nat readPos := Piece p']> (buffer s)))
            true (tempObserving s),
          w')
    else Ok (s, w).

(** [redo()] *)
Definition redo (s : ubuf) (w : world) : result (ubuf * world) :=
  let readPos := pos s in
  if existBuffer s readPos then
    p ← slot_piece (buffer s) readPos;
    d' ← redo_records (w_dom w) (records p);
    w' ← updateCaret (with_dom w d') (newRange p);
    Ok (with_observing
          (with_ring s (offset s) (Z.rem (pos s + 1) (bufferSize s)) (endPos s) (buffer s))
          true (tempObserving s),
        w')
  else Ok (s, w).

End UndoBuffer.

(** ** class Nomalizer *)

(** The [targets] argument of [moveNodeList]: an array of nodes, or the
    live [childNodes] list of a node, which shrinks while its members are
    moved away. *)
Inductive node_list :=
  | NodeArray (l : list node_id)
  | ChildNodesOf (n : node_id).

(** Start index of [Array.prototype.splice]. *)
Definition splice_start (len : nat) (i : Z) : nat :=
  if (i <? 0)%Z then Z.to_nat (Z.max (Z.of_nat len + i) 0)
  else Z.to_nat (Z.min i (Z.of_nat len)).

Definition set_start (c : node_id) (o : Z) (r : caret) : caret :=
  {| startContainer := c; startOffset := o;
     endContainer := endContainer r; endOffset := endOffset r |}.
Definition set_end (c : node_id) (o : Z) (r : caret) : caret :=
  {| startContainer := startContainer r; startOffset := startOffset r;
     endContainer := c; endOffset := o |}.

Module Nomalizer.

Definition items (d : gmap node_id dom_node) (t : node_list) : list node_id :=
  match t with
  | NodeArray l => l
  | ChildNodesOf n => Dom.childNodes d n
  end.

Definition is_tag (d : gmap node_id dom_node) (n : node_id) (tag : string) : bool :=
  (Dom.nodeType d n =? ELEMENT_NODE)%Z && String.eqb (toLowerCase (Dom.tagName d n)) tag.

(** The [while (begin !== end)] loop of [replaceOperation]; [n] is the
    distance [end - begin], which every iteration decreases by one. *)
Fixpoint replace_loop (n : nat) (rs : list record) (node tgt : node_id)
    (prev next : option node_id) (begin : nat) : result (list record) :=
  match n with
  | O => Ok rs
  | S n' =>
      match rs !! begin with
      | None => Throw TypeError
      | Some r =>
          match type r with
          | childList =>
              let r1 := if decide (target r = node) then set_target tgt r else r in
              let r2 := if decide (previousSibling r1 = Some node)
                        then set_previousSibling prev r1 else r1 in
              let r3 := if decide (nextSibling r2 = Some node)
                        then set_nextSibling next r2 else r2 in
              replace_loop n' (<[begin := r3]> rs) node tgt prev next (S begin)
          | _ =>
              if decide (target r = node)
              then replace_loop n' (delete begin rs) node tgt prev next begin
              else replace_loop n' rs node tgt prev next (S begin)
          end
      end
  end.

(** [replaceOperation(records, node, target, previousSibling, nextSibling,
    begin, end)].  When [begin] is past [end] the loop runs off the array
    and reads a property of [undefined]. *)
Definition replaceOperation (rs : list record) (node tgt : node_id)
    (prev next : option node_id) (begin end_ : Z) : result (list record) :=
  if (begin =? end_)%Z then Ok rs
  else if (0 <=? begin)%Z && (begin <? end_)%Z
  then replace_loop (Z.to_nat (end_ - begin)) rs node tgt prev next (Z.to_nat begin)
  else Throw TypeError.

(** [insertInsertOperation(records, target, nodes, index)] *)
Definition insertInsertOperation (d : gmap node_id dom_node) (rs : list record)
    (tgt : node_id) (nodes : list node_id) (index : Z) : list record :=
  match nodes with
  | [] => rs
  | n0 :: _ =>
      let r := {| type := childList; target := tgt; addedNodes := nodes;
                  removedNodes := [];
                  previousSibling := Dom.previousSibling d n0;
                  nextSibling := Dom.nextSibling d (List.last nodes n0);
                  attributeName := None; attributeNamespace := None;
                  oldValue := None; newValue := None |} in
      let k := splice_start (length rs) index in
      take k rs ++ r :: drop k rs
  end.

(** [cancelInsertOperation(records, i, j)]; the last component is the
    record object [records[i]] after the call. *)
Definition cancelInsertOperation (rs : list record) (i j : Z)
  : result (list record * Z * Z * record) :=
  match lookupZ rs i with
  | None => Throw TypeError
  | Some op =>
      let added := delete (splice_start (length (addedNodes op)) j) (addedNodes op) in
      let op' := set_addedNodes added op in
      let rs1 := <[Z.to_nat i := op']> rs in
      if (length added =? 0)%nat
      then Ok (delete (Z.to_nat i) rs1, (i - 1)%Z, (j - 1)%Z, op')
      else Ok (rs1, i, (j - 1)%Z, op')
  end.

(** [getChildIndex(node)]: the number of [previousSibling] steps. *)
Fixpoint count_previous (fuel : nat) (d : gmap node_id dom_node) (node : node_id) : Z :=
  match fuel with
  | O => 0
  | S f =>
      match Dom.previousSibling d node with
      | None => 0
      | Some m => (1 + count_previous f d m)%Z
      end
  end.
Definition getChildIndex (d : gmap node_id dom_node) (node : node_id) : Z :=
  count_previous
    (match Dom.parentNode d node with
     | Some p => length (Dom.childNodes d p)
     | None => O
     end) d node.

(** [for (const target of targets) refParent.insertBefore(target, ref)]:
    the iterator reads index [k] of the list as it is at that moment. *)
Fixpoint move_each (n : nat) (d : gmap node_id dom_node) (targets : node_list)
    (k : nat) (refParent ref : node_id) : result (gmap node_id dom_node) :=
  match n with
  | O => Ok d
  | S n' =>
      match items d targets !! k with
      | None => Ok d
      | Some t =>
          d' ← Dom.insertBefore d refParent t (Some ref);
          move_each n' d' targets (S k) refParent ref
      end
  end.

Definition in_moved (offset len x : Z) : bool :=
  (offset <=? x)%Z && (x <=? offset + len)%Z.

(** The caret re-anchoring at the end of [moveNodeList]. *)
Definition move_caret (r : caret) (targetsParent : option node_id)
    (offset childIndex len : Z) (refParent : node_id) : caret :=
  let r1 := if bool_decide (Some (startContainer r) = targetsParent)
               && in_moved offset len (startOffset r)
            then set_start refParent (startOffset r - offset + childIndex)%Z r else r in
  let r2 := if bool_decide (Some (endContainer r1) = targetsParent)
               && in_moved offset len (endOffset r1)
            then set_end refParent (endOffset r1 - offset + childIndex)%Z r1 else r1 in
  match targetsParent with
  | Some _ => r2
  | None =>
      let r3 := if bool_decide (startContainer r2 = refParent)
                   && (childIndex <=? startOffset r2)%Z
                then set_start (startContainer r2) (startOffset r2 + len)%Z r2 else r2 in
      if bool_decide (endContainer r3 = refParent) && (childIndex <=? endOffset r3)%Z
      then set_end (endContainer r3) (endOffset r3 + len)%Z r3 else r3
  end.

(** [moveNodeList(range, targets, refParent, ref)] *)
Definition moveNodeList (d : gmap node_id dom_node) (range : option caret)
    (targets : node_list) (refParent : node_id) (ref : option node_id)
  : result (gmap node_id dom_node * option caret) :=
  match items d targets with
  | [] => Ok (d, range)
  | t0 :: _ =>
      let targetsParent := Dom.parentNode d t0 in
      let offset := getChildIndex d t0 in
      let childIndex := match ref with
                        | Some r => getChildIndex d r
                        | None => Z.of_nat (length (Dom.childNodes d refParent))
                        end in
      d' ← match ref with
           | Some r => move_each (length (items d targets)) d targets 0 refParent r
           | None => Dom.append d refParent (items d targets)
           end;
      Ok (d', (fun r => move_caret r targetsParent offset childIndex
                          (Z.of_nat (length (items d' targets))) refParent) <$> range)
  end.

(** [replaceNodeAndInsertOperation(records, i, j, target)] *)
Definition replaceNodeAndInsertOperation (d : gmap node_id dom_node)
    (rs : list record) (i j : Z) (tgt : node_id)
  : result (gmap node_id dom_node * list record * record) :=
  match lookupZ rs i with
  | None => Throw TypeError
  | Some op =>
      match lookupZ (addedNodes op) j with
      | None => Throw TypeError
      | Some node =>
          d' ← Dom.replaceChild d (target op) tgt node;
          let op' := set_addedNodes (<[Z.to_nat j := tgt]> (addedNodes op)) op in
          let rs1 := <[Z.to_nat i := op']> rs in
          rs2 ← replaceOperation rs1 node tgt (Some tgt) (Some tgt)
                  (i + 1) (Z.of_nat (length rs1));
          Ok (d', rs2, op')
      end
  end.

Definition shift_after_removal (r : caret) (tgt : node_id) (childIndex : Z) : caret :=
  let r1 := if bool_decide (startContainer r = tgt) && (childIndex <? startOffset r)%Z
            then set_start (startContainer r) (startOffset r - 1)%Z r else r in
  if bool_decide (endContainer r1 = tgt) && (childIndex <? endOffset r1)%Z
  then set_end (endContainer r1) (endOffset r1 - 1)%Z r1 else r1.

(** [expandChildNodesAndInsertOperation(range, records, i, j)] *)
Definition expandChildNodesAndInsertOperation (d : gmap node_id dom_node)
    (range : option caret) (rs : list record) (i j : Z)
  : result (gmap node_id dom_node * option caret * list record * Z * Z * record) :=
  match lookupZ rs i with
  | None => Throw TypeError
  | Some op =>
      match lookupZ (addedNodes op) j with
      | None => Throw TypeError
      | Some node =>
          let ref := Dom.nextSibling d node in
          let childIndex := getChildIndex d node in
          '(rs1, i1, j1, op1) ← cancelInsertOperation rs i j;
          d1 ← Dom.removeChild d (target op) node;
          let range1 := (fun r => shift_after_removal r (target op) childIndex) <$> range in
          match Dom.childNodes d1 node with
          | [] => Ok (d1, range1, rs1, i1, j1, op1)
          | c0 :: cs =>
              rs2 ← replaceOperation rs1 node (target op)
                      (Some (List.last cs c0)) (Some c0)
                      (i1 + 1) (Z.of_nat (length rs1));
              '(d2, range2) ← moveNodeList d1 range1 (ChildNodesOf node) (target op) ref;
              Ok (d2, range2, rs2, i1, j1, op1)
          end
      end
  end.

(** [moveNodeAndInsertOperation(range, records, i, j, target)] *)
Definition moveNodeAndInsertOperation (d : gmap node_id dom_node)
    (range : option caret) (rs : list record) (i j : Z) (tgt : node_id)
  : result (gmap node_id dom_node * option caret * list record * Z * Z * record) :=
  match lookupZ rs i with
  | None => Throw TypeError
  | Some op =>
      match lookupZ (addedNodes op) j with
      | None => Throw TypeError
      | Some node =>
          let prev := Dom.previousSibling d node in
          let next := Dom.nextSibling d node in
          '(rs1, i1, j1, op1) ← cancelInsertOperation rs i j;
          rs2 ← replaceOperation rs1 node (target op) prev next
                  (i1 + 1) (Z.of_nat (length rs1));
          '(d1, range1) ← moveNodeList d range (NodeArray [node]) tgt None;
          let rs3 := insertInsertOperation d1 rs2 tgt [node] (Z.of_nat (length rs2)) in
          Ok (d1, range1, rs3, i1, j1, op1)
      end
  end.

(** [insertParentNodeAndInsertOperation(range, records, i, j, parent)] *)
Definition insertParentNodeAndInsertOperation (d : gmap node_id dom_node)
    (range : option caret) (rs : list record) (i j : Z) (parent : node_id)
  : result (gmap node_id dom_node * option caret * list record * record) :=
  match lookupZ rs i with
  | None => Throw TypeError
  | Some op =>
      match lookupZ (addedNodes op) j with
      | None => Throw TypeError
      | Some node =>
          '(d1, rs1, op1) ← replaceNodeAndInsertOperation d rs i j parent;
          match Dom.parentNode d1 parent with
          | None => Throw TypeError
          | Some pp =>
              d2 ← Dom.insertBefore d1 pp node (Some parent);
              '(d3, range1) ← moveNodeList d2 range (NodeArray [node]) parent None;
              let rs2 := insertInsertOperation d3 rs1 parent [node] (i + 1) in
              Ok (d3, range1, rs2, op1)
          end
      end
  end.

End Nomalizer.

Module Normalize.
Import Nomalizer.

(** The working state of the two loops of [normalize]: the host, the
    caret object [range], the array [records], the indices [i] and [j],
    and the record object [op] bound by [const op = records[i]].  While
    the inner loop body runs, [op] is the object stored at [records[i]];
    once a helper has removed it from the array it survives as [op]
    only. *)
Record loop_state := {
  ls_world : world;
  ls_range : option caret;
  ls_records : list record;
  ls_i : Z;
  ls_j : Z;
  ls_op : record
}.

Definition has_text_child (d : gmap node_id dom_node) (node : node_id) : bool :=
  existsb (fun c => (Dom.nodeType d c =? TEXT_NODE)%Z) (Dom.childNodes d node).

Definition only_child_is_br (d : gmap node_id dom_node) (node : node_id) : bool :=
  match Dom.childNodes d node with
  | [c] => is_tag d c "br"
  | _ => false
  end.

(** [while (parent !== root) ...]: is one of the ancestors below [root] a
    paragraph?  Leaving the tree dereferences [null]. *)
Fixpoint paragraph_above (fuel : nat) (d : gmap node_id dom_node) (root : node_id)
    (parent : option node_id) : result bool :=
  match parent with
  | None => Throw TypeError
  | Some p =>
      if decide (p = root) then Ok false
      else if is_tag d p "p" then Ok true
      else match fuel with
           | O => OutOfFuel
           | S f => paragraph_above f d root (Dom.parentNode d p)
           end
  end.

(** The body of the inner loop for [node = op.addedNodes[j]]. *)
Definition visit (root : node_id) (st : loop_state) : result loop_state :=
  let w := ls_world st in
  let d := w_dom w in
  let op := ls_op st in
  match lookupZ (addedNodes op) (ls_j st) with
  | None => Throw TypeError
  | Some node =>
      if negb (bool_decide (Dom.parentNode d node = Some (target op))) then Ok st
      else if (Dom.nodeType d node =? TEXT_NODE)%Z && bool_decide (target op = root) then
        let '(w1, p) := createElement w "p" in
        '(d1, range1, rs1, op1) ←
          insertParentNodeAndInsertOperation (w_dom w1) (ls_range st) (ls_records st)
            (ls_i st) (ls_j st) p;
        Ok {| ls_world := with_dom w1 d1; ls_range := range1; ls_records := rs1;
              ls_i := ls_i st; ls_j := ls_j st; ls_op := op1 |}
      else if has_text_child d node then
        if (negb (Dom.nodeType d node =? ELEMENT_NODE)%Z || is_tag d node "div")
           && bool_decide (target op = root) then
          let '(w1, p) := createElement w "p" in
          '(d1, rs1, op1) ←
            replaceNodeAndInsertOperation (w_dom w1) (ls_records st) (ls_i st) (ls_j st) p;
          '(d2, range1) ← moveNodeList d1 (ls_range st) (ChildNodesOf node) p None;
          Ok {| ls_world := with_dom w1 d2; ls_range := range1; ls_records := rs1;
                ls_i := ls_i st; ls_j := ls_j st; ls_op := op1 |}
        else Ok st
      else if only_child_is_br d node then
        if negb (is_tag d node "p") && bool_decide (target op = root) then
          '(d1, range1, rs1, i1, j1, op1) ←
            expandChildNodesAndInsertOperation d (ls_range st) (ls_records st)
              (ls_i st) (ls_j st);
          Ok {| ls_world := with_dom w d1; ls_range := range1; ls_records := rs1;
                ls_i := i1; ls_j := j1; ls_op := op1 |}
        else Ok st
      else if is_tag d node "br" && bool_decide (target op = root) then
        match Dom.previousSibling d node with
        | Some prev =>
            if negb (is_tag d prev "p") then
              let '(w1, p) := createElement w "p" in
              '(d1, range1, rs1, op1) ←
                insertParentNodeAndInsertOperation (w_dom w1) (ls_range st)
                  (ls_records st) (ls_i st) (ls_j st) p;
              Ok {| ls_world := with_dom w1 d1; ls_range := range1; ls_records := rs1;
                    ls_i := ls_i st; ls_j := ls_j st; ls_op := op1 |}
            else
              '(d1, range1, rs1, i1, j1, op1) ←
                moveNodeAndInsertOperation d (ls_range st) (ls_records st)
                  (ls_i st) (ls_j st) prev;
              Ok {| ls_world := with_dom w d1; ls_range := range1; ls_records := rs1;
                    ls_i := i1; ls_j := j1; ls_op := op1 |}
        | None =>
            let '(w1, p) := createElement w "p" in
            '(d1, range1, rs1, op1) ←
              insertParentNodeAndInsertOperation (w_dom w1) (ls_range st)
                (ls_records st) (ls_i st) (ls_j st) p;
            Ok {| ls_world := with_dom w1 d1; ls_range := range1; ls_records := rs1;
                  ls_i := ls_i st; ls_j := ls_j st; ls_op := op1 |}
        end
      else if is_tag d node "br" then
        match Dom.previousSibling d node, Dom.nextSibling d node with
        | Some prev, None =>
            if negb (is_tag d prev "br") then
              let '(w1, br) := createElement w "br" in
              match Dom.parentNode (w_dom w1) node with
              | None => Throw TypeError
              | Some par =>
                  '(d1, range1) ←
                    moveNodeList (w_dom w1) (ls_range st) (NodeArray [br]) par (Some node);
                  let rs1 := insertInsertOperation d1 (ls_records st) par [br]
                               (Z.of_nat (length (ls_records st))) in
                  Ok {| ls_world := with_dom w1 d1; ls_range := range1; ls_records := rs1;
                        ls_i := ls_i st; ls_j := ls_j st; ls_op := op |}
              end
            else Ok st
        | _, _ => Ok st
        end
      else if is_tag d node "p" then
        nested ← paragraph_above (size d) d root (Dom.parentNode d node);
        if nested : bool then
          '(d1, range1, rs1, i1, j1, op1) ←
            expandChildNodesAndInsertOperation d (ls_range st) (ls_records st)
              (ls_i st) (ls_j st);
          Ok {| ls_world := with_dom w d1; ls_range := range1; ls_records := rs1;
                ls_i := i1; ls_j := j1; ls_op := op1 |}
        else Ok st
      else Ok st
  end.

(** [++j] *)
Definition next_j (st : loop_state) : loop_state :=
  {| ls_world := ls_world st; ls_range := ls_range st;
     ls_records := ls_records st; ls_i := ls_i st;
     ls_j := (ls_j st + 1)%Z; ls_op := ls_op st |}.

(** [for (let j = 0; j != op.addedNodes.length; ++j)] *)
Fixpoint inner_loop (fuel : nat) (root : node_id) (st : loop_state) : result loop_state :=
  match fuel with
  | O => OutOfFuel
  | S f =>
      if (ls_j st =? Z.of_nat (length (addedNodes (ls_op st))))%Z then Ok st
      else
        st1 ← visit root st;
        inner_loop f root (next_j st1)
  end.

(** [for (let i = 0; i != records.length; ++i)] *)
Fixpoint outer_loop (fuel : nat) (root : node_id) (w : world) (range : option caret)
    (rs : list record) (i : Z) : result (world * option caret * list record) :=
  match fuel with
  | O => OutOfFuel
  | S f =>
      if (i =? Z.of_nat (length rs))%Z then Ok (w, range, rs)
      else
        match lookupZ rs i with
        | None => Throw TypeError
        | Some op =>
            match type op with
            | childList =>
                st ← inner_loop f root
                       {| ls_world := w; ls_range := range; ls_records := rs;
                          ls_i := i; ls_j := 0; ls_op := op |};
                outer_loop f root (ls_world st) (ls_range st) (ls_records st)
                  (ls_i st + 1)%Z
            | _ => outer_loop f root w range rs (i + 1)%Z
            end
        end
  end.

(** [normalize(root, records)] *)
Definition normalize (fuel : nat) (root : node_id) (w : world) (rs : list record)
  : result (world * list record) :=
  let range := getCaret w in
  '(w1, range1, rs1) ← outer_loop fuel root w range rs 0;
  w2 ← updateCaret w1 range1;
  Ok (w2, rs1).

End Normalize.

(** ** The capture controller (the callbacks installed by the constructor) *)

(** A change the host makes inside the observed subtree, and the mutation
    records it queues for an observer that asked for old values. *)
Inductive edit :=
  | SetData (n : node_id) (v : string)
  | SetAttr (n : node_id) (k : attr_key) (v : string)
  | RemoveAttr (n : node_id) (k : attr_key)
  | InsertChild (parent node : node_id) (ref : option node_id)
  | RemoveNode (parent node : node_id).

Definition blank_record (t : record_type) (tgt : node_id) : record :=
  {| type := t; target := tgt; addedNodes := []; removedNodes := [];
     previousSibling := None; nextSibling := None; attributeName := None;
     attributeNamespace := None; oldValue := None; newValue := None |}.

Definition removal_record (d : gmap node_id dom_node) (parent node : node_id) : record :=
  {| type := childList; target := parent; addedNodes := []; removedNodes := [node];
     previousSibling := Dom.previousSibling d node;
     nextSibling := Dom.nextSibling d node; attributeName := None;
     attributeNamespace := None; oldValue := None; newValue := None |}.

Definition attr_record (tgt : node_id) (k : attr_key) (old : option string) : record :=
  {| type := attributes; target := tgt; addedNodes := []; removedNodes := [];
     previousSibling := None; nextSibling := None; attributeName := Some (snd k);
     attributeNamespace := fst k; oldValue := old; newValue := None |}.

Definition data_record (d : gmap node_id dom_node) (tgt : node_id)
    (old : option string) : record :=
  {| type := characterData; target := tgt; addedNodes := []; removedNodes := [];
     previousSibling := Dom.previousSibling d tgt;
     nextSibling := Dom.nextSibling d tgt; attributeName := None;
     attributeNamespace := None; oldValue := old; newValue := None |}.

(** Not code of the repository: the change notification of the host (its
    MutationObserver, the Change-Notification capability of section 6 of
    the specification), written after the DOM standard.  Each change
    yields the tree after it and the records an observer of children,
    attributes and text with old values receives; a node that is moved is
    reported as a removal followed by an insertion. *)
Definition apply_edit (d : gmap node_id dom_node) (e : edit)
  : result (gmap node_id dom_node * list record) :=
  match e with
  | SetData n v =>
      match Dom.nodeValue d n with
      | Some old =>
          Ok (Dom.set_nodeValue d n (Some v),
              [{| type := characterData; target := n; addedNodes := [];
                  removedNodes := []; previousSibling := None; nextSibling := None;
                  attributeName := None; attributeNamespace := None;
                  oldValue := Some old; newValue := None |}])
      | None => Ok (d, [])
      end
  | SetAttr n k v =>
      old ← Dom.getAttribute d n k;
      d' ← Dom.setAttribute d n k v;
      Ok (d', [attr_record n k old])
  | RemoveAttr n k =>
      old ← Dom.getAttribute d n k;
      match old with
      | None => Ok (d, [])
      | Some _ => d' ← Dom.removeAttribute d n k; Ok (d', [attr_record n k old])
      end
  | InsertChild parent node ref =>
      d' ← Dom.insertBefore d parent node ref;
      let removal := match Dom.parentNode d node with
                     | Some p => [removal_record d p node]
                     | None => []
                     end in
      Ok (d', removal ++
              [{| type := childList; target := parent; addedNodes := [node];
                  removedNodes := []; previousSibling := Dom.previousSibling d' node;
                  nextSibling := Dom.nextSibling d' node; attributeName := None;
                  attributeNamespace := None; oldValue := None; newValue := None |}])
  | RemoveNode parent node =>
      d' ← Dom.removeChild d parent node;
      Ok (d', [removal_record d parent node])
  end.

Fixpoint apply_edits (d : gmap node_id dom_node) (es : list edit)
  : result (gmap node_id dom_node * list record) :=
  match es with
  | [] => Ok (d, [])
  | e :: rest =>
      '(d1, r1) ← apply_edit d e;
      '(d2, r2) ← apply_edits d1 rest;
      Ok (d2, r1 ++ r2)
  end.

Definition is_childList (r : record) : bool :=
  match type r with childList => true | _ => false end.

Module Controller.

(** The callback of [#observer]: normalise the batch and push it as a new
    piece, with the observer switched off meanwhile. *)
Definition observer_callback (fuel : nat) (s : ubuf) (w : world) (rs : list record)
  : result (ubuf * world) :=
  '(w1, rs1) ← Normalize.normalize fuel (ub_target s) w
                 (set_newValue None <$> rs);
  s1 ← UndoBuffer.push (with_observing s false (tempObserving s)) w1 rs1 false;
  Ok (with_observing s1 true (tempObserving s1), w1).

(** The callback of [#tempObserver] *)
Definition tempObserver_callback (s : ubuf) (rs : list record) : ubuf :=
  with_capture s (tempBuffer s ++ (set_newValue None <$> rs)) (range s)
    (caretTracking s) (comp_oldValue s).

(** [observeCaretEvent]: [this.#range = UndoBuffer.getCaret() || this.#range] *)
Definition observeCaretEvent (s : ubuf) (w : world) : ubuf :=
  with_capture s (tempBuffer s) (default (range s) (getCaret w))
    (caretTracking s) (comp_oldValue s).

Definition beforeinput (s : ubuf) (w : world) : ubuf :=
  if caretTracking s then observeCaretEvent s w else s.

(** The host changes the tree; the records reach whichever observers are
    connected ([#tempObserver] asked for child lists only).  The records
    are handed over at once: the microtask in which the host delivers them
    is taken to have run before the next event. *)
Definition host_edits (fuel : nat) (s : ubuf) (w : world) (es : list edit)
  : result (ubuf * world) :=
  '(d1, rs) ← apply_edits (w_dom w) es;
  let s1 := if tempObserving s
            then tempObserver_callback s (filter (fun r => is_childList r = true) rs)
            else s in
  if observing s1 then observer_callback fuel s1 (with_dom w d1) rs
  else Ok (s1, with_dom w d1).

(** The 'compositionstart' listener *)
Definition compositionstart (s : ubuf) (w : world) : ubuf :=
  let s1 := observeCaretEvent s w in
  let textNode := startContainer (range s1) in
  with_observing
    (with_capture s1 [] (range s1) false (Dom.nodeValue (w_dom w) textNode))
    false true.

(** The 'compositionend' listener, [e.data] being [data].  The boolean
    tells whether the rollback microtask has been queued. *)
Definition compositionend (fuel : nat) (s : ubuf) (w : world) (data : string)
  : result (ubuf * world * bool) :=
  let s0 := with_capture s (tempBuffer s) (range s) true (comp_oldValue s) in
  if (0 <? String.length data)%nat then
    let s1 := with_observing s0 (observing s0) false in
    let textNode := startContainer (range s1) in
    let synth := {| type := characterData; target := textNode; addedNodes := [];
                    removedNodes := [];
                    previousSibling := Dom.previousSibling (w_dom w) textNode;
                    nextSibling := Dom.nextSibling (w_dom w) textNode;
                    attributeName := None; attributeNamespace := None;
                    oldValue := comp_oldValue s1; newValue := None |} in
    '(w1, rs1) ← Normalize.normalize fuel (ub_target s1) w (tempBuffer s1 ++ [synth]);
    s2 ← UndoBuffer.push s1 w1 rs1 false;
    Ok (with_observing s2 true (tempObserving s2), w1, false)
  else Ok (s0, w, true).


End Controller.

(** ** Scenario fixtures *)

Definition mk_node (k : node_kind) (data : string) (p : option node_id)
    (cs : list node_id) : dom_node :=
  {| nkind := k; ndata := data; nparent := p; nchildren := cs; nattrs := ∅ |}.

Definition ins_record (tgt : node_id) (added : list node_id)
    (prev next : option node_id) : record :=
  {| type := childList; target := tgt; addedNodes := added; removedNodes := [];
     previousSibling := prev; nextSibling := next; attributeName := None;
     attributeNamespace := None; oldValue := None; newValue := None |}.

Definition caret_at (n : node_id) (o : Z) : caret :=
  {| startContainer := n; startOffset := o; endContainer := n; endOffset := o |}.

(** The editor root (node 0) holding the bare text node 1 just inserted. *)
Definition w_bare_text : world :=
  {| w_dom := <[0%nat := mk_node (ElementNode "DIV") "" None [1%nat]]>
              (<[1%nat := mk_node TextNode "hi" (Some 0%nat) []]> ∅);
     w_sel := Some (caret_at 1%nat 2);
     w_next := 2%nat |}.

(** ** Reachable ring-buffer states *)

(** The states the object passes through: the constructor, then any
    sequence of [push], [undo] and [redo] calls that return, interleaved
    with the controller's updates of the fields that are not part of the
    ring. *)
Inductive reachable : ubuf → Prop :=
  | reach_init tgt size r0 : reachable (UndoBuffer.init tgt size r0)
  | reach_push s w rs mode s' :
      reachable s → UndoBuffer.push s w rs mode = Ok s' → reachable s'
  | reach_undo s w s' w' :
      reachable s → UndoBuffer.undo s w = Ok (s', w') → reachable s'
  | reach_redo s w s' w' :
      reachable s → UndoBuffer.redo s w = Ok (s', w') → reachable s'
  | reach_capture s tb r ct ov :
      reachable s → reachable (with_capture s tb r ct ov)
  | reach_observing s o t :
      reachable s → reachable (with_observing s o t).

(** The invariant of the ring with a positive size. *)
Record ring_inv (s : ubuf) : Prop := {
  inv_offset : (0 ≤ offset s < bufferSize s)%Z;
  inv_pos : (0 ≤ pos s < bufferSize s)%Z;
  inv_endPos : (0 ≤ endPos s < bufferSize s)%Z;
  inv_length :
    Z.of_nat (length (buffer s)) = bufferSize s
    ∨ (offset s = 0 ∧ endPos s ≤ Z.of_nat (length (buffer s)) < bufferSize s)%Z;
  inv_window :
    ((offset s ≤ endPos s → offset s ≤ pos s ≤ endPos s)
     ∧ (endPos s < offset s → offset s ≤ pos s ∨ pos s ≤ endPos s))%Z;
  inv_valid :
    ∀ i, UndoBuffer.existBuffer s i = true →
         ∃ p, buffer s !! Z.to_nat i = Some (Piece p)
}.

Definition ring_ok (s : ubuf) : Prop :=
  if (bufferSize s <=? 0)%Z
  then offset s = 0%Z ∧ pos s = 0%Z ∧ endPos s = 0%Z ∧ buffer s = []
  else ring_inv s.

(** The slot [undo] reads and [push] in append mode writes. *)
Definition lastPos (s : ubuf) : Z := Z.rem (pos s + bufferSize s - 1) (bufferSize s).

(** Index [i] holds a batch that repeated [redo] calls would replay: it is
    [d] steps ahead of [#pos] and every slot from [#pos] up to it is
    valid. *)
Definition redo_available (s : ubuf) (i : Z) : Prop :=
  ∃ d : Z, (0 ≤ d)%Z ∧ i = Z.rem (pos s + d) (bufferSize s)
           ∧ (d < bufferSize s)%Z
           ∧ ∀ e, (0 ≤ e ≤ d)%Z →
                  UndoBuffer.existBuffer s (Z.rem (pos s + e) (bufferSize s)) = true.

(** The circular half-open window [[offset, endPos)] of the specification. *)
Definition in_window (s : ubuf) (i : Z) : Prop :=
  (offset s < endPos s ∧ offset s ≤ i < endPos s)%Z
  ∨ (endPos s < offset s ∧ (offset s ≤ i ∨ i < endPos s))%Z.

(** Boolean forms of the side conditions on a tree, for trees given
    explicitly. *)
Definition unusedb (d : gmap node_id dom_node) (n : node_id) : bool :=
  bool_decide (d !! n = None)
  && forallb (fun '(_, x) =>
                negb (bool_decide (nparent x = Some n))
                && negb (bool_decide (n ∈ nchildren x)))
       (map_to_list d).

Definition leafb (d : gmap node_id dom_node) (n : node_id) : bool :=
  bool_decide (Dom.childNodes d n = [])
  && forallb (fun '(_, x) => negb (bool_decide (nparent x = Some n))) (map_to_list d).

Definition rankedb (rank : node_id → nat) (d : gmap node_id dom_node) : bool :=
  forallb (fun '(m, x) =>
             match nparent x with
             | Some q => (rank q <? rank m)%nat
             | None => true
             end)
    (map_to_list d).

Definition children_of_b (d : gmap node_id dom_node) (n : node_id)
    (cs : list node_id) : bool :=
  forallb (fun x => bool_decide (Dom.parentNode d x = Some n)) cs.

(** The root 0 holding the paragraph 1 whose only child is the line break
    2 just inserted. *)
Definition w_lone_br : world :=
  {| w_dom := list_to_map
       [(0%nat, mk_node (ElementNode "DIV") "" None [1%nat]);
        (1%nat, mk_node (ElementNode "P") "" (Some 0%nat) [2%nat]);
        (2%nat, mk_node (ElementNode "BR") "" (Some 1%nat) [])];
     w_sel := Some (caret_at 1%nat 1);
     w_next := 3%nat |}.

(** The paragraph 1 holding the text 3 and the line break 2 just inserted
    after it. *)
Definition w_text_br : world :=
  {| w_dom := list_to_map
       [(0%nat, mk_node (ElementNode "DIV") "" None [1%nat]);
        (1%nat, mk_node (ElementNode "P") "" (Some 0%nat) [3%nat; 2%nat]);
        (3%nat, mk_node TextNode "abc" (Some 1%nat) []);
        (2%nat, mk_node (ElementNode "BR") "" (Some 1%nat) [])];
     w_sel := Some (caret_at 1%nat 2);
     w_next := 4%nat |}.

(** The paragraph 1 holding the paragraph 2 just inserted, which holds the
    text 3. *)
Definition w_nested_text : world :=
  {| w_dom := list_to_map
       [(0%nat, mk_node (ElementNode "DIV") "" None [1%nat]);
        (1%nat, mk_node (ElementNode "P") "" (Some 0%nat) [2%nat]);
        (2%nat, mk_node (ElementNode "P") "" (Some 1%nat) [3%nat]);
        (3%nat, mk_node TextNode "x" (Some 2%nat) [])];
     w_sel := Some (caret_at 3%nat 1);
     w_next := 4%nat |}.

(** The paragraph 1 holding the element 5 and the paragraph 2 just
    inserted, which holds the elements 3 and 4. *)
Definition w_nested_spans : world :=
  {| w_dom := list_to_map
       [(0%nat, mk_node (ElementNode "DIV") "" None [1%nat]);
        (1%nat, mk_node (ElementNode "P") "" (Some 0%nat) [5%nat; 2%nat]);
        (2%nat, mk_node (ElementNode "P") "" (Some 1%nat) [3%nat; 4%nat]);
        (3%nat, mk_node (ElementNode "SPAN") "" (Some 2%nat) []);
        (4%nat, mk_node (ElementNode "SPAN") "" (Some 2%nat) []);
        (5%nat, mk_node (ElementNode "SPAN") "" (Some 1%nat) [])];
     w_sel := Some (caret_at 1%nat 1);
     w_next := 6%nat |}.

(** The same with the caret inside the inserted paragraph 2, behind its
    two children. *)
Definition w_nested_caret_inside : world :=
  {| w_dom := w_dom w_nested_spans; w_sel := Some (caret_at 2%nat 2); w_next := 6%nat |}.

(** The same with the inserted paragraph 2 before the element 5. *)
Definition w_nested_spans_mid : world :=
  {| w_dom := list_to_map
       [(0%nat, mk_node (ElementNode "DIV") "" None [1%nat]);
        (1%nat, mk_node (ElementNode "P") "" (Some 0%nat) [2%nat; 5%nat]);
        (2%nat, mk_node (ElementNode "P") "" (Some 1%nat) [3%nat; 4%nat]);
        (3%nat, mk_node (ElementNode "SPAN") "" (Some 2%nat) []);
        (4%nat, mk_node (ElementNode "SPAN") "" (Some 2%nat) []);
        (5%nat, mk_node (ElementNode "SPAN") "" (Some 1%nat) [])];
     w_sel := Some (caret_at 1%nat 1);
     w_next := 6%nat |}.

(** The paragraph 1 holding the paragraph 2 just inserted, which holds the
    empty paragraph 3. *)
Definition w_nested_three : world :=
  {| w_dom := list_to_map
       [(0%nat, mk_node (ElementNode "DIV") "" None [1%nat]);
        (1%nat, mk_node (ElementNode "P") "" (Some 0%nat) [2%nat]);
        (2%nat, mk_node (ElementNode "P") "" (Some 1%nat) [3%nat]);
        (3%nat, mk_node (ElementNode "P") "" (Some 2%nat) [])];
     w_sel := Some (caret_at 1%nat 1);
     w_next := 4%nat |}.

(** The root with the text node 1 and no selection in the page. *)
Definition w_no_selection : world :=
  {| w_dom := w_dom w_bare_text; w_sel := None; w_next := 2%nat |}.

(** What the specification expects of the log after a bare text node [t]
    was wrapped: one structural record, targeting a paragraph, adding
    only [t], and no record that targets the root. *)
Definition single_paragraph_record (d : gmap node_id dom_node) (root t : node_id)
    (rs : list record) : Prop :=
  ∃ r, filter (fun r => type r = childList) rs = [r]
       ∧ Nomalizer.is_tag d (target r) "p" = true
       ∧ addedNodes r = [t]
       ∧ ∀ r', r' ∈ rs → target r' ≠ root.

(** Number of line-break children of a node. *)
Definition line_breaks (d : gmap node_id dom_node) (n : node_id) : nat :=
  length (filter (fun c => Nomalizer.is_tag d c "br" = true) (Dom.childNodes d n)).

(** Is some paragraph a child of a paragraph? *)
Definition nested_paragraphs (d : gmap node_id dom_node) : Prop :=
  ∃ inner outer, Dom.parentNode d inner = Some outer
                 ∧ Nomalizer.is_tag d inner "p" = true
                 ∧ Nomalizer.is_tag d outer "p" = true.

(** Depths of the nodes of [w_nested_spans]. *)
Definition depth_rank (m : node_id) : nat :=
  match m with
  | 0 => 0
  | 1 => 1
  | 2 | 5 => 2
  | _ => 3
  end%nat.

(** A ring of size 3 after two batches were pushed. *)
Definition ring3_two : ubuf :=
  UndoBuffer.push_new
    (UndoBuffer.push_new (UndoBuffer.init 0%nat 3 (caret_at 0%nat 0)) w_bare_text [])
    w_bare_text [].

(** [n] successive calls of [undo()], of [redo()]. *)
Fixpoint undo_n (n : nat) (s : ubuf) (w : world) : result (ubuf * world) :=
  match n with
  | O => Ok (s, w)
  | S k => '(s1, w1) ← UndoBuffer.undo s w; undo_n k s1 w1
  end.

Fixpoint redo_n (n : nat) (s : ubuf) (w : world) : result (ubuf * world) :=
  match n with
  | O => Ok (s, w)
  | S k => '(s1, w1) ← UndoBuffer.redo s w; redo_n k s1 w1
  end.

(** The same ring after two [undo()] calls, and after a further batch was
    pushed from there. *)
Definition ring3_undone : ubuf :=
  match undo_n 2 ring3_two w_bare_text with
  | Ok (s, _) => s
  | _ => ring3_two
  end.

Definition w_after_undo : world :=
  match undo_n 2 ring3_two w_bare_text with
  | Ok (_, w) => w
  | _ => w_bare_text
  end.

Definition ring3_branch : ubuf :=
  UndoBuffer.push_new ring3_undone w_lone_br [ins_record 1%nat [2%nat] None None].


(** An identity the tree does not use yet: no node has it, and no parent
    link or child list mentions it. *)
Definition unused (d : gmap node_id dom_node) (n : node_id) : Prop :=
  d !! n = None
  ∧ (∀ m, Dom.parentNode d m ≠ Some n)
  ∧ (∀ m, n ∉ Dom.childNodes d m).

(** A node without children, in both directions of the link. *)
Definition leaf (d : gmap node_id dom_node) (n : node_id) : Prop :=
  Dom.childNodes d n = [] ∧ ∀ m, Dom.parentNode d m ≠ Some n.

(** One batch as the controller pushes it: the normalised records, the
    caret the 'beforeinput' listener had stored in [#range] by then, and
    the host state at that moment (the tree after the edit). *)
Record batch := {
  b_records : list record;
  b_range : caret;
  b_world : world
}.

(** For each batch in turn: [#range] holds the caret stored before the
    edit, then [push(records, false)]. *)
Fixpoint push_all (s : ubuf) (bs : list batch) : result ubuf :=
  match bs with
  | [] => Ok s
  | b :: rest =>
      s' ← UndoBuffer.push
             (with_capture s (tempBuffer s) (b_range b) (caretTracking s) (comp_oldValue s))
             (b_world b) (b_records b) false;
      push_all s' rest
  end.

(** The batches describe the successive trees reversibly: the reverse
    replay of a batch on the tree after the edit gives the tree before it
    (and the records [u], with their [newValue] filled in), the forward
    replay of [u] gives the tree after the edit again, and a selection
    existed when the batch was pushed. *)
Fixpoint reversible (d0 : gmap node_id dom_node) (bs : list batch)
    (undone : list (list record)) : Prop :=
  match bs, undone with
  | [], [] => True
  | b :: rest, u :: urest =>
      UndoBuffer.undo_records (w_dom (b_world b)) (b_records b) = Ok (d0, u)
      ∧ UndoBuffer.redo_records d0 u = Ok (w_dom (b_world b))
      ∧ is_Some (w_sel (b_world b))
      ∧ reversible (w_dom (b_world b)) rest urest
  | _, _ => False
  end.

(** The selections the batches carry lie inside their nodes: the caret
    stored before an edit fits the tree before it, and the selection read
    at the push fits the tree after it. *)
Fixpoint selections_inside (d0 : gmap node_id dom_node) (bs : list batch) : Prop :=
  match bs with
  | [] => True
  | b :: rest =>
      caret_ok d0 (b_range b)
      ∧ (∃ c, w_sel (b_world b) = Some c ∧ caret_ok (w_dom (b_world b)) c)
      ∧ selections_inside (w_dom (b_world b)) rest
  end.

Definition final_tree (d0 : gmap node_id dom_node) (bs : list batch)
  : gmap node_id dom_node :=
  match last bs with
  | Some b => w_dom (b_world b)
  | None => d0
  end.

Definition piece_of (rs : list record) (b : batch) : slot :=
  Piece {| records := rs; oldRange := b_range b; newRange := w_sel (b_world b) |}.

(** The tree before batch number [j] (counting from 0). *)
Definition tree_at (d0 : gmap node_id dom_node) (bs : list batch) (j : nat)
  : gmap node_id dom_node :=
  match j with
  | O => d0
  | S j' => from_option (fun b => w_dom (b_world b)) d0 (bs !! j')
  end.

Arguments tree_at : simpl never.

(** The ring while a history of batches is walked: nothing was dropped,
    [pos] is [k], and slot [j] holds batch [j] with the records [recs j b]. *)
Definition walking (C : Z) (bs : list batch)
    (recs : nat → batch → list record) (k : nat) (s : ubuf) : Prop :=
  bufferSize s = C ∧ offset s = 0%Z ∧ endPos s = Z.of_nat (length bs)
  ∧ pos s = Z.of_nat k
  ∧ length (buffer s) = length bs
  ∧ ∀ j b, bs !! j = Some b → buffer s !! j = Some (piece_of (recs j b) b).

(** The paragraph 1 of the root 0 holding the text node 2, the caret
    behind the first character of the text. *)
Definition w_para (text : string) : world :=
  {| w_dom := list_to_map
       [(0%nat, mk_node (ElementNode "DIV") "" None [1%nat]);
        (1%nat, mk_node (ElementNode "P") "" (Some 0%nat) [2%nat]);
        (2%nat, mk_node TextNode text (Some 1%nat) [])];
     w_sel := Some (caret_at 2%nat 1);
     w_next := 3%nat |}.

Definition text_record (tgt : node_id) (old new : option string) : record :=
  {| type := characterData; target := tgt; addedNodes := []; removedNodes := [];
     previousSibling := None; nextSibling := None; attributeName := None;
     attributeNamespace := None; oldValue := old; newValue := new |}.


(** ** Depth of the history *)

(** Number of [undo()] calls that can still take effect: the distance from
    [#offset] to [#pos] around the ring. *)
Definition undo_depth (s : ubuf) : Z := (pos s - offset s) `mod` bufferSize s.

(** Number of [redo()] calls that can still take effect. *)
Definition redo_depth (s : ubuf) : Z := (endPos s - pos s) `mod` bufferSize s.

(** ** Classes of records *)

(** A record that is not structural: a text change or an attribute change. *)
Definition is_value_record (r : record) : bool := negb (is_childList r).

(** The paragraph 1 carrying the attribute [class]. *)
Definition d_classed (v : string) : gmap node_id dom_node :=
  list_to_map
    [(0%nat, mk_node (ElementNode "DIV") "" None [1%nat]);
     (1%nat, {| nkind := ElementNode "P"; ndata := ""; nparent := Some 0%nat;
                nchildren := [2%nat]; nattrs := {[ (None, "class"%string) := v ]} |});
     (2%nat, mk_node TextNode "abc" (Some 1%nat) [])].

(** ** What the helpers of the normaliser compute *)

(** What [replaceOperation] does to one structural record: the fields
    [target], [previousSibling] and [nextSibling] that name [node] are
    redirected. *)
Definition retarget (node tgt : node_id) (prev next : option node_id) (r : record)
  : record :=
  let r1 := if decide (target r = node) then set_target tgt r else r in
  let r2 := if decide (previousSibling r1 = Some node)
            then set_previousSibling prev r1 else r1 in
  if decide (nextSibling r2 = Some node) then set_nextSibling next r2 else r2.

(** The records of a range after [replaceOperation]: text and attribute
    records of [node] are dropped, structural records are redirected, the
    others are kept. *)
Definition replaced (node tgt : node_id) (prev next : option node_id)
    (rs : list record) : list record :=
  (fun r => if is_childList r then retarget node tgt prev next r else r)
    <$> filter (fun r => is_childList r = true ∨ target r ≠ node) rs.

(** The members at the positions 0, 2, 4, ... of a list. *)
Fixpoint alternate (l : list node_id) : list node_id :=
  match l with
  | [] => []
  | a :: l' => a :: match l' with
                    | [] => []
                    | _ :: l'' => alternate l''
                    end
  end.

(** A record [normalize] has nothing to do with in the tree [d]: it is not
    structural, or each node it added has left the record's target since
    or is a childless text node below a node other than the root. *)
Definition settled (root : node_id) (d : gmap node_id dom_node) (r : record) : Prop :=
  type r = childList →
  ∀ n, n ∈ addedNodes r →
    Dom.parentNode d n ≠ Some (target r)
    ∨ (Dom.kind d n = TextNode ∧ Dom.childNodes d n = [] ∧ target r ≠ root).

(** ** Classes of host changes *)



(** A change of the host that is not structural. *)
Definition value_edit (e : edit) : bool :=
  match e with
  | SetData _ _ | SetAttr _ _ _ | RemoveAttr _ _ => true
  | _ => false
  end.

(** ** A composition session *)

(** The paragraph 1 of the root 0 holding the text node 2, and the text
    node 3 that has no parent yet; the caret at the end of the text 2. *)
Definition w_para_spare (text : string) : world :=
  {| w_dom := list_to_map
       [(0%nat, mk_node (ElementNode "DIV") "" None [1%nat]);
        (1%nat, mk_node (ElementNode "P") "" (Some 0%nat) [2%nat]);
        (2%nat, mk_node TextNode text (Some 1%nat) []);
        (3%nat, mk_node TextNode "" None [])];
     w_sel := Some (caret_at 2%nat (Z.of_nat (String.length text)));
     w_next := 4%nat |}.

(** A composition session on [w_para_spare "a"]: the host puts the spare
    text node at the end of the paragraph and types into the text 2. *)
Definition ime_session : list edit := [InsertChild 1%nat 3%nat None; SetData 2%nat "ab"].

Definition ime_state (size : Z) : ubuf :=
  match Controller.host_edits 10
          (Controller.compositionstart (UndoBuffer.init 0%nat size (caret_at 0%nat 0))
             (w_para_spare "a"))
          (w_para_spare "a") ime_session with
  | Ok (s, _) => s
  | _ => UndoBuffer.init 0%nat size (caret_at 0%nat 0)
  end.

Definition ime_world : world :=
  match apply_edits (w_dom (w_para_spare "a")) ime_session with
  | Ok (d, _) => {| w_dom := d; w_sel := Some (caret_at 2%nat 2); w_next := 4%nat |}
  | _ => w_para_spare "a"
  end.

(** ** The Shift+Enter key ([shiftEnter]) *)

(** [range.collapsed] *)
Definition is_collapsed (r : caret) : bool :=
  bool_decide (startContainer r = endContainer r) && (startOffset r =? endOffset r)%Z.

Definition blank_text (data : string) : dom_node :=
  {| nkind := TextNode; ndata := data; nparent := None; nchildren := []; nattrs := ∅ |}.

(** [text.length] *)
Definition text_length (d : gmap node_id dom_node) (n : node_id) : Z :=
  Z.of_nat (String.length (from_option ndata EmptyString (d !! n))).

(** [text.splitText(offset)]: the node keeps its first [offset] characters
    and a new text node with the remaining ones becomes its next sibling;
    an offset past the end raises an IndexSizeError. *)
Definition splitText (w : world) (n : node_id) (offset : Z) : result (world * node_id) :=
  if (offset <? 0)%Z || (text_length (w_dom w) n <? offset)%Z then Throw IndexSizeError
  else
    let data := from_option ndata EmptyString (w_dom w !! n) in
    let k := Z.to_nat offset in
    let fresh := w_next w in
    let d1 := <[fresh := blank_text (String.substring k (String.length data - k) data)]>
                (w_dom w) in
    let d2 := match Dom.parentNode d1 n with
              | Some p => Dom.attach d1 p fresh (Dom.nextSibling d1 n)
              | None => d1
              end in
    let d3 := alter (set_data (String.substring 0 k data)) n d2 in
    Ok ({| w_dom := d3; w_sel := w_sel w; w_next := S fresh |}, fresh).

(** The end of [shiftEnter]: [range.setStart] and [range.setEnd] put the
    caret right after the line break. *)
Definition caret_after (w : world) (br : node_id) : result world :=
  match Dom.parentNode (w_dom w) br with
  | None => Throw TypeError
  | Some par =>
      let offset := Nomalizer.getChildIndex (w_dom w) br in
      if negb (boundary_ok (w_dom w) par (offset + 1)) then Throw IndexSizeError
      else Ok {| w_dom := w_dom w;
                 w_sel := Some (caret_at par (offset + 1));
                 w_next := w_next w |}
  end.

(** [parent.insertBefore(node, ref)] on a [parent] that may be [null]. *)
Definition insert_under (w : world) (parent : option node_id) (node : node_id)
    (ref : option node_id) : result world :=
  match parent with
  | None => Throw TypeError
  | Some p => d ← Dom.insertBefore (w_dom w) p node ref; Ok (with_dom w d)
  end.

(** [shiftEnter(root)].  [deleteContents] stands for [Range.deleteContents]
    of the host: the tree after the deletion and the range the host
    leaves. *)
Definition shiftEnter
    (deleteContents : gmap node_id dom_node → caret → gmap node_id dom_node * caret)
    (w : world) : result world :=
  match w_sel w with
  | None => Ok w
  | Some r0 =>
      let '(d0, r) :=
        if is_collapsed r0 then (w_dom w, r0)
        else let '(d', r') := deleteContents (w_dom w) r0 in
             (d', caret_at (endContainer r') (endOffset r')) in
      let sc := startContainer r in
      let so := startOffset r in
      let '(w1, br) :=
        createElement {| w_dom := d0; w_sel := Some r; w_next := w_next w |} "br" in
      match Dom.kind (w_dom w1) sc with
      | TextNode =>
          if (so =? 0)%Z then
            w2 ← insert_under w1 (Dom.parentNode (w_dom w1) sc) br (Some sc);
            caret_after w2 br
          else if (so =? text_length (w_dom w1) sc)%Z then
            w2 ← insert_under w1 (Dom.parentNode (w_dom w1) sc) br
                   (Dom.nextSibling (w_dom w1) sc);
            caret_after w2 br
          else
            '(w2, newNode) ← splitText w1 sc so;
            w3 ← insert_under w2 (Dom.parentNode (w_dom w2) sc) br (Some newNode);
            caret_after w3 br
      | CommentNode | CDataNode => Ok w1
      | _ =>
          let cs := Dom.childNodes (w_dom w1) sc in
          w2 ← insert_under w1 (Some sc) br
                 (if (so =? Z.of_nat (length cs))%Z then None else lookupZ cs so);
          caret_after w2 br
      end
  end.

(** ** Typing through the controller *)

(** The host changes the text of a node, once per element of the list;
    after each change the main observer's callback runs. *)
Fixpoint type_all (fuel : nat) (s : ubuf) (w : world) (es : list (node_id * string))
  : result (ubuf * world) :=
  match es with
  | [] => Ok (s, w)
  | (n, v) :: rest =>
      '(s1, w1) ← Controller.host_edits fuel s w [SetData n v];
      type_all fuel s1 w1 rest
  end.

(** The trees the text changes lead through. *)
Fixpoint typed_tree (d : gmap node_id dom_node) (es : list (node_id * string))
  : gmap node_id dom_node :=
  match es with
  | [] => d
  | (n, v) :: rest => typed_tree (Dom.set_nodeValue d n (Some v)) rest
  end.

(** Every change hits a character-data node, the caret [r0] stored in the
    object fits the tree before each change and the selection [c] of the
    page the tree after it. *)
Fixpoint typing_fits (r0 c : caret) (d : gmap node_id dom_node)
    (es : list (node_id * string)) : Prop :=
  match es with
  | [] => True
  | (n, v) :: rest =>
      is_Some (Dom.nodeValue d n)
      ∧ caret_ok d r0
      ∧ caret_ok (Dom.set_nodeValue d n (Some v)) c
      ∧ typing_fits r0 c (Dom.set_nodeValue d n (Some v)) rest
  end.

(** The batches the text changes are pushed as. *)
Fixpoint typed_batches (r0 : caret) (w : world) (es : list (node_id * string))
  : list batch :=
  match es with
  | [] => []
  | (n, v) :: rest =>
      let w1 := with_dom w (Dom.set_nodeValue (w_dom w) n (Some v)) in
      {| b_records := [text_record n (Dom.nodeValue (w_dom w) n) None];
         b_range := r0; b_world := w1 |} :: typed_batches r0 w1 rest
  end.

(** The records of the batches after [#undo] has filled in [newValue]. *)
Fixpoint typed_undone (d : gmap node_id dom_node) (es : list (node_id * string))
  : list (list record) :=
  match es with
  | [] => []
  | (n, v) :: rest =>
      [text_record n (Dom.nodeValue d n) (Some v)]
      :: typed_undone (Dom.set_nodeValue d n (Some v)) rest
  end.

(** ** Inputs of the worked examples *)

(** A text record and an attribute record on [d_classed]. *)
Definition value_batch : list record :=
  [text_record 2%nat (Some "ab"%string) None;
   attr_record 1%nat (None, "class"%string) (Some "old"%string)].

(** The root 0 without children and the two parentless line breaks 1, 2. *)
Definition d_two_spare : gmap node_id dom_node :=
  list_to_map
    [(0%nat, mk_node (ElementNode "DIV") "" None []);
     (1%nat, mk_node (ElementNode "BR") "" None []);
     (2%nat, mk_node (ElementNode "BR") "" None [])].

Definition removal_of_two : record :=
  {| type := childList; target := 0%nat; addedNodes := [];
     removedNodes := [1%nat; 2%nat]; previousSibling := None; nextSibling := None;
     attributeName := None; attributeNamespace := None; oldValue := None;
     newValue := None |}.

(** A log in which the node 2 occurs as target and as sibling. *)
Definition log_about_2 : list record :=
  [ins_record 1%nat [2%nat] None None;
   text_record 2%nat (Some "a"%string) None;
   ins_record 2%nat [3%nat] None None;
   ins_record 1%nat [4%nat] (Some 2%nat) None].

(** * Properties *)

(** ** The validity test *)

Lemma existBuffer_true s i :
  UndoBuffer.existBuffer s i = true ↔
  ((offset s < endPos s ∧ offset s ≤ i < endPos s)
   ∨ (endPos s < offset s ∧ (offset s ≤ i < bufferSize s ∨ 0 ≤ i < endPos s)))%Z.
Proof.
  unfold UndoBuffer.existBuffer.
  destruct (Z.eqb_spec (offset s) (endPos s)) as [He|He]; simpl.
  - split; [discriminate | lia].
  - destruct (Z.ltb_spec (offset s) (endPos s)) as [Hl|Hl].
    + rewrite andb_true_iff, Z.leb_le, Z.ltb_lt. lia.
    + rewrite orb_true_iff, !andb_true_iff, !Z.leb_le, !Z.ltb_lt. lia.
Qed.

Lemma existBuffer_false s i :
  UndoBuffer.existBuffer s i = false ↔
  ¬ ((offset s < endPos s ∧ offset s ≤ i < endPos s)
     ∨ (endPos s < offset s ∧ (offset s ≤ i < bufferSize s ∨ 0 ≤ i < endPos s)))%Z.
Proof.
  rewrite <- existBuffer_true. destruct (UndoBuffer.existBuffer s i); split; congruence.
Qed.

(** C3. For an index [i] of the ring ([0 <= i < bufferSize]) the validity
    test is false whenever [offset = endPos], and otherwise true exactly on
    the circular half-open interval [[offset, endPos)]: [offset <= i <
    endPos] when [offset < endPos], and [i >= offset] or [i < endPos] when
    [offset > endPos]. *)
Theorem existBuffer_circular_window (s : ubuf) (i : Z) :
  (0 ≤ i < bufferSize s)%Z →
  (offset s = endPos s → UndoBuffer.existBuffer s i = false)
  ∧ (offset s ≠ endPos s → (UndoBuffer.existBuffer s i = true ↔ in_window s i))
  ∧ ((offset s < endPos s)%Z →
     (UndoBuffer.existBuffer s i = true ↔ (offset s ≤ i < endPos s)%Z))
  ∧ ((endPos s < offset s)%Z →
     (UndoBuffer.existBuffer s i = true ↔ (offset s ≤ i ∨ i < endPos s)%Z)).
Proof.
  intros Hi. unfold in_window.
  split; [|split; [|split]].
  - intros He. apply existBuffer_false. lia.
  - intros Hne. rewrite existBuffer_true. lia.
  - intros Hlt. rewrite existBuffer_true. lia.
  - intros Hgt. rewrite existBuffer_true. lia.
Qed.

(** ** Index arithmetic and the clearing loops *)

Lemma rem_succ (C x : Z) :
  (0 ≤ x < C)%Z → Z.rem (x + 1) C = if (x + 1 =? C)%Z then 0%Z else (x + 1)%Z.
Proof.
  intros H. rewrite Z.rem_mod_nonneg by lia.
  destruct (Z.eqb_spec (x + 1) C) as [->|Hne].
  - apply Z_mod_same_full.
  - apply Z.mod_small. lia.
Qed.

Lemma rem_pred (C x : Z) :
  (0 ≤ x < C)%Z → Z.rem (x + C - 1) C = if (x =? 0)%Z then (C - 1)%Z else (x - 1)%Z.
Proof.
  intros H. rewrite Z.rem_mod_nonneg by lia.
  destruct (Z.eqb_spec x 0) as [->|Hne].
  - apply Z.mod_small. lia.
  - replace (x + C - 1)%Z with (x - 1 + 1 * C)%Z by lia.
    rewrite Z_mod_plus_full. apply Z.mod_small. lia.
Qed.

Lemma rem_small (C x : Z) : (0 ≤ x < C)%Z → Z.rem x C = x.
Proof. intros H. rewrite Z.rem_mod_nonneg by lia. apply Z.mod_small. lia. Qed.

Lemma array_set_in_range (i : nat) v (b : list slot) :
  (i < length b)%nat → array_set i v b = <[i := v]> b.
Proof.
  intros H. unfold array_set.
  destruct (Nat.ltb_spec i (length b)); [done | lia].
Qed.

Lemma clear_loop_length n : ∀ i b,
  (i + n ≤ length b)%nat → length (UndoBuffer.clear_loop n i b) = length b.
Proof.
  induction n as [|n IH]; intros i b H; simpl; [done|].
  rewrite array_set_in_range by lia.
  rewrite IH; rewrite length_insert; lia.
Qed.

Lemma clear_loop_lookup n : ∀ i b k,
  (i + n ≤ length b)%nat →
  UndoBuffer.clear_loop n i b !! k
  = if decide (i ≤ k < i + n)%nat then Some Cleared else b !! k.
Proof.
  induction n as [|n IH]; intros i b k H; simpl.
  - case_decide; [lia | done].
  - rewrite array_set_in_range by lia.
    rewrite IH by (rewrite length_insert; lia).
    destruct (decide (i = k)) as [->|Hne].
    + repeat case_decide; try lia; try done.
      rewrite list_lookup_insert_eq by lia. done.
    + rewrite list_lookup_insert_ne by done.
      repeat case_decide; try lia; done.
Qed.

Lemma clear_range_length lo hi b :
  (0 ≤ lo)%Z → (hi ≤ Z.of_nat (length b))%Z →
  length (UndoBuffer.clear_range lo hi b) = length b.
Proof.
  intros Hlo Hhi. unfold UndoBuffer.clear_range.
  destruct (Z_le_gt_dec hi lo) as [Hle|Hgt].
  - replace (Z.to_nat (hi - lo)) with O by lia. done.
  - apply clear_loop_length. lia.
Qed.

Lemma clear_range_lookup lo hi b (k : nat) :
  (0 ≤ lo)%Z → (hi ≤ Z.of_nat (length b))%Z →
  UndoBuffer.clear_range lo hi b !! k
  = if decide (lo ≤ Z.of_nat k < hi)%Z then Some Cleared else b !! k.
Proof.
  intros Hlo Hhi. unfold UndoBuffer.clear_range.
  destruct (Z_le_gt_dec hi lo) as [Hle|Hgt].
  - replace (Z.to_nat (hi - lo)) with O by lia. simpl.
    case_decide; [lia | done].
  - rewrite clear_loop_lookup by lia.
    repeat case_decide; try lia; done.
Qed.

(** ** The ring invariant *)

Lemma ring_inv_pos_le_length s :
  ring_inv s → (pos s ≤ Z.of_nat (length (buffer s)))%Z.
Proof.
  intros [Ho Hp He Hl [Hw1 Hw2] _].
  destruct Hl as [Hl|[H0 Hl]]; lia.
Qed.

Lemma existBuffer_with_observing s o t i :
  UndoBuffer.existBuffer (with_observing s o t) i = UndoBuffer.existBuffer s i.
Proof. done. Qed.

Lemma existBuffer_with_capture s tb r ct ov i :
  UndoBuffer.existBuffer (with_capture s tb r ct ov) i = UndoBuffer.existBuffer s i.
Proof. done. Qed.

(** What [push] in new-piece mode does to a ring that satisfies the
    invariant. *)
Lemma push_new_spec s w rs :
  ring_inv s →
  let s' := UndoBuffer.push_new s w rs in
  let pc := Piece {| records := rs; oldRange := range s; newRange := getCaret w |} in
  bufferSize s' = bufferSize s
  ∧ pos s' = Z.rem (pos s + 1) (bufferSize s)
  ∧ endPos s' = pos s'
  ∧ offset s' = (if (pos s' =? offset s)%Z then Z.rem (offset s + 1) (bufferSize s)
                 else offset s)
  ∧ length (buffer s')
    = (if (pos s <? Z.of_nat (length (buffer s)))%Z then length (buffer s)
       else S (length (buffer s)))
  ∧ buffer s' !! Z.to_nat (pos s) = Some pc
  ∧ ∀ k : nat, (k < length (buffer s'))%nat → k ≠ Z.to_nat (pos s) →
      buffer s' !! k
      = if UndoBuffer.existBuffer s' (Z.of_nat k) then buffer s !! k else Some Cleared.
Proof.
  intros Hinv. pose proof (ring_inv_pos_le_length s Hinv) as Hple.
  destruct Hinv as [Ho Hp He Hl [Hw1 Hw2] Hv].
  set (len := length (buffer s)) in *.
  set (pc0 := Piece {| records := rs; oldRange := range s; newRange := getCaret w |}).
  set (b1 := if (pos s <? Z.of_nat len)%Z
             then array_set (Z.to_nat (pos s)) pc0 (buffer s)
             else buffer s ++ [pc0]).
  assert (Hb1len : length b1 = if (pos s <? Z.of_nat len)%Z then len else S len).
  { unfold b1. destruct (Z.ltb_spec (pos s) (Z.of_nat len)).
    - rewrite array_set_in_range by lia. by rewrite length_insert.
    - rewrite length_app. simpl. lia. }
  assert (Hb1pos : b1 !! Z.to_nat (pos s) = Some pc0).
  { unfold b1. destruct (Z.ltb_spec (pos s) (Z.of_nat len)).
    - rewrite array_set_in_range by lia. apply list_lookup_insert_eq. lia.
    - replace (Z.to_nat (pos s)) with (length (buffer s) + 0)%nat by lia.
      rewrite lookup_app_r by lia. by replace (length (buffer s) + 0 - length (buffer s))%nat with O by lia. }
  assert (Hb1other : ∀ k : nat, k ≠ Z.to_nat (pos s) → b1 !! k = buffer s !! k).
  { intros k Hk. unfold b1. destruct (Z.ltb_spec (pos s) (Z.of_nat len)).
    - rewrite array_set_in_range by lia. by apply list_lookup_insert_ne.
    - destruct (decide (k < len)%nat).
      + by rewrite lookup_app_l.
      + rewrite !lookup_ge_None_2; [done | lia | rewrite length_app; simpl; lia]. }
  cbv zeta. unfold UndoBuffer.push_new. fold len. fold pc0. fold b1.
  cbv zeta. simpl.
  rewrite (rem_succ _ (pos s)) by lia. rewrite (rem_succ _ (offset s)) by lia.
  unfold UndoBuffer.existBuffer. simpl.
  split; [done|]. split; [done|]. split; [done|]. split; [done|].
  destruct (Z.eqb_spec (pos s + 1) (bufferSize s)) as [Hwrap|Hnw];
  destruct (Z.eqb_spec (offset s + 1) (bufferSize s)) as [Howrap|Honw];
  repeat match goal with
  | |- context [Z.eqb ?a ?b] => destruct (Z.eqb_spec a b)
  | |- context [Z.ltb ?a ?b] => destruct (Z.ltb_spec a b)
  | |- context [Z.leb ?a ?b] => destruct (Z.leb_spec a b)
  end; simpl; try lia;
  rewrite ?clear_range_length by (rewrite ?clear_range_length; lia);
  (split; [lia|]); (split;
  [ rewrite ?clear_range_lookup by (rewrite ?clear_range_length; lia);
    repeat case_decide; try lia; done
  | intros k Hk Hkp;
    rewrite ?clear_range_lookup by (rewrite ?clear_range_length; lia);
    rewrite Hb1other by done;
    repeat match goal with
    | |- context [Z.eqb ?a ?b] => destruct (Z.eqb_spec a b)
    | |- context [Z.ltb ?a ?b] => destruct (Z.ltb_spec a b)
    | |- context [Z.leb ?a ?b] => destruct (Z.leb_spec a b)
    end; simpl; repeat case_decide; try lia; try done ]).
Qed.

Lemma bind_Ok {A B} (m : result A) (f : A → result B) (b : B) :
  m ≫= f = Ok b → ∃ a, m = Ok a ∧ f a = Ok b.
Proof. destruct m; simpl; intros H; try discriminate. eauto. Qed.

Ltac inv_bind H :=
  let a := fresh "a" in
  let Ha := fresh "Hbind" in
  apply bind_Ok in H; destruct H as (a & Ha & H).

Lemma push_new_ring_inv s w rs :
  ring_inv s → ring_inv (UndoBuffer.push_new s w rs).
Proof.
  intros Hinv.
  destruct (push_new_spec s w rs Hinv) as (HC & Hp' & He' & Ho' & Hlen' & Hpc & Hoth).
  pose proof (ring_inv_pos_le_length s Hinv) as Hple.
  pose proof Hinv as [Ho Hp He Hl [Hw1 Hw2] Hv].
  rewrite (rem_succ _ (pos s)) in Hp' by lia.
  rewrite (rem_succ _ (offset s)) in Ho' by lia.
  assert (Hoff : (0 ≤ offset (UndoBuffer.push_new s w rs) < bufferSize s)%Z).
  { rewrite Ho'. repeat match goal with
    | |- context [Z.eqb ?a ?b] => destruct (Z.eqb_spec a b) end; lia. }
  assert (Hpos : (0 ≤ pos (UndoBuffer.push_new s w rs) < bufferSize s)%Z).
  { rewrite Hp'. destruct (Z.eqb_spec (pos s + 1) (bufferSize s)); lia. }
  split; rewrite ?HC, ?He'; try done.
  - rewrite Hlen', Ho', Hp'.
    repeat match goal with
    | |- context [Z.eqb ?a ?b] => destruct (Z.eqb_spec a b)
    | |- context [Z.ltb ?a ?b] => destruct (Z.ltb_spec a b)
    end; destruct Hl as [Hl|[H0 Hl]]; lia.
  - lia.
  - intros i Hi.
    destruct (decide (Z.to_nat i = Z.to_nat (pos s))) as [Heq|Hne].
    + rewrite Heq, Hpc. eauto.
    + pose proof Hi as Hi'. apply existBuffer_true in Hi'.
      rewrite He', HC in Hi'.
      assert (0 ≤ i)%Z by lia.
      assert (Hold : UndoBuffer.existBuffer s i = true).
      { apply existBuffer_true. rewrite Ho', Hp' in Hi'.
        revert Hi'. repeat match goal with
        | |- context [Z.eqb ?a ?b] => destruct (Z.eqb_spec a b)
        end; lia. }
      destruct (Hv i Hold) as [p Hp0].
      rewrite Hoth; [| apply lookup_lt_Some in Hp0; rewrite Hlen';
                       destruct (Z.ltb_spec (pos s) (Z.of_nat (length (buffer s)))); lia | done].
      rewrite Z2Nat.id by lia. rewrite Hi. eauto.
Qed.

Lemma lastPos_eq s :
  (0 ≤ pos s < bufferSize s)%Z →
  lastPos s = if (pos s =? 0)%Z then (bufferSize s - 1)%Z else (pos s - 1)%Z.
Proof. intros H. unfold lastPos. by apply rem_pred. Qed.

Lemma push_ring_ok s w rs mode s' :
  ring_ok s → UndoBuffer.push s w rs mode = Ok s' → ring_ok s'.
Proof.
  unfold ring_ok, UndoBuffer.push. intros Hok H.
  destruct (Z.leb_spec (bufferSize s) 0) as [Hle|Hgt].
  - injection H as <-. destruct (Z.leb_spec (bufferSize s) 0); [done | lia].
  - assert (Hnew : ∀ s0, s0 = UndoBuffer.push_new s w rs →
                   if (bufferSize s0 <=? 0)%Z
                   then offset s0 = 0%Z ∧ pos s0 = 0%Z ∧ endPos s0 = 0%Z ∧ buffer s0 = []
                   else ring_inv s0).
    { intros s0 ->. pose proof (push_new_ring_inv s w rs Hok) as Hi.
      destruct (push_new_spec s w rs Hok) as (HC & _).
      rewrite HC. destruct (Z.leb_spec (bufferSize s) 0); [lia | done]. }
    destruct mode; [| injection H as <-; by apply Hnew].
    fold (lastPos s) in H.
    destruct (UndoBuffer.existBuffer s (lastPos s)) eqn:Hex;
      [| injection H as <-; by apply Hnew].
    destruct (lookupZ (buffer s) (lastPos s)) as [sl|] eqn:Hsl; [|discriminate].
    inv_bind H. injection H as <-. simpl.
    destruct (Z.leb_spec (bufferSize s) 0); [lia|].
    destruct Hok as [Ho Hp He Hl Hw Hv].
    destruct sl as [p| |]; simpl in Hbind; try discriminate.
    injection Hbind as <-.
    split; simpl; try done.
    + rewrite length_insert. done.
    + intros i Hi. change (UndoBuffer.existBuffer s i = true) in Hi.
      destruct (Hv i Hi) as [q Hq].
      destruct (decide (Z.to_nat (lastPos s) = Z.to_nat i)) as [Heq|Hne].
      * rewrite Heq. rewrite list_lookup_insert_eq by (by eapply lookup_lt_Some). eauto.
      * rewrite list_lookup_insert_ne by done. eauto.
Qed.

Lemma undo_ring_ok s w s' w' :
  ring_ok s → UndoBuffer.undo s w = Ok (s', w') → ring_ok s'.
Proof.
  unfold ring_ok, UndoBuffer.undo. intros Hok H.
  destruct (Z.eqb_spec (bufferSize s) 0) as [H0|Hn0].
  { injection H as <- <-. done. }
  fold (lastPos s) in H.
  destruct (UndoBuffer.existBuffer s (lastPos s)) eqn:Hex;
    [| injection H as <- <-; done].
  destruct (Z.leb_spec (bufferSize s) 0) as [Hle|Hgt].
  { destruct Hok as (Ho & Hp & He & Hb).
    apply existBuffer_true in Hex. lia. }
  inv_bind H. inv_bind H. destruct a0 as [d' rs']. inv_bind H.
  injection H as <- <-. simpl.
  destruct (Z.leb_spec (bufferSize s) 0); [lia|].
  destruct Hok as [Ho Hp He Hl Hw Hv].
  pose proof Hex as Hex'. apply existBuffer_true in Hex'.
  rewrite lastPos_eq in Hex' by done.
  split; simpl; try done.
  - rewrite lastPos_eq by done. destruct (Z.eqb_spec (pos s) 0); lia.
  - rewrite length_insert. done.
  - rewrite lastPos_eq by done. destruct (Z.eqb_spec (pos s) 0); lia.
  - intros i Hi. change (UndoBuffer.existBuffer s i = true) in Hi.
    destruct (Hv i Hi) as [q Hq].
    destruct (decide (Z.to_nat (lastPos s) = Z.to_nat i)) as [Heq|Hne].
    + rewrite Heq. rewrite list_lookup_insert_eq by (by eapply lookup_lt_Some). eauto.
    + rewrite list_lookup_insert_ne by done. eauto.
Qed.

Lemma redo_ring_ok s w s' w' :
  ring_ok s → UndoBuffer.redo s w = Ok (s', w') → ring_ok s'.
Proof.
  unfold ring_ok, UndoBuffer.redo. intros Hok H.
  destruct (UndoBuffer.existBuffer s (pos s)) eqn:Hex;
    [| injection H as <- <-; done].
  destruct (Z.leb_spec (bufferSize s) 0) as [Hle|Hgt].
  { destruct Hok as (Ho & Hp & He & Hb).
    apply existBuffer_true in Hex. lia. }
  inv_bind H. inv_bind H. inv_bind H.
  injection H as <- <-. simpl.
  destruct (Z.leb_spec (bufferSize s) 0); [lia|].
  destruct Hok as [Ho Hp He Hl Hw Hv].
  pose proof Hex as Hex'. apply existBuffer_true in Hex'.
  split; simpl; try done.
  - rewrite rem_succ by done. destruct (Z.eqb_spec (pos s + 1) (bufferSize s)); lia.
  - rewrite rem_succ by done. destruct (Z.eqb_spec (pos s + 1) (bufferSize s)); lia.
Qed.

Lemma reachable_ring_ok s : reachable s → ring_ok s.
Proof.
  induction 1 as [tgt size r0|s w rs mode s' _ IH Hp|s w s' w' _ IH Hu
                 |s w s' w' _ IH Hr|s tb r ct ov _ IH|s o t _ IH].
  - unfold ring_ok. simpl. destruct (Z.leb_spec size 0); [done|].
    split; simpl; try lia.
    intros i Hi. apply existBuffer_true in Hi. simpl in Hi. lia.
  - eauto using push_ring_ok.
  - eauto using undo_ring_ok.
  - eauto using redo_ring_ok.
  - unfold ring_ok in *. simpl. destruct (Z.leb_spec (bufferSize s) 0); [done|].
    destruct IH. by split.
  - unfold ring_ok in *. simpl. destruct (Z.leb_spec (bufferSize s) 0); [done|].
    destruct IH. by split.
Qed.

Lemma rem_add_lt (C x d : Z) :
  (0 ≤ x < C)%Z → (0 ≤ d < C)%Z →
  Z.rem (x + d) C = if (x + d <? C)%Z then (x + d)%Z else (x + d - C)%Z.
Proof.
  intros Hx Hd. rewrite Z.rem_mod_nonneg by lia.
  destruct (Z.ltb_spec (x + d) C).
  - apply Z.mod_small. lia.
  - replace (x + d)%Z with (x + d - C + 1 * C)%Z at 1 by lia.
    rewrite Z_mod_plus_full. apply Z.mod_small. lia.
Qed.

Lemma undo_n_reachable n : ∀ s w s' w',
  reachable s → undo_n n s w = Ok (s', w') → reachable s'.
Proof.
  induction n as [|n IH]; simpl; intros s w s' w' Hr H.
  - by injection H as <- <-.
  - inv_bind H. destruct a as [s1 w1]. eauto using reach_undo.
Qed.

(** ** Appending to the last piece *)

(** C10. In a reachable state whose most recently written slot
    ([pos - 1] modulo the size) is valid, [push(records, true)] returns
    and only appends [records] to that slot's record sequence: the slot
    keeps its two caret snapshots, [offset], [pos] and [endPos] keep their
    values, the array keeps its length and every other slot, and the
    fields outside the ring are untouched. *)
Theorem push_append_only_extends_last_piece (s : ubuf) (w : world) (rs : list record) :
  reachable s →
  UndoBuffer.existBuffer s (lastPos s) = true →
  ∃ p s',
    buffer s !! Z.to_nat (lastPos s) = Some (Piece p)
    ∧ UndoBuffer.push s w rs true = Ok s'
    ∧ buffer s' !! Z.to_nat (lastPos s)
      = Some (Piece {| records := records p ++ rs; oldRange := oldRange p;
                       newRange := newRange p |})
    ∧ offset s' = offset s ∧ pos s' = pos s ∧ endPos s' = endPos s
    ∧ bufferSize s' = bufferSize s
    ∧ length (buffer s') = length (buffer s)
    ∧ (∀ k : nat, k ≠ Z.to_nat (lastPos s) → buffer s' !! k = buffer s !! k)
    ∧ tempBuffer s' = tempBuffer s ∧ range s' = range s.
Proof.
  intros Hr Hex. pose proof (reachable_ring_ok s Hr) as Hok.
  unfold ring_ok in Hok.
  destruct (Z.leb_spec (bufferSize s) 0) as [Hle|Hgt].
  { destruct Hok as (Ho & Hp & He & Hb). apply existBuffer_true in Hex. lia. }
  destruct Hok as [Ho Hp He Hl Hw Hv].
  destruct (Hv _ Hex) as [p Hp0].
  assert (Hlast : (0 ≤ lastPos s)%Z).
  { rewrite lastPos_eq by done. destruct (Z.eqb_spec (pos s) 0); lia. }
  exists p. eexists. split; [done|].
  unfold UndoBuffer.push. fold (lastPos s).
  destruct (Z.leb_spec (bufferSize s) 0); [lia|].
  rewrite Hex. unfold lookupZ.
  destruct (Z.ltb_spec (lastPos s) 0); [lia|].
  rewrite Hp0. simpl. split; [reflexivity|]. simpl.
  split. { apply list_lookup_insert_eq. by eapply lookup_lt_Some. }
  repeat (split; [done|]).
  split. { by rewrite length_insert. }
  split; [|done].
  intros k Hk. by rewrite list_lookup_insert_ne.
Qed.

(** ** Branch invalidation *)

Lemma redo_at_end_is_noop s w :
  pos s = endPos s → UndoBuffer.redo s w = Ok (s, w).
Proof.
  intros H. unfold UndoBuffer.redo.
  assert (UndoBuffer.existBuffer s (pos s) = false) as ->; [|done].
  apply existBuffer_false. lia.
Qed.

(** C2. From a reachable state, after one or more [undo()] calls followed
    by [push(records, false)]: every slot that held a batch available for
    redo either is the slot the new batch was written to or is now cleared
    and invalid; every slot that fails the validity test of the new window
    [[offset, endPos)] is cleared (the slot just written, which lies in
    the window as soon as the size is at least 2, apart); and [redo()]
    replays nothing. *)
Theorem push_after_undo_discards_redo
    (s0 s1 s2 : ubuf) (w0 w1 w : world) (n : nat) (rs : list record) :
  reachable s0 →
  undo_n (S n) s0 w0 = Ok (s1, w1) →
  UndoBuffer.push s1 w rs false = Ok s2 →
  (∀ i, redo_available s1 i →
        (i = pos s1
         ∧ buffer s2 !! Z.to_nat i
           = Some (Piece {| records := rs; oldRange := range s1; newRange := getCaret w |}))
        ∨ (buffer s2 !! Z.to_nat i = Some Cleared
           ∧ UndoBuffer.existBuffer s2 i = false))
  ∧ (∀ k : nat, (k < length (buffer s2))%nat → k ≠ Z.to_nat (pos s1) →
        UndoBuffer.existBuffer s2 (Z.of_nat k) = false →
        buffer s2 !! k = Some Cleared)
  ∧ ((1 < bufferSize s1)%Z → UndoBuffer.existBuffer s2 (pos s1) = true)
  ∧ (∀ w', UndoBuffer.redo s2 w' = Ok (s2, w')).
Proof.
  intros Hr0 Hundo Hpush.
  assert (Hr1 : reachable s1) by eauto using undo_n_reachable.
  pose proof (reachable_ring_ok s1 Hr1) as Hok. unfold ring_ok in Hok.
  unfold UndoBuffer.push in Hpush.
  destruct (Z.leb_spec (bufferSize s1) 0) as [Hle|Hgt].
  { injection Hpush as <-. destruct Hok as (Ho & Hp & He & Hb).
    split; [|split; [|split]].
    - intros i (d & Hd0 & _ & _ & Hall).
      specialize (Hall 0%Z ltac:(lia)). apply existBuffer_true in Hall. lia.
    - intros k Hk. rewrite Hb in Hk. simpl in Hk. lia.
    - lia.
    - intros w'. apply redo_at_end_is_noop. lia. }
  injection Hpush as <-.
  destruct (push_new_spec s1 w rs Hok) as (HC & Hp' & He' & Ho' & Hlen' & Hpc & Hoth).
  pose proof (ring_inv_pos_le_length s1 Hok) as Hple.
  pose proof Hok as [Ho Hp He Hl [Hw1 Hw2] Hv].
  rewrite (rem_succ _ (pos s1)) in Hp' by lia.
  rewrite (rem_succ _ (offset s1)) in Ho' by lia.
  split; [|split; [|split]].
  - intros i (d & Hd0 & Hi & HdC & Hall).
    destruct (decide (d = 0%Z)) as [->|Hdn].
    { left. rewrite Z.add_0_r, rem_small in Hi by done. subst i. done. }
    right.
    pose proof (Hall 0%Z ltac:(lia)) as Hv0.
    rewrite Z.add_0_r, rem_small in Hv0 by done. apply existBuffer_true in Hv0.
    pose proof (Hall d ltac:(lia)) as Hvd. rewrite <- Hi in Hvd.
    destruct (Hv i Hvd) as [q Hq]. apply existBuffer_true in Hvd.
    rewrite rem_add_lt in Hi by lia.
    (* the walk from [pos] cannot step over [endPos] *)
    set (e := (if (pos s1 <=? endPos s1)%Z then endPos s1 - pos s1
               else endPos s1 - pos s1 + bufferSize s1)%Z).
    assert (He_lt : (d < e)%Z).
    { destruct (Z_lt_ge_dec d e) as [|Hge]; [done|exfalso].
      assert (He0 : (0 ≤ e ≤ d)%Z).
      { unfold e in *. destruct (Z.leb_spec (pos s1) (endPos s1)); lia. }
      specialize (Hall e He0).
      assert (Z.rem (pos s1 + e) (bufferSize s1) = endPos s1) as Hrem.
      { rewrite rem_add_lt by lia. unfold e.
        destruct (Z.leb_spec (pos s1) (endPos s1));
        repeat match goal with
        | |- context [Z.ltb ?a ?b] => destruct (Z.ltb_spec a b) end; lia. }
      rewrite Hrem in Hall. apply existBuffer_true in Hall. lia. }
    assert (Hex2 : UndoBuffer.existBuffer (UndoBuffer.push_new s1 w rs) i = false).
    { apply existBuffer_false. rewrite He', Ho', Hp', HC. unfold e in He_lt.
      revert He_lt Hi.
      repeat match goal with
      | |- context [Z.eqb ?a ?b] => destruct (Z.eqb_spec a b)
      | |- context [Z.ltb ?a ?b] => destruct (Z.ltb_spec a b)
      | |- context [Z.leb ?a ?b] => destruct (Z.leb_spec a b)
      end; lia. }
    split; [|done].
    rewrite Hoth.
    + rewrite Z2Nat.id by lia. by rewrite Hex2.
    + apply lookup_lt_Some in Hq. rewrite Hlen'.
      destruct (Z.ltb_spec (pos s1) (Z.of_nat (length (buffer s1)))); lia.
    + revert Hi. destruct (Z.ltb_spec (pos s1 + d) (bufferSize s1)); lia.
  - intros k Hk Hkp Hex. rewrite Hoth by done. by rewrite Hex.
  - intros HC2. apply existBuffer_true. rewrite He', Ho', Hp', HC.
    repeat match goal with
    | |- context [Z.eqb ?a ?b] => destruct (Z.eqb_spec a b)
    end; lia.
  - intros w'. apply redo_at_end_is_noop. done.
Qed.

(** ** Facts about the document tree operations *)

Section dom_facts.
Implicit Types d : gmap node_id dom_node.
Implicit Types n m p : node_id.

Lemma kind_alter d (f : dom_node → dom_node) n m :
  (∀ x, nkind (f x) = nkind x) → Dom.kind (alter f n d) m = Dom.kind d m.
Proof.
  intros Hf. unfold Dom.kind. rewrite lookup_alter.
  case_decide; [subst; destruct (d !! m); simpl; auto | done].
Qed.

Lemma parentNode_alter d (f : dom_node → dom_node) n m :
  (∀ x, nparent (f x) = nparent x) →
  Dom.parentNode (alter f n d) m = Dom.parentNode d m.
Proof.
  intros Hf. unfold Dom.parentNode. rewrite lookup_alter.
  case_decide; [subst; destruct (d !! m); simpl; auto | done].
Qed.

Lemma childNodes_alter d (f : dom_node → dom_node) n m :
  (∀ x, nchildren (f x) = nchildren x) →
  Dom.childNodes (alter f n d) m = Dom.childNodes d m.
Proof.
  intros Hf. unfold Dom.childNodes. rewrite lookup_alter.
  case_decide; [subst; destruct (d !! m); simpl; auto | done].
Qed.

Lemma nodeValue_alter d (f : dom_node → dom_node) n m :
  (∀ x, nkind (f x) = nkind x) → (∀ x, ndata (f x) = ndata x) →
  Dom.nodeValue (alter f n d) m = Dom.nodeValue d m.
Proof.
  intros Hk Hf. unfold Dom.nodeValue. rewrite lookup_alter.
  case_decide; [subst; destruct (d !! m); simpl; rewrite ?Hk, ?Hf; auto | done].
Qed.

Lemma is_Some_alter d (f : dom_node → dom_node) n m :
  is_Some (alter f n d !! m) ↔ is_Some (d !! m).
Proof.
  rewrite lookup_alter. case_decide; [subst; by rewrite fmap_is_Some | done].
Qed.

Lemma size_alter d (f : dom_node → dom_node) n : size (alter f n d) = size d.
Proof.
  rewrite <- !size_dom. f_equal. apply set_eq. intros x.
  rewrite !elem_of_dom. apply is_Some_alter.
Qed.

(** *** detach *)

Lemma kind_detach d n m : Dom.kind (Dom.detach d n) m = Dom.kind d m.
Proof.
  unfold Dom.detach. destruct (Dom.parentNode d n); [|done].
  by rewrite !kind_alter.
Qed.

Lemma nodeValue_detach d n m : Dom.nodeValue (Dom.detach d n) m = Dom.nodeValue d m.
Proof.
  unfold Dom.detach. destruct (Dom.parentNode d n); [|done].
  by rewrite !nodeValue_alter.
Qed.

Lemma is_Some_detach d n m : is_Some (Dom.detach d n !! m) ↔ is_Some (d !! m).
Proof.
  unfold Dom.detach. destruct (Dom.parentNode d n); [|done].
  by rewrite !is_Some_alter.
Qed.

Lemma size_detach d n : size (Dom.detach d n) = size d.
Proof.
  unfold Dom.detach. destruct (Dom.parentNode d n); [|done].
  by rewrite !size_alter.
Qed.

Lemma parentNode_detach d n m :
  Dom.parentNode (Dom.detach d n) m
  = if decide (m = n) then None else Dom.parentNode d m.
Proof.
  unfold Dom.detach. destruct (Dom.parentNode d n) as [p|] eqn:Hp.
  - case_decide as Hm.
    + subst m. unfold Dom.parentNode. rewrite lookup_alter_eq.
      destruct (alter _ p d !! n); done.
    + unfold Dom.parentNode at 1. rewrite lookup_alter_ne by done.
      fold (Dom.parentNode (alter (λ x, set_children (filter (λ c, c ≠ n) (nchildren x)) x) p d) m).
      by rewrite parentNode_alter.
  - case_decide; [by subst|done].
Qed.

Lemma childNodes_detach d n m :
  Dom.childNodes (Dom.detach d n) m
  = if decide (Dom.parentNode d n = Some m)
    then filter (λ c, c ≠ n) (Dom.childNodes d m)
    else Dom.childNodes d m.
Proof.
  unfold Dom.detach. destruct (Dom.parentNode d n) as [p|] eqn:Hp.
  - rewrite childNodes_alter by done.
    unfold Dom.childNodes. rewrite lookup_alter.
    case_decide as H1; case_decide as H2; simplify_eq; try done.
    destruct (d !! m); done.
  - case_decide; done.
Qed.

(** *** attach *)

Lemma kind_attach d p n ref m : Dom.kind (Dom.attach d p n ref) m = Dom.kind d m.
Proof. unfold Dom.attach. by rewrite !kind_alter. Qed.

Lemma nodeValue_attach d p n ref m :
  Dom.nodeValue (Dom.attach d p n ref) m = Dom.nodeValue d m.
Proof. unfold Dom.attach. by rewrite !nodeValue_alter. Qed.

Lemma is_Some_attach d p n ref m :
  is_Some (Dom.attach d p n ref !! m) ↔ is_Some (d !! m).
Proof. unfold Dom.attach. by rewrite !is_Some_alter. Qed.

Lemma size_attach d p n ref : size (Dom.attach d p n ref) = size d.
Proof. unfold Dom.attach. by rewrite !size_alter. Qed.

Lemma parentNode_attach d p n ref m :
  is_Some (d !! n) →
  Dom.parentNode (Dom.attach d p n ref) m
  = if decide (m = n) then Some p else Dom.parentNode d m.
Proof.
  intros [x Hx]. unfold Dom.attach. case_decide as Hm.
  - subst m. unfold Dom.parentNode. rewrite lookup_alter_eq.
    rewrite lookup_alter. case_decide; subst; rewrite Hx; done.
  - unfold Dom.parentNode at 1. rewrite lookup_alter_ne by done.
    fold (Dom.parentNode (alter (λ x, set_children (Dom.place n ref (nchildren x)) x) p d) m).
    by rewrite parentNode_alter.
Qed.

Lemma childNodes_attach d p n ref m :
  is_Some (d !! p) →
  Dom.childNodes (Dom.attach d p n ref) m
  = if decide (m = p) then Dom.place n ref (Dom.childNodes d p)
    else Dom.childNodes d m.
Proof.
  intros [x Hx]. unfold Dom.attach.
  rewrite childNodes_alter by done.
  unfold Dom.childNodes. rewrite lookup_alter.
  case_decide as H1; case_decide as H2; simplify_eq; try done.
  by rewrite Hx.
Qed.

Lemma is_Some_kind d n tag : Dom.kind d n = ElementNode tag → is_Some (d !! n).
Proof. unfold Dom.kind. destruct (d !! n); [eauto | discriminate]. Qed.

Lemma can_have_children_is_Some d n :
  Dom.can_have_children d n = true → is_Some (d !! n).
Proof.
  unfold Dom.can_have_children, Dom.kind. destruct (d !! n); [eauto | discriminate].
Qed.

Lemma parentNode_is_Some d n p : Dom.parentNode d n = Some p → is_Some (d !! n).
Proof. unfold Dom.parentNode. destruct (d !! n); [eauto | discriminate]. Qed.

(** *** the ancestor walk *)

Lemma ancestor_walk_childless fuel d a : ∀ n,
  (∀ m, Dom.parentNode d m ≠ Some a) → a ≠ n →
  Dom.ancestor_walk fuel d a n = false.
Proof.
  induction fuel as [|f IH]; intros n Hno Hne; simpl.
  - case_decide; done.
  - case_decide; [done|].
    destruct (Dom.parentNode d n) as [q|] eqn:Hq; [|done].
    apply IH; [done|]. intros ->. by eapply Hno.
Qed.

Lemma ancestor_walk_rank (rank : node_id → nat) fuel d a : ∀ n,
  (∀ m q, Dom.parentNode d m = Some q → (rank q < rank m)%nat) →
  (rank n < rank a)%nat →
  Dom.ancestor_walk fuel d a n = false.
Proof.
  induction fuel as [|f IH]; intros n Hr Hlt; simpl.
  - case_decide; [subst; lia | done].
  - case_decide; [subst; lia |].
    destruct (Dom.parentNode d n) as [q|] eqn:Hq; [|done].
    apply IH; [done|]. specialize (Hr _ _ Hq). lia.
Qed.

(** *** sibling lists *)

Lemma index_of_app_fresh x (pre post : list node_id) :
  x ∉ pre → index_of x (pre ++ x :: post) = Some (length pre).
Proof.
  induction pre as [|y pre IH]; intros Hx; simpl.
  - case_decide; done.
  - apply not_elem_of_cons in Hx as [Hne Hx].
    case_decide; [congruence|]. by rewrite IH.
Qed.

Lemma index_of_None x (l : list node_id) : x ∉ l → index_of x l = None.
Proof.
  induction l as [|y l IH]; intros Hx; simpl; [done|].
  apply not_elem_of_cons in Hx as [Hne Hx].
  case_decide; [congruence|]. by rewrite IH.
Qed.

Lemma filter_ne_fresh x (l : list node_id) : x ∉ l → filter (λ c, c ≠ x) l = l.
Proof.
  induction l as [|y l IH]; intros Hx; [done|].
  apply not_elem_of_cons in Hx as [Hne Hx].
  rewrite filter_cons_True by congruence. by rewrite IH.
Qed.

Lemma filter_ne_middle x (pre post : list node_id) :
  x ∉ pre → x ∉ post → filter (λ c, c ≠ x) (pre ++ x :: post) = pre ++ post.
Proof.
  intros H1 H2. rewrite filter_app, filter_cons_False by (intros H; by apply H).
  by rewrite !filter_ne_fresh.
Qed.

Lemma place_before x r (pre post : list node_id) :
  r ∉ pre → Dom.place x (Some r) (pre ++ r :: post) = pre ++ x :: r :: post.
Proof.
  intros Hr. unfold Dom.place. rewrite index_of_app_fresh by done.
  rewrite take_app_length, drop_app_length. done.
Qed.

Lemma place_end x (l : list node_id) : Dom.place x None l = l ++ [x].
Proof. done. Qed.

End dom_facts.

Section dom_ops.
Implicit Types d : gmap node_id dom_node.
Implicit Types n m p : node_id.

Lemma not_ancestor_of_leaf d a n :
  (∀ m, Dom.parentNode d m ≠ Some a) → a ≠ n →
  Dom.is_inclusive_ancestor d a n = false.
Proof. intros. by apply ancestor_walk_childless. Qed.

Lemma insertBefore_Ok d parent node ref :
  Dom.can_have_children d parent = true →
  Dom.is_inclusive_ancestor d node parent = false →
  match ref with Some r => Dom.parentNode d r = Some parent | None => True end →
  ref ≠ Some node →
  Dom.insertBefore d parent node ref
  = Ok (Dom.attach (Dom.detach d node) parent node ref).
Proof.
  intros Hc Ha Hr Hne. unfold Dom.insertBefore. rewrite Hc, Ha. cbn [negb].
  destruct (decide (ref = Some node)) as [|_]; [done|].
  destruct ref as [r|]; [rewrite bool_decide_eq_true_2 by done|]; done.
Qed.

Lemma replaceChild_Ok d parent node child :
  Dom.can_have_children d parent = true →
  Dom.is_inclusive_ancestor d node parent = false →
  Dom.parentNode d child = Some parent →
  Dom.nextSibling d child ≠ Some node →
  Dom.replaceChild d parent node child
  = Ok (Dom.attach (Dom.detach (Dom.detach d child) node) parent node
          (Dom.nextSibling d child)).
Proof.
  intros Hc Ha Hp Hne. unfold Dom.replaceChild. rewrite Hc, Ha. cbn [negb].
  rewrite bool_decide_eq_true_2 by done. cbn [negb].
  destruct (decide (Dom.nextSibling d child = Some node)) as [|_]; done.
Qed.

Lemma removeChild_Ok d parent child :
  Dom.parentNode d child = Some parent →
  Dom.removeChild d parent child = Ok (Dom.detach d child).
Proof. intros H. unfold Dom.removeChild. by case_decide. Qed.

Lemma nextSibling_middle d n p (pre post : list node_id) :
  Dom.parentNode d n = Some p → Dom.childNodes d p = pre ++ n :: post → n ∉ pre →
  Dom.nextSibling d n = head post.
Proof.
  intros Hp Hc Hn. unfold Dom.nextSibling. rewrite Hp. simpl. rewrite Hc.
  rewrite index_of_app_fresh by done. simpl.
  rewrite (lookup_app_r pre) by lia.
  replace (S (length pre) - length pre)%nat with 1%nat by lia.
  by destruct post.
Qed.

Lemma previousSibling_middle d n p (pre post : list node_id) :
  Dom.parentNode d n = Some p → Dom.childNodes d p = pre ++ n :: post → n ∉ pre →
  Dom.previousSibling d n = last pre.
Proof.
  intros Hp Hc Hn. unfold Dom.previousSibling. rewrite Hp. simpl. rewrite Hc.
  rewrite index_of_app_fresh by done.
  destruct pre as [|x pre _] using rev_ind; [done|].
  rewrite length_app. simpl. replace (length pre + 1)%nat with (S (length pre)) by lia.
  rewrite <- app_assoc. rewrite (lookup_app_r pre) by lia.
  rewrite Nat.sub_diag. simpl. by rewrite last_snoc.
Qed.

Lemma place_head x (pre post : list node_id) :
  NoDup (pre ++ post) → Dom.place x (head post) (pre ++ post) = pre ++ x :: post.
Proof.
  intros Hnd. destruct post as [|r post]; simpl.
  - by rewrite app_nil_r.
  - apply place_before. apply NoDup_app in Hnd as (_ & Hd & _).
    intros Hin. apply (Hd r Hin). by left.
Qed.

End dom_ops.

(** ** Carets that stay inside their nodes *)

Lemma updateCaret_ok w c :
  caret_ok (w_dom w) c →
  updateCaret w (Some c) = Ok {| w_dom := w_dom w; w_sel := Some c; w_next := w_next w |}.
Proof. intros [H1 H2]. unfold updateCaret. by rewrite H1, H2. Qed.

Lemma updateCaret_same w c :
  w_sel w = Some c → caret_ok (w_dom w) c → updateCaret w (Some c) = Ok w.
Proof. intros Hs Hc. rewrite updateCaret_ok by done. destruct w; simpl in *. by subst. Qed.

Lemma boundary_ok_mono d d' n o :
  (node_length d n ≤ node_length d' n)%Z →
  boundary_ok d n o = true → boundary_ok d' n o = true.
Proof.
  unfold boundary_ok. rewrite !andb_true_iff, !Z.leb_le. lia.
Qed.

Lemma caret_ok_mono d d' c :
  (∀ m, (node_length d m ≤ node_length d' m)%Z) → caret_ok d c → caret_ok d' c.
Proof. intros H [H1 H2]. split; eapply boundary_ok_mono; eauto. Qed.

Lemma move_caret_none_start c off ci len rp :
  startContainer (Nomalizer.move_caret c None off ci len rp) = startContainer c
  ∧ startOffset (Nomalizer.move_caret c None off ci len rp)
    = (if bool_decide (startContainer c = rp) && (ci <=? startOffset c)%Z
       then startOffset c + len else startOffset c)%Z.
Proof.
  unfold Nomalizer.move_caret.
  rewrite !(bool_decide_eq_false_2 (Some _ = None)) by done. cbn [andb].
  destruct (bool_decide (startContainer c = rp) && (ci <=? startOffset c)%Z);
    cbn [set_start set_end startContainer startOffset endContainer endOffset];
    match goal with |- context [if ?b then _ else _] => destruct b end; done.
Qed.

Lemma move_caret_none_end c off ci len rp :
  endContainer (Nomalizer.move_caret c None off ci len rp) = endContainer c
  ∧ endOffset (Nomalizer.move_caret c None off ci len rp)
    = (if bool_decide (endContainer c = rp) && (ci <=? endOffset c)%Z
       then endOffset c + len else endOffset c)%Z.
Proof.
  unfold Nomalizer.move_caret.
  rewrite !(bool_decide_eq_false_2 (Some _ = None)) by done. cbn [andb].
  destruct (bool_decide (startContainer c = rp) && (ci <=? startOffset c)%Z);
    cbn [set_start set_end startContainer startOffset endContainer endOffset];
    destruct (bool_decide (endContainer c = rp) && (ci <=? endOffset c)%Z); done.
Qed.

(** The re-anchoring of [moveNodeList] when the nodes had no parent: the
    offsets at or behind the insertion point grow by the number of nodes. *)
Lemma move_caret_none_ok d d' c off ci len rp :
  caret_ok d c →
  (∀ m, (node_length d m ≤ node_length d' m)%Z) →
  (node_length d rp + len ≤ node_length d' rp)%Z → (0 ≤ len)%Z →
  caret_ok d' (Nomalizer.move_caret c None off ci len rp).
Proof.
  intros [H1 H2] Hmono Hrp Hlen. unfold caret_ok.
  destruct (move_caret_none_start c off ci len rp) as [-> ->].
  destruct (move_caret_none_end c off ci len rp) as [-> ->].
  unfold boundary_ok in *. rewrite !andb_true_iff, !Z.leb_le in *.
  pose proof (Hmono (startContainer c)). pose proof (Hmono (endContainer c)).
  split.
  - destruct (bool_decide (startContainer c = rp)) eqn:E; simpl; [|lia].
    apply bool_decide_eq_true in E. rewrite E in *.
    destruct (ci <=? startOffset c)%Z; lia.
  - destruct (bool_decide (endContainer c = rp)) eqn:E; simpl; [|lia].
    apply bool_decide_eq_true in E. rewrite E in *.
    destruct (ci <=? endOffset c)%Z; lia.
Qed.

Lemma move_caret_some_start c tp off ci len rp :
  startContainer (Nomalizer.move_caret c (Some tp) off ci len rp)
  = (if bool_decide (startContainer c = tp) && Nomalizer.in_moved off len (startOffset c)
     then rp else startContainer c)
  ∧ startOffset (Nomalizer.move_caret c (Some tp) off ci len rp)
    = (if bool_decide (startContainer c = tp) && Nomalizer.in_moved off len (startOffset c)
       then startOffset c - off + ci else startOffset c)%Z.
Proof.
  unfold Nomalizer.move_caret.
  assert (E : ∀ n, bool_decide (Some n = Some tp) = bool_decide (n = tp)).
  { intros n. apply bool_decide_ext. split; congruence. }
  rewrite !E.
  destruct (bool_decide (startContainer c = tp) && Nomalizer.in_moved off len (startOffset c));
    cbn [set_start set_end startContainer startOffset endContainer endOffset];
    match goal with |- context [if ?b then _ else _] => destruct b end; done.
Qed.

Lemma move_caret_some_end c tp off ci len rp :
  endContainer (Nomalizer.move_caret c (Some tp) off ci len rp)
  = (if bool_decide (endContainer c = tp) && Nomalizer.in_moved off len (endOffset c)
     then rp else endContainer c)
  ∧ endOffset (Nomalizer.move_caret c (Some tp) off ci len rp)
    = (if bool_decide (endContainer c = tp) && Nomalizer.in_moved off len (endOffset c)
       then endOffset c - off + ci else endOffset c)%Z.
Proof.
  unfold Nomalizer.move_caret.
  assert (E : ∀ n, bool_decide (Some n = Some tp) = bool_decide (n = tp)).
  { intros n. apply bool_decide_ext. split; congruence. }
  rewrite !E.
  destruct (bool_decide (startContainer c = tp) && Nomalizer.in_moved off len (startOffset c));
    cbn [set_start set_end startContainer startOffset endContainer endOffset];
    destruct (bool_decide (endContainer c = tp) && Nomalizer.in_moved off len (endOffset c));
    done.
Qed.

(** The re-anchoring of [moveNodeList] when the nodes had a parent. *)
Lemma move_caret_some_ok d' c tp off ci len rp :
  (bool_decide (startContainer c = tp) && Nomalizer.in_moved off len (startOffset c) = false →
   boundary_ok d' (startContainer c) (startOffset c) = true) →
  (bool_decide (endContainer c = tp) && Nomalizer.in_moved off len (endOffset c) = false →
   boundary_ok d' (endContainer c) (endOffset c) = true) →
  (∀ x, Nomalizer.in_moved off len x = true → boundary_ok d' rp (x - off + ci) = true) →
  caret_ok d' (Nomalizer.move_caret c (Some tp) off ci len rp).
Proof.
  intros H1 H2 Hm. unfold caret_ok.
  destruct (move_caret_some_start c tp off ci len rp) as [-> ->].
  destruct (move_caret_some_end c tp off ci len rp) as [-> ->].
  split.
  - destruct (bool_decide (startContainer c = tp)
              && Nomalizer.in_moved off len (startOffset c)) eqn:E; [|auto].
    apply andb_true_iff in E as [_ E]. auto.
  - destruct (bool_decide (endContainer c = tp)
              && Nomalizer.in_moved off len (endOffset c)) eqn:E; [|auto].
    apply andb_true_iff in E as [_ E]. auto.
Qed.

Lemma move_caret_some_other c tp off ci len rp :
  startContainer c ≠ tp → endContainer c ≠ tp →
  Nomalizer.move_caret c (Some tp) off ci len rp = c.
Proof.
  intros Hs He. unfold Nomalizer.move_caret.
  rewrite (bool_decide_eq_false_2 (Some (startContainer c) = Some tp)) by congruence.
  cbn [andb].
  by rewrite (bool_decide_eq_false_2 (Some (endContainer c) = Some tp)) by congruence.
Qed.

Lemma shift_after_removal_start c tgt ci :
  startContainer (Nomalizer.shift_after_removal c tgt ci) = startContainer c
  ∧ startOffset (Nomalizer.shift_after_removal c tgt ci)
    = (if bool_decide (startContainer c = tgt) && (ci <? startOffset c)%Z
       then startOffset c - 1 else startOffset c)%Z.
Proof.
  unfold Nomalizer.shift_after_removal.
  destruct (bool_decide (startContainer c = tgt) && (ci <? startOffset c)%Z);
    cbn [set_start set_end startContainer startOffset endContainer endOffset];
    match goal with |- context [if ?b then _ else _] => destruct b end; done.
Qed.

Lemma shift_after_removal_end c tgt ci :
  endContainer (Nomalizer.shift_after_removal c tgt ci) = endContainer c
  ∧ endOffset (Nomalizer.shift_after_removal c tgt ci)
    = (if bool_decide (endContainer c = tgt) && (ci <? endOffset c)%Z
       then endOffset c - 1 else endOffset c)%Z.
Proof.
  unfold Nomalizer.shift_after_removal.
  destruct (bool_decide (startContainer c = tgt) && (ci <? startOffset c)%Z);
    cbn [set_start set_end startContainer startOffset endContainer endOffset];
    destruct (bool_decide (endContainer c = tgt) && (ci <? endOffset c)%Z); done.
Qed.

(** The shift of [expandChildNodesAndInsertOperation] after the node at
    [ci] has left [tgt]: offsets behind the node go down by one. *)
Lemma shift_after_removal_ok d d' c tgt ci :
  caret_ok d c →
  (startContainer c ≠ tgt →
   (node_length d (startContainer c) ≤ node_length d' (startContainer c))%Z) →
  (endContainer c ≠ tgt →
   (node_length d (endContainer c) ≤ node_length d' (endContainer c))%Z) →
  (0 ≤ ci)%Z → (ci ≤ node_length d' tgt)%Z →
  (node_length d tgt ≤ node_length d' tgt + 1)%Z →
  caret_ok d' (Nomalizer.shift_after_removal c tgt ci).
Proof.
  intros [H1 H2] Hs He Hci Hci' Hlen. unfold caret_ok.
  destruct (shift_after_removal_start c tgt ci) as [-> ->].
  destruct (shift_after_removal_end c tgt ci) as [-> ->].
  unfold boundary_ok in *. rewrite !andb_true_iff, !Z.leb_le in *.
  split.
  - destruct (bool_decide (startContainer c = tgt)) eqn:E; simpl.
    + apply bool_decide_eq_true in E. rewrite E in *.
      destruct (ci <? startOffset c)%Z eqn:E'; [apply Z.ltb_lt in E' | apply Z.ltb_ge in E'];
        lia.
    + apply bool_decide_eq_false in E. specialize (Hs E). lia.
  - destruct (bool_decide (endContainer c = tgt)) eqn:E; simpl.
    + apply bool_decide_eq_true in E. rewrite E in *.
      destruct (ci <? endOffset c)%Z eqn:E'; [apply Z.ltb_lt in E' | apply Z.ltb_ge in E'];
        lia.
    + apply bool_decide_eq_false in E. specialize (He E). lia.
Qed.


(** ** The tree edits of the normaliser *)

Section wrap.
Implicit Types d : gmap node_id dom_node.

Lemma kind_insert d p x m :
  Dom.kind (<[p := x]> d) m = if decide (m = p) then nkind x else Dom.kind d m.
Proof.
  unfold Dom.kind. rewrite lookup_insert.
  repeat case_decide; simplify_eq; done.
Qed.
Lemma parentNode_insert d p x m :
  Dom.parentNode (<[p := x]> d) m = if decide (m = p) then nparent x else Dom.parentNode d m.
Proof.
  unfold Dom.parentNode. rewrite lookup_insert.
  repeat case_decide; simplify_eq; done.
Qed.
Lemma childNodes_insert d p x m :
  Dom.childNodes (<[p := x]> d) m = if decide (m = p) then nchildren x else Dom.childNodes d m.
Proof.
  unfold Dom.childNodes. rewrite lookup_insert.
  repeat case_decide; simplify_eq; done.
Qed.

(** The tree edits of [insertParentNodeAndInsertOperation] for a leaf
    [t] below [root] and a new element [p]. *)
Lemma wrap_in_new_parent d root t p tag (pre post : list node_id) :
  Dom.can_have_children d root = true →
  Dom.parentNode d t = Some root →
  Dom.childNodes d root = pre ++ t :: post →
  NoDup (pre ++ t :: post) →
  (∀ m, Dom.parentNode d m ≠ Some t) →
  unused d p →
  let d1 := <[p := blank_element tag]> d in
  ∃ d2 d3 d4,
    Dom.replaceChild d1 root p t = Ok d2
    ∧ Dom.parentNode d2 p = Some root
    ∧ Dom.insertBefore d2 root t (Some p) = Ok d3
    ∧ Dom.insertBefore d3 p t None = Ok d4
    ∧ Dom.parentNode d3 t = Some root
    ∧ Dom.childNodes d3 p = []
    ∧ (∀ m, Dom.kind d4 m = if decide (m = p) then ElementNode tag else Dom.kind d m)
    ∧ (∀ m, Dom.parentNode d4 m
            = if decide (m = t) then Some p
              else if decide (m = p) then Some root else Dom.parentNode d m)
    ∧ (∀ m, Dom.childNodes d4 m
            = if decide (m = p) then [t]
              else if decide (m = root) then pre ++ p :: post
              else Dom.childNodes d m)
    ∧ (∀ m, Dom.nodeValue d4 m = Dom.nodeValue d m).
Proof.
  intros Hroot Hpt Hcs Hnd Hleaf (Hp_none & Hp_par & Hp_ch) d1.
  assert (Hrs : is_Some (d !! root)) by by apply can_have_children_is_Some.
  assert (Hts : is_Some (d !! t)) by by eapply parentNode_is_Some.
  assert (Hpr : p ≠ root). { intros ->. rewrite Hp_none in Hrs. by destruct Hrs. }
  assert (Hpt' : p ≠ t). { intros ->. rewrite Hp_none in Hts. by destruct Hts. }
  assert (Hrt : root ≠ t). { intros ->. by eapply Hleaf. }
  apply NoDup_app in Hnd as (Hnd_pre & Hnd_x & Hnd_tp).
  apply NoDup_cons in Hnd_tp as (Ht_post & Hnd_post).
  assert (Ht_pre : t ∉ pre). { intros Hin. apply (Hnd_x t Hin). by left. }
  assert (Hp_pre : p ∉ pre).
  { intros Hin. apply (Hp_ch root). rewrite Hcs. set_solver. }
  assert (Hp_post : p ∉ post).
  { intros Hin. apply (Hp_ch root). rewrite Hcs. set_solver. }
  assert (Hnd' : NoDup (pre ++ post)).
  { apply NoDup_app. split; [done|]. split; [|done].
    intros x Hx Hx'. apply (Hnd_x x Hx). by right. }
  assert (K1 : ∀ m, Dom.kind d1 m = if decide (m = p) then ElementNode tag else Dom.kind d m).
  { intros m. unfold d1. by rewrite kind_insert. }
  assert (P1 : ∀ m, Dom.parentNode d1 m = if decide (m = p) then None else Dom.parentNode d m).
  { intros m. unfold d1. by rewrite parentNode_insert. }
  assert (C1 : ∀ m, Dom.childNodes d1 m = if decide (m = p) then [] else Dom.childNodes d m).
  { intros m. unfold d1. by rewrite childNodes_insert. }
  assert (S1 : ∀ m, is_Some (d !! m) → is_Some (d1 !! m)).
  { intros m [x Hx]. unfold d1. rewrite lookup_insert. case_decide; eauto. }
  assert (S1p : is_Some (d1 !! p)).
  { unfold d1. rewrite lookup_insert_eq. eauto. }
  assert (Hc1 : ∀ m, Dom.can_have_children d1 m = if decide (m = p) then true else Dom.can_have_children d m).
  { intros m. unfold Dom.can_have_children. rewrite K1. by case_decide. }
  assert (Hnext1 : Dom.nextSibling d1 t = head post).
  { apply (nextSibling_middle d1 t root pre post); rewrite ?P1, ?C1; repeat case_decide; done. }
  set (d2 := Dom.attach (Dom.detach (Dom.detach d1 t) p) root p (head post)).
  assert (E2 : Dom.replaceChild d1 root p t = Ok d2).
  { rewrite replaceChild_Ok; rewrite ?Hnext1; try done.
    - rewrite Hc1. by case_decide.
    - apply not_ancestor_of_leaf; [|done].
      intros m. rewrite P1. case_decide; [done|apply Hp_par].
    - rewrite P1. by case_decide.
    - destruct post as [|r post']; [done|]. simpl. intros [= ->]. apply Hp_post. by left. }
  assert (P2 : ∀ m, Dom.parentNode d2 m
               = if decide (m = p) then Some root
                 else if decide (m = t) then None else Dom.parentNode d m).
  { intros m. unfold d2.
    rewrite parentNode_attach by (by rewrite !is_Some_detach).
    rewrite !parentNode_detach, P1. repeat case_decide; done. }
  assert (C2 : ∀ m, Dom.childNodes d2 m
               = if decide (m = root) then pre ++ p :: post
                 else if decide (m = p) then [] else Dom.childNodes d m).
  { intros m. unfold d2.
    rewrite childNodes_attach by (rewrite !is_Some_detach; by apply S1).
    rewrite !childNodes_detach, !parentNode_detach, !P1, !C1.
    repeat case_decide; simplify_eq; try done.
    rewrite Hcs, filter_ne_middle by done. by apply place_head. }
  assert (K2 : ∀ m, Dom.kind d2 m = Dom.kind d1 m).
  { intros m. unfold d2. by rewrite kind_attach, !kind_detach. }
  assert (S2 : ∀ m, is_Some (d2 !! m) ↔ is_Some (d1 !! m)).
  { intros m. unfold d2. by rewrite is_Some_attach, !is_Some_detach. }
  set (d3 := Dom.attach (Dom.detach d2 t) root t (Some p)).
  assert (E3 : Dom.insertBefore d2 root t (Some p) = Ok d3).
  { rewrite insertBefore_Ok; try done.
    - unfold Dom.can_have_children. rewrite K2. fold (Dom.can_have_children d1 root).
      rewrite Hc1. by case_decide.
    - apply not_ancestor_of_leaf; [|done].
      intros m. rewrite P2. repeat case_decide; try done; try congruence; apply Hleaf.
    - rewrite P2. by case_decide.
    - congruence. }
  assert (P3 : ∀ m, Dom.parentNode d3 m
               = if decide (m = t) then Some root
                 else if decide (m = p) then Some root else Dom.parentNode d m).
  { intros m. unfold d3.
    rewrite parentNode_attach by (rewrite is_Some_detach, S2; by apply S1).
    rewrite parentNode_detach, P2. repeat case_decide; done. }
  assert (C3 : ∀ m, Dom.childNodes d3 m
               = if decide (m = root) then pre ++ t :: p :: post
                 else if decide (m = p) then [] else Dom.childNodes d m).
  { intros m. unfold d3.
    rewrite childNodes_attach by (rewrite is_Some_detach, S2; by apply S1).
    rewrite !childNodes_detach, !P2, !C2.
    repeat case_decide; simplify_eq; try done.
    by apply place_before. }
  assert (K3 : ∀ m, Dom.kind d3 m = Dom.kind d1 m).
  { intros m. unfold d3. by rewrite kind_attach, kind_detach, K2. }
  assert (S3 : ∀ m, is_Some (d3 !! m) ↔ is_Some (d1 !! m)).
  { intros m. unfold d3. by rewrite is_Some_attach, is_Some_detach, S2. }
  set (d4 := Dom.attach (Dom.detach d3 t) p t None).
  assert (E4 : Dom.insertBefore d3 p t None = Ok d4).
  { rewrite insertBefore_Ok; try done.
    - unfold Dom.can_have_children. rewrite K3. fold (Dom.can_have_children d1 p).
      rewrite Hc1. by case_decide.
    - apply not_ancestor_of_leaf; [|done].
      intros m. rewrite P3. repeat case_decide; try done; try congruence; apply Hleaf. }
  exists d2, d3, d4. split; [done|]. split; [rewrite P2; by case_decide|].
  split; [done|]. split; [done|].
  split; [rewrite P3; by case_decide|].
  split; [rewrite C3; repeat case_decide; done|].
  split; [|split; [|split]].
  - intros m. unfold d4. by rewrite kind_attach, kind_detach, K3, K1.
  - intros m. unfold d4.
    rewrite parentNode_attach by (rewrite is_Some_detach, S3; by apply S1).
    rewrite parentNode_detach, P3. repeat case_decide; done.
  - intros m. unfold d4.
    rewrite childNodes_attach by (by rewrite is_Some_detach, S3).
    rewrite !childNodes_detach, !P3, !C3.
    repeat case_decide; simplify_eq; try done.
    rewrite (filter_ne_middle t pre (p :: post)); [done..|].
    apply not_elem_of_cons. done.
  - intros m. unfold d4, d3, d2, d1.
    rewrite nodeValue_attach, nodeValue_detach, nodeValue_attach, nodeValue_detach,
      nodeValue_attach, !nodeValue_detach.
    unfold Dom.nodeValue. rewrite lookup_insert.
    case_decide; [subst; by rewrite Hp_none | done].
Qed.

Lemma lookupZ_nat {A} (l : list A) (i : nat) : lookupZ l (Z.of_nat i) = l !! i.
Proof.
  unfold lookupZ. destruct (Z.ltb_spec (Z.of_nat i) 0); [lia|]. by rewrite Nat2Z.id.
Qed.

Lemma insertParent_last d root t p tag (pre post : list node_id)
    (range : option caret) (rs : list record) (op : record) :
  Dom.can_have_children d root = true →
  Dom.parentNode d t = Some root →
  Dom.childNodes d root = pre ++ t :: post →
  NoDup (pre ++ t :: post) →
  (∀ m, Dom.parentNode d m ≠ Some t) →
  unused d p →
  target op = root → addedNodes op = [t] →
  ∃ d4 range',
    Nomalizer.insertParentNodeAndInsertOperation (<[p := blank_element tag]> d) range
      (rs ++ [op]) (Z.of_nat (length rs)) 0 p
    = Ok (d4, range',
          rs ++ [set_addedNodes [p] op; ins_record p [t] None None],
          set_addedNodes [p] op)
    ∧ (∀ m, Dom.kind d4 m = if decide (m = p) then ElementNode tag else Dom.kind d m)
    ∧ (∀ m, Dom.parentNode d4 m
            = if decide (m = t) then Some p
              else if decide (m = p) then Some root else Dom.parentNode d m)
    ∧ (∀ m, Dom.childNodes d4 m
            = if decide (m = p) then [t]
              else if decide (m = root) then pre ++ p :: post
              else Dom.childNodes d m)
    ∧ (∀ m, Dom.nodeValue d4 m = Dom.nodeValue d m)
    ∧ (is_Some range → is_Some range')
    ∧ (∀ c, range = Some c → caret_ok d c → ∃ c', range' = Some c' ∧ caret_ok d4 c').
Proof.
  intros Hroot Hpt Hcs Hnd Hleaf Hun Htgt Hadd.
  destruct (wrap_in_new_parent d root t p tag pre post Hroot Hpt Hcs Hnd Hleaf Hun)
    as (d2 & d3 & d4 & E2 & Hp2 & E3 & E4 & Hp3 & Hc3 & K4 & P4 & C4 & V4).
  exists d4. eexists. split; [|split; [done|split; [done|split; [done|split; [done|split]]]]].
  - unfold Nomalizer.insertParentNodeAndInsertOperation,
      Nomalizer.replaceNodeAndInsertOperation.
    rewrite lookupZ_nat, lookup_app_r, Nat.sub_diag by lia. simpl.
    rewrite Hadd. simpl. rewrite Htgt, E2. simpl.
    rewrite Nat2Z.id.
    replace (<[length rs := set_addedNodes [p] op]> (rs ++ [op]))
      with (rs ++ [set_addedNodes [p] op]).
    2:{ rewrite insert_app_r_alt, Nat.sub_diag by lia. done. }
    unfold Nomalizer.replaceOperation.
    rewrite length_app. simpl.
    replace (Z.of_nat (length rs) + 1 =? Z.of_nat (length rs + 1))%Z with true
      by (symmetry; apply Z.eqb_eq; lia).
    simpl. rewrite Hp2, E3. simpl.
    unfold Nomalizer.moveNodeList. simpl. rewrite E4. simpl.
    unfold Nomalizer.insertInsertOperation.
    rewrite (previousSibling_middle d4 t p [] []), (nextSibling_middle d4 t p [] []);
      rewrite ?P4, ?C4; repeat case_decide; try done; try apply not_elem_of_nil.
    simpl. unfold splice_start.
    destruct (Z.ltb_spec (Z.of_nat (length rs) + 1) 0); [lia|].
    rewrite length_app. simpl.
    replace (Z.to_nat (Z.min (Z.of_nat (length rs) + 1) (Z.of_nat (length rs + 1))))
      with (length (rs ++ [set_addedNodes [p] op])) by (rewrite length_app; simpl; lia).
    rewrite firstn_all, drop_all. rewrite <- app_assoc. reflexivity.
  - intros [r ->]. simpl. eauto.
  - intros c -> Hok. eexists. split; [reflexivity|].
    rewrite Hp3, Hc3. change (Z.of_nat (length [])) with 0%Z.
    assert (Hpn : d !! p = None) by apply Hun.
    assert (Hlen : ∀ m, (node_length d m ≤ node_length d4 m)%Z).
    { intros m. unfold node_length. rewrite V4, C4.
      destruct (Dom.nodeValue d m); [lia|].
      destruct (decide (m = p)) as [->|].
      - unfold Dom.childNodes. rewrite Hpn. simpl. lia.
      - destruct (decide (m = root)) as [->|]; [|lia].
        rewrite Hcs, !length_app. simpl. lia. }
    destruct Hok as [H1 H2].
    apply move_caret_some_ok.
    + intros _. by apply (boundary_ok_mono d).
    + intros _. by apply (boundary_ok_mono d).
    + intros x Hx. unfold Nomalizer.in_moved in Hx.
      apply andb_true_iff in Hx as [Hx1 Hx2]. apply Z.leb_le in Hx1, Hx2.
      unfold boundary_ok, node_length. rewrite V4, C4, decide_True by done.
      unfold Dom.nodeValue. rewrite Hpn. simpl.
      apply andb_true_iff. rewrite !Z.leb_le. lia.
Qed.
End wrap.

Lemma nodeType_kind d n : Dom.nodeType d n = kind_type (Dom.kind d n).
Proof. done. Qed.

Lemma is_tag_text d n tag : Dom.kind d n = TextNode → Nomalizer.is_tag d n tag = false.
Proof. intros H. unfold Nomalizer.is_tag. by rewrite nodeType_kind, H. Qed.

(** A text leaf below a node other than the root matches no rule. *)
Lemma visit_text_elsewhere root (st : Normalize.loop_state) t :
  lookupZ (addedNodes (Normalize.ls_op st)) (Normalize.ls_j st) = Some t →
  Dom.kind (w_dom (Normalize.ls_world st)) t = TextNode →
  Dom.childNodes (w_dom (Normalize.ls_world st)) t = [] →
  target (Normalize.ls_op st) ≠ root →
  Normalize.visit root st = Ok st.
Proof.
  intros Hl Hk Hc Hne. unfold Normalize.visit. rewrite Hl.
  destruct (negb _); [done|].
  rewrite (bool_decide_eq_false_2 (target (Normalize.ls_op st) = root)) by done.
  rewrite andb_false_r.
  unfold Normalize.has_text_child, Normalize.only_child_is_br. rewrite Hc. simpl.
  rewrite !is_tag_text by done. done.
Qed.


Ltac ls_simpl :=
  cbn [Normalize.ls_world Normalize.ls_range Normalize.ls_records Normalize.ls_i
       Normalize.ls_j Normalize.ls_op Normalize.next_j with_dom w_dom w_sel w_next
       mbind result_bind fst snd].

Lemma inner_loop_done f root st :
  Normalize.ls_j st = Z.of_nat (length (addedNodes (Normalize.ls_op st))) →
  Normalize.inner_loop (S f) root st = Ok st.
Proof. intros H. simpl. rewrite H, Z.eqb_refl. done. Qed.

Lemma inner_loop_step f root st :
  Normalize.ls_j st ≠ Z.of_nat (length (addedNodes (Normalize.ls_op st))) →
  Normalize.inner_loop (S f) root st
  = Normalize.visit root st ≫= λ st1, Normalize.inner_loop f root (Normalize.next_j st1).
Proof.
  intros H. simpl.
  destruct (Z.eqb_spec (Normalize.ls_j st)
              (Z.of_nat (length (addedNodes (Normalize.ls_op st))))); done.
Qed.

Lemma outer_loop_done f root w range rs i :
  i = Z.of_nat (length rs) →
  Normalize.outer_loop (S f) root w range rs i = Ok (w, range, rs).
Proof. intros ->. simpl. by rewrite Z.eqb_refl. Qed.

Lemma lookupZ_lt {A} (l : list A) i x :
  lookupZ l i = Some x → (0 ≤ i < Z.of_nat (length l))%Z.
Proof.
  unfold lookupZ. destruct (Z.ltb_spec i 0); [done|].
  intros Hl%lookup_lt_Some. lia.
Qed.

Lemma outer_loop_step f root w range rs i op :
  lookupZ rs i = Some op → type op = childList →
  Normalize.outer_loop (S f) root w range rs i
  = Normalize.inner_loop f root
      {| Normalize.ls_world := w; Normalize.ls_range := range;
         Normalize.ls_records := rs; Normalize.ls_i := i;
         Normalize.ls_j := 0; Normalize.ls_op := op |}
    ≫= λ st, Normalize.outer_loop f root (Normalize.ls_world st) (Normalize.ls_range st)
                (Normalize.ls_records st) (Normalize.ls_i st + 1)%Z.
Proof.
  intros Hl Ht. simpl.
  destruct (Z.eqb_spec i (Z.of_nat (length rs))) as [He|_].
  { apply lookupZ_lt in Hl. lia. }
  rewrite Hl, Ht. done.
Qed.

(** ** Rule 1: a bare text node under the root *)

(** C4 (amended). When a bare text node is inserted directly under the
    root and the one-record batch is normalised (the selection of the
    page lying inside its nodes, as [updateCaret] needs), the log ends
    with two structural records: the original one, still targeting the
    root, whose
    [addedNodes] now name the new paragraph instead of the text node,
    followed by a new record that targets the paragraph and whose
    [addedNodes] hold only the text node.  In the tree the paragraph takes
    the place of the text node under the root and the text node is its
    only child. *)
Theorem bare_text_under_root_yields_two_records
    (w : world) (root t : node_id) (op : record) (pre post : list node_id)
    (c : caret) (fuel : nat) :
  type op = childList → target op = root → addedNodes op = [t] →
  Dom.can_have_children (w_dom w) root = true →
  Dom.kind (w_dom w) t = TextNode →
  Dom.parentNode (w_dom w) t = Some root →
  Dom.childNodes (w_dom w) root = pre ++ t :: post →
  NoDup (pre ++ t :: post) →
  leaf (w_dom w) t →
  unused (w_dom w) (w_next w) →
  w_sel w = Some c →
  caret_ok (w_dom w) c →
  let p := w_next w in
  ∃ w',
    Normalize.normalize (4 + fuel) root w [op]
    = Ok (w', [set_addedNodes [p] op; ins_record p [t] None None])
    ∧ Nomalizer.is_tag (w_dom w') p "p" = true
    ∧ Dom.parentNode (w_dom w') p = Some root
    ∧ Dom.childNodes (w_dom w') root = pre ++ p :: post
    ∧ Dom.childNodes (w_dom w') p = [t]
    ∧ Dom.parentNode (w_dom w') t = Some p.
Proof.
  intros Hty Htgt Hadd Hroot Hkt Hpt Hcs Hnd [Hleaf_c Hleaf_p] Hun Hsel Hok p.
  destruct (insertParent_last (w_dom w) root t p "P" pre post (Some c) [] op
              Hroot Hpt Hcs Hnd Hleaf_p Hun Htgt Hadd)
    as (d4 & range' & E & K4 & P4 & C4 & V4 & _ & Hr).
  destruct (Hr c eq_refl Hok) as (c' & -> & Hok').
  assert (Hpr : p ≠ root).
  { intros Heq. destruct Hun as (Hn & _). apply can_have_children_is_Some in Hroot.
    unfold p in Heq. rewrite <- Heq, Hn in Hroot. by destruct Hroot. }
  assert (Hpt' : t ≠ p).
  { intros Heq. destruct Hun as (Hn & _). apply parentNode_is_Some in Hpt.
    unfold p in Heq. rewrite Heq, Hn in Hpt. by destruct Hpt. }
  assert (Hrt : t ≠ root). { intros ->. by eapply Hleaf_p. }
  eexists. split.
  - unfold Normalize.normalize, getCaret. rewrite Hsel.
    change (4 + fuel)%nat with (S (S (S (S fuel)))).
    rewrite (outer_loop_step _ _ _ _ _ 0%Z op) by done.
    rewrite inner_loop_step by (simpl; rewrite Hadd; done).
    assert (Hv : Normalize.visit root
              {| Normalize.ls_world := w; Normalize.ls_range := Some c;
                 Normalize.ls_records := [op]; Normalize.ls_i := 0;
                 Normalize.ls_j := 0; Normalize.ls_op := op |}
            = Ok {| Normalize.ls_world := with_dom (createElement w "p").1 d4;
                    Normalize.ls_range := Some c';
                    Normalize.ls_records := [set_addedNodes [p] op; ins_record p [t] None None];
                    Normalize.ls_i := 0; Normalize.ls_j := 0;
                    Normalize.ls_op := set_addedNodes [p] op |}).
    { unfold Normalize.visit. simpl. rewrite Hadd. simpl.
      rewrite Htgt, Hpt. rewrite bool_decide_eq_true_2 by done. simpl.
      rewrite nodeType_kind, Hkt. simpl.
      rewrite bool_decide_eq_true_2 by done.
      simpl in E. change (Z.of_nat 0) with 0%Z in E.
      fold p. change (toUpperCase "p") with "P"%string. rewrite E. done. }
    rewrite Hv. cbn [mbind result_bind].
    rewrite inner_loop_done by done. cbn [mbind result_bind].
    rewrite (outer_loop_step _ _ _ _ _ 1%Z (ins_record p [t] None None)) by done.
    rewrite inner_loop_step by done.
    rewrite (visit_text_elsewhere root _ t); ls_simpl; try done;
      try (rewrite ?C4, ?K4; repeat case_decide; try done; congruence).
    rewrite inner_loop_done by done. ls_simpl.
    rewrite outer_loop_done by done. ls_simpl.
    rewrite updateCaret_ok by done. ls_simpl. reflexivity.
  - simpl. unfold Nomalizer.is_tag. rewrite nodeType_kind.
    unfold Dom.tagName. rewrite K4, P4, !C4.
    repeat case_decide; try done; try congruence.
    repeat split; try done. rewrite P4. by case_decide.
Qed.

Lemma is_tag_kind d n tag :
  Nomalizer.is_tag d n tag
  = match Dom.kind d n with
    | ElementNode t => String.eqb (toLowerCase t) tag
    | _ => false
    end.
Proof.
  unfold Nomalizer.is_tag, Dom.tagName. rewrite nodeType_kind.
  by destruct (Dom.kind d n).
Qed.

Lemma is_tag_ext d d' n tag :
  Dom.kind d' n = Dom.kind d n → Nomalizer.is_tag d' n tag = Nomalizer.is_tag d n tag.
Proof. intros H. by rewrite !is_tag_kind, H. Qed.

Lemma is_tag_not_text d n tag :
  Nomalizer.is_tag d n tag = true → (Dom.nodeType d n =? TEXT_NODE)%Z = false.
Proof.
  rewrite is_tag_kind, nodeType_kind. by destruct (Dom.kind d n).
Qed.

Lemma is_tag_can_have_children d n tag :
  Nomalizer.is_tag d n tag = true → Dom.can_have_children d n = true.
Proof.
  rewrite is_tag_kind. unfold Dom.can_have_children. by destruct (Dom.kind d n).
Qed.

Lemma last_snoc_app {A} (l : list A) x : last (l ++ [x]) = Some x.
Proof. apply last_snoc. Qed.

Lemma lookupZ_head {A} (x : A) l : lookupZ (x :: l) 0 = Some x.
Proof. done. Qed.


(** ** Rule 5: a trailing line break *)

Lemma insert_new_before d par n b tag (pre : list node_id) :
  Dom.can_have_children d par = true →
  Dom.parentNode d n = Some par →
  Dom.childNodes d par = pre ++ [n] →
  n ∉ pre →
  unused d b →
  ∃ d2,
    Dom.insertBefore (<[b := blank_element tag]> d) par b (Some n) = Ok d2
    ∧ (∀ m, Dom.kind d2 m = if decide (m = b) then ElementNode tag else Dom.kind d m)
    ∧ (∀ m, Dom.parentNode d2 m = if decide (m = b) then Some par else Dom.parentNode d m)
    ∧ (∀ m, Dom.childNodes d2 m
            = if decide (m = par) then pre ++ [b; n]
              else if decide (m = b) then [] else Dom.childNodes d m)
    ∧ (∀ m, Dom.nodeValue d2 m = Dom.nodeValue d m).
Proof.
  intros Hpar Hpn Hcs Hn (Hb_none & Hb_par & Hb_ch).
  set (d1 := <[b := blank_element tag]> d).
  assert (Hps : is_Some (d !! par)) by by apply can_have_children_is_Some.
  assert (Hbp : b ≠ par). { intros ->. rewrite Hb_none in Hps. by destruct Hps. }
  assert (Hbn : b ≠ n).
  { intros ->. apply parentNode_is_Some in Hpn. rewrite Hb_none in Hpn. by destruct Hpn. }
  assert (P1 : ∀ m, Dom.parentNode d1 m = if decide (m = b) then None else Dom.parentNode d m).
  { intros m. unfold d1. by rewrite parentNode_insert. }
  assert (C1 : ∀ m, Dom.childNodes d1 m = if decide (m = b) then [] else Dom.childNodes d m).
  { intros m. unfold d1. by rewrite childNodes_insert. }
  assert (K1 : ∀ m, Dom.kind d1 m = if decide (m = b) then ElementNode tag else Dom.kind d m).
  { intros m. unfold d1. by rewrite kind_insert. }
  assert (S1 : ∀ m, is_Some (d !! m) → is_Some (d1 !! m)).
  { intros m [x Hx]. unfold d1. rewrite lookup_insert. case_decide; eauto. }
  assert (S1b : is_Some (d1 !! b)).
  { unfold d1. rewrite lookup_insert_eq. eauto. }
  exists (Dom.attach (Dom.detach d1 b) par b (Some n)).
  split; [|split; [|split; [|split]]].
  - apply insertBefore_Ok.
    + unfold Dom.can_have_children. rewrite K1. case_decide; [done|]. apply Hpar.
    + apply not_ancestor_of_leaf; [|done].
      intros m. rewrite P1. case_decide; [done | apply Hb_par].
    + rewrite P1. by case_decide.
    + congruence.
  - intros m. by rewrite kind_attach, kind_detach, K1.
  - intros m. rewrite parentNode_attach by (by rewrite is_Some_detach).
    rewrite parentNode_detach, P1. repeat case_decide; done.
  - intros m. rewrite childNodes_attach by (rewrite is_Some_detach; by apply S1).
    rewrite !childNodes_detach, !P1, !C1.
    repeat case_decide; simplify_eq; try done.
    rewrite Hcs. by rewrite place_before by done.
  - intros m. rewrite nodeValue_attach, nodeValue_detach.
    unfold d1, Dom.nodeValue. rewrite lookup_insert.
    case_decide; [subst; by rewrite Hb_none | done].
Qed.

(** the first four tests of the rule chain fail for a line break below a
    node other than the root *)
Lemma visit_br_elsewhere (w : world) (root par n : node_id) (op : record)
    (st : Normalize.loop_state) :
  target op = par →
  addedNodes op = [n] →
  par ≠ root →
  Nomalizer.is_tag (w_dom w) n "br" = true →
  Dom.parentNode (w_dom w) n = Some par →
  Dom.childNodes (w_dom w) n = [] →
  Normalize.ls_world st = w →
  Normalize.ls_op st = op →
  Normalize.ls_j st = 0%Z →
  Normalize.visit root st
  = match Dom.previousSibling (w_dom w) n, Dom.nextSibling (w_dom w) n with
    | Some prev, None =>
        if negb (Nomalizer.is_tag (w_dom w) prev "br") then
          let '(w1, br) := createElement w "br" in
          match Dom.parentNode (w_dom w1) n with
          | None => Throw TypeError
          | Some par' =>
              '(d1, range1) ←
                Nomalizer.moveNodeList (w_dom w1) (Normalize.ls_range st)
                  (NodeArray [br]) par' (Some n);
              let rs1 := Nomalizer.insertInsertOperation d1 (Normalize.ls_records st)
                           par' [br] (Z.of_nat (length (Normalize.ls_records st))) in
              Ok {| Normalize.ls_world := with_dom w1 d1; Normalize.ls_range := range1;
                    Normalize.ls_records := rs1; Normalize.ls_i := Normalize.ls_i st;
                    Normalize.ls_j := Normalize.ls_j st; Normalize.ls_op := op |}
          end
        else Ok st
    | _, _ => Ok st
    end.
Proof.
  intros Htgt Hadd Hpar_root Hbr Hparent Hleaf Hw Hop Hj. unfold Normalize.visit. rewrite Hw, Hop, Hj, Hadd.
  rewrite lookupZ_head.
  rewrite Htgt, Hparent, bool_decide_eq_true_2 by done. cbn [negb].
  rewrite (is_tag_not_text _ _ _ Hbr). cbn [andb].
  unfold Normalize.has_text_child, Normalize.only_child_is_br. rewrite Hleaf.
  cbn [existsb]. rewrite Hbr.
  rewrite (bool_decide_eq_false_2 (par = root)) by done. cbn [andb].
  reflexivity.
Qed.

Section br.
Context (w : world) (root par n : node_id) (op : record) (c : caret).
Hypothesis Hty : type op = childList.
Hypothesis Htgt : target op = par.
Hypothesis Hadd : addedNodes op = [n].
Hypothesis Hpar_root : par ≠ root.
Hypothesis Hbr : Nomalizer.is_tag (w_dom w) n "br" = true.
Hypothesis Hparent : Dom.parentNode (w_dom w) n = Some par.
Hypothesis Hleaf : Dom.childNodes (w_dom w) n = [].
Hypothesis Hsel : w_sel w = Some c.
Hypothesis Hok : caret_ok (w_dom w) c.

(** C5 (amended). An inserted line-break element without children
    whose parent, the record's target, is not the root, normalised as
    the batch of the one record whose only added node it is, the
    selection of the page lying inside its nodes: when it is the last
    child and is preceded by a sibling that is not a line break,
    normalisation creates one more
    line break, puts it immediately before the inserted one (so the
    parent's children end with the preceding sibling and two line
    breaks) and appends a record for it to the log; when it has no
    sibling at all (the line break is the only child of an empty
    paragraph) normalisation changes neither the tree nor the log, and
    the paragraph keeps a single line-break child. *)
Theorem trailing_line_break_rule (fuel : nat) :
  unused (w_dom w) (w_next w) →
  (∀ (pre : list node_id) (prev : node_id),
      Dom.childNodes (w_dom w) par = pre ++ [prev; n] →
      n ∉ pre ++ [prev] →
      Nomalizer.is_tag (w_dom w) prev "br" = false →
      Dom.can_have_children (w_dom w) par = true →
      let b := w_next w in
      ∃ w',
        Normalize.normalize (4 + fuel) root w [op]
        = Ok (w', [op; ins_record par [b] (Some prev) (Some n)])
        ∧ Nomalizer.is_tag (w_dom w') b "br" = true
        ∧ Dom.parentNode (w_dom w') b = Some par
        ∧ Dom.childNodes (w_dom w') par = pre ++ [prev; b; n])
  ∧ (Dom.childNodes (w_dom w) par = [n] →
      Normalize.normalize (4 + fuel) root w [op] = Ok (w, [op])).
Proof.
  intros Hun. split.
  - intros pre prev Hcs Hn Hprev Hcan b.
    replace (pre ++ [prev; n]) with ((pre ++ [prev]) ++ [n]) in Hcs
      by (by rewrite <- app_assoc).
    destruct (insert_new_before (w_dom w) par n b "BR" (pre ++ [prev]) Hcan Hparent Hcs Hn Hun)
      as (d2 & E & K2 & P2 & C2 & V2).
    assert (Hbn : b ≠ n).
    { intros Heq. destruct Hun as (Hnone & _). apply parentNode_is_Some in Hparent.
      unfold b in Heq. rewrite <- Heq, Hnone in Hparent. by destruct Hparent. }
    assert (Hbp : b ≠ par).
    { intros Heq. destruct Hun as (Hnone & _). apply can_have_children_is_Some in Hcan.
      unfold b in Heq. rewrite <- Heq, Hnone in Hcan. by destruct Hcan. }
    assert (Hb_pre : b ∉ pre ++ [prev]).
    { intros Hin. destruct Hun as (_ & _ & Hch). apply (Hch par).
      rewrite Hcs. set_solver. }
    assert (Hprev1 : Dom.previousSibling (w_dom w) n = Some prev).
    { rewrite (previousSibling_middle _ n par (pre ++ [prev]) []) by done.
      apply last_snoc. }
    assert (Hnext1 : Dom.nextSibling (w_dom w) n = None).
    { by rewrite (nextSibling_middle _ n par (pre ++ [prev]) []). }
    assert (Hprev2 : Dom.previousSibling d2 b = Some prev).
    { rewrite (previousSibling_middle d2 b par (pre ++ [prev]) [n]).
      - apply last_snoc.
      - rewrite P2. by case_decide.
      - rewrite C2. case_decide; [|done]. by rewrite <- app_assoc.
      - done. }
    assert (Hnext2 : Dom.nextSibling d2 b = Some n).
    { rewrite (nextSibling_middle d2 b par (pre ++ [prev]) [n]); [done| | |done].
      - rewrite P2. by case_decide.
      - rewrite C2. case_decide; [|done]. by rewrite <- app_assoc. }
    set (w2 := with_dom (createElement w "br").1 d2).
    assert (Hv2 : ∀ st, Normalize.ls_world st = w2 →
              Normalize.ls_op st = ins_record par [b] (Some prev) (Some n) →
              Normalize.ls_j st = 0%Z → Normalize.visit root st = Ok st).
    { intros st Hw Hop Hj.
      rewrite (visit_br_elsewhere w2 root par b (ins_record par [b] (Some prev) (Some n)));
        unfold w2; cbn [with_dom w_dom]; try done.
      - by rewrite Hprev2, Hnext2.
      - rewrite is_tag_kind, K2. by case_decide.
      - rewrite P2. by case_decide.
      - rewrite C2. repeat case_decide; done. }
    eexists. split.
    + unfold Normalize.normalize, getCaret. rewrite Hsel.
      change (4 + fuel)%nat with (S (S (S (S fuel)))).
      rewrite (outer_loop_step _ _ _ _ _ 0%Z op) by done.
      rewrite inner_loop_step by (simpl; rewrite Hadd; done).
      rewrite (visit_br_elsewhere w root par n op) by done.
      rewrite Hprev1, Hnext1, Hprev. cbn [negb].
      unfold createElement. cbv zeta. cbn [w_dom Normalize.ls_range Normalize.ls_records
        Normalize.ls_i Normalize.ls_j].
      change (toUpperCase "br") with "BR"%string. fold b.
      rewrite parentNode_insert. case_decide; [done|]. rewrite Hparent.
      unfold Nomalizer.moveNodeList. cbn [Nomalizer.items length Nomalizer.move_each lookup list_lookup].
      rewrite E. ls_simpl.
      unfold Nomalizer.insertInsertOperation. rewrite Hprev2. cbn [List.last].
      rewrite Hnext2. simpl splice_start. cbn [take drop app].
      rewrite inner_loop_done by (ls_simpl; rewrite Hadd; done). ls_simpl.
      rewrite (outer_loop_step _ _ _ _ _ 1%Z (ins_record par [b] (Some prev) (Some n))) by done.
      rewrite inner_loop_step by done.
      rewrite Hv2 by done. ls_simpl.
      rewrite inner_loop_done by done. ls_simpl.
      rewrite outer_loop_done by done. ls_simpl.
      rewrite parentNode_insert, decide_True by done.
      cbn [nparent blank_element fmap option_fmap option_map].
      rewrite updateCaret_ok; [reflexivity|]. cbn [w_dom].
      assert (Hnv : Dom.nodeValue (w_dom w) par = None).
      { unfold Dom.can_have_children, Dom.kind in Hcan. unfold Dom.nodeValue.
        destruct (w_dom w !! par) as [x|]; [|done]. simpl in Hcan.
        by destruct (nkind x). }
      assert (Hbnone : w_dom w !! b = None) by apply Hun.
      apply (move_caret_none_ok (w_dom w)); [done| | |lia].
      * intros m. unfold node_length. rewrite V2, C2.
        destruct (Dom.nodeValue (w_dom w) m); [lia|].
        destruct (decide (m = par)) as [->|].
        -- rewrite Hcs, !length_app. simpl. lia.
        -- destruct (decide (m = b)) as [->|]; [|lia].
           unfold Dom.childNodes. rewrite Hbnone. simpl. lia.
      * unfold node_length. rewrite V2, C2, Hnv, decide_True by done.
        rewrite Hcs, !length_app. simpl. lia.
    + ls_simpl. rewrite is_tag_kind, K2, P2, C2. repeat case_decide; try done.
      split; [done|]. split; [done|]. by rewrite <- app_assoc.
  - intros Hcs.
    assert (Hprev1 : Dom.previousSibling (w_dom w) n = None).
    { rewrite (previousSibling_middle _ n par [] []);
        [done | done | exact Hcs | apply not_elem_of_nil]. }
    unfold Normalize.normalize, getCaret. rewrite Hsel.
    change (4 + fuel)%nat with (S (S (S (S fuel)))).
    rewrite (outer_loop_step _ _ _ _ _ 0%Z op) by done.
    rewrite inner_loop_step by (simpl; rewrite Hadd; done).
    rewrite (visit_br_elsewhere w root par n op) by done.
    rewrite Hprev1. ls_simpl.
    rewrite inner_loop_done by (ls_simpl; rewrite Hadd; done). ls_simpl.
    rewrite outer_loop_done by done. ls_simpl.
    by rewrite updateCaret_same.
Qed.
End br.

(** ** Rule 6: a paragraph inside a paragraph *)

(** [getChildIndex] on a well-formed child list. *)
Lemma count_previous_index (d : gmap node_id dom_node) (p : node_id) :
  ∀ (pre : list node_id) n (post : list node_id) fuel,
  (length pre ≤ fuel)%nat →
  Dom.childNodes d p = pre ++ n :: post →
  NoDup (pre ++ [n]) →
  (∀ x, x ∈ pre ++ [n] → Dom.parentNode d x = Some p) →
  Nomalizer.count_previous fuel d n = Z.of_nat (length pre).
Proof.
  induction pre as [|m pre IH] using rev_ind; intros n post fuel Hf Hcs Hnd Hpar.
  - assert (Hprev : Dom.previousSibling d n = None).
    { rewrite (previousSibling_middle d n p [] post); try done.
      - apply Hpar. by left.
      - apply not_elem_of_nil. }
    destruct fuel; simpl; [done|]. by rewrite Hprev.
  - rewrite length_app in *. simpl in *.
    destruct fuel as [|fuel]; [lia|]. simpl.
    apply NoDup_app in Hnd as (Hnd1 & Hnd2 & _).
    rewrite (previousSibling_middle d n p (pre ++ [m]) post); try done.
    + rewrite last_snoc_app.
      rewrite (IH m (n :: post) fuel); try lia; try done.
      * by rewrite <- app_assoc in Hcs.
      * intros x Hx. apply Hpar. apply elem_of_app. by left.
    + apply Hpar. apply elem_of_app. right. by left.
    + intros Hin. apply (Hnd2 n Hin). by left.
Qed.

Lemma getChildIndex_middle (d : gmap node_id dom_node) p n (pre post : list node_id) :
  Dom.childNodes d p = pre ++ n :: post →
  NoDup (pre ++ [n]) →
  (∀ x, x ∈ pre ++ [n] → Dom.parentNode d x = Some p) →
  Nomalizer.getChildIndex d n = Z.of_nat (length pre).
Proof.
  intros Hcs Hnd Hpar. unfold Nomalizer.getChildIndex.
  rewrite (Hpar n) by (apply elem_of_app; right; by left).
  apply (count_previous_index d p pre n post); try done.
  rewrite Hcs, length_app. lia.
Qed.


(** Appending the children of one node to the end of another. *)
Lemma append_promotes (rank : node_id → nat) (par n : node_id) :
  ∀ (cs : list node_id) (d : gmap node_id dom_node),
    Dom.can_have_children d par = true →
    n ≠ par →
    NoDup cs →
    (∀ c, c ∈ cs → Dom.parentNode d c = Some n ∧ (rank par < rank c)%nat) →
    (∀ m q, Dom.parentNode d m = Some q → (rank q < rank m)%nat) →
    ∃ d',
      Dom.append d par cs = Ok d'
      ∧ (∀ m, Dom.kind d' m = Dom.kind d m)
      ∧ (∀ m, Dom.parentNode d' m
              = if decide (m ∈ cs) then Some par else Dom.parentNode d m)
      ∧ (∀ m, m ≠ n →
              Dom.childNodes d' m
              = if decide (m = par) then Dom.childNodes d par ++ cs
                else Dom.childNodes d m)
      ∧ (∀ m, Dom.nodeValue d' m = Dom.nodeValue d m).
Proof.
  induction cs as [|c cs IH]; intros d Hcan Hnp Hnd Hcs Hrank.
  - exists d. split; [done|]. split; [done|]. split; [|split; [|done]].
    + intros m. case_decide as H; [by apply elem_of_nil in H | done].
    + intros m _. case_decide; subst; rewrite ?app_nil_r; done.
  - apply NoDup_cons in Hnd as [Hc_cs Hnd].
    destruct (Hcs c ltac:(by left)) as [Hpc Hrc].
    assert (Hcp : c ≠ par). { intros ->. lia. }
    assert (Hcn : c ≠ n). { intros ->. specialize (Hrank _ _ Hpc). lia. }
    assert (Hcs_some : is_Some (d !! c)) by by eapply parentNode_is_Some.
    assert (Hps : is_Some (d !! par)) by by apply can_have_children_is_Some.
    set (d1 := Dom.attach (Dom.detach d c) par c None).
    assert (E1 : Dom.insertBefore d par c None = Ok d1).
    { apply insertBefore_Ok; try done.
      by apply (ancestor_walk_rank rank). }
    assert (K1 : ∀ m, Dom.kind d1 m = Dom.kind d m).
    { intros m. unfold d1. by rewrite kind_attach, kind_detach. }
    assert (P1 : ∀ m, Dom.parentNode d1 m
                 = if decide (m = c) then Some par else Dom.parentNode d m).
    { intros m. unfold d1. rewrite parentNode_attach by by rewrite is_Some_detach.
      rewrite parentNode_detach. repeat case_decide; done. }
    assert (C1 : ∀ m, m ≠ n →
                 Dom.childNodes d1 m
                 = if decide (m = par) then Dom.childNodes d par ++ [c]
                   else Dom.childNodes d m).
    { intros m Hm. unfold d1. rewrite childNodes_attach by by rewrite is_Some_detach.
      rewrite !childNodes_detach, Hpc.
      repeat case_decide; simplify_eq; done. }
    destruct (IH d1) as (d' & E & K & P & C & V).
    + unfold Dom.can_have_children. rewrite K1. apply Hcan.
    + done.
    + done.
    + intros x Hx. rewrite P1. case_decide; [subst; done|].
      apply Hcs. by right.
    + intros m q. rewrite P1. case_decide; [intros [= <-]; subst; done | apply Hrank].
    + exists d'. split; [simpl; by rewrite E1|].
      split; [intros m; by rewrite K, K1|].
      split; [|split].
      * intros m. rewrite P, P1.
        repeat case_decide; try done; set_solver.
      * intros m Hm. rewrite C, !C1 by done.
        repeat case_decide; simplify_eq; try done.
        by rewrite <- app_assoc.
      * intros m. rewrite V. unfold d1. by rewrite nodeValue_attach, nodeValue_detach.
Qed.

Lemma is_tag_p_not_br d n :
  Nomalizer.is_tag d n "p" = true → Nomalizer.is_tag d n "br" = false.
Proof.
  rewrite !is_tag_kind. destruct (Dom.kind d n); try done.
  intros H%String.eqb_eq. by rewrite H.
Qed.

(** C6 (divergence). The rule chain of [normalize] tests for a text node
    among the children before it tests for a nested paragraph, and that
    branch acts only on a node inserted into the root.  So an inserted
    paragraph that holds a text node and whose parent, the record's
    target, is a paragraph other than the root is left where it is:
    [normalize] returns the tree and the log unchanged, and a paragraph
    is still the child of a paragraph. *)
Theorem paragraph_with_text_stays_nested
    (w : world) (root par n : node_id) (op : record) (c : caret) (fuel : nat) :
  type op = childList → target op = par → addedNodes op = [n] →
  par ≠ root →
  Nomalizer.is_tag (w_dom w) n "p" = true →
  Nomalizer.is_tag (w_dom w) par "p" = true →
  Dom.parentNode (w_dom w) n = Some par →
  Normalize.has_text_child (w_dom w) n = true →
  w_sel w = Some c → caret_ok (w_dom w) c →
  Normalize.normalize (3 + fuel) root w [op] = Ok (w, [op])
  ∧ nested_paragraphs (w_dom w).
Proof.
  intros Hty Htgt Hadd Hroot Hp Hpp Hparent Htext Hsel Hok. split.
  - unfold Normalize.normalize, getCaret. rewrite Hsel.
    change (3 + fuel)%nat with (S (S (S fuel))).
    rewrite (outer_loop_step _ _ _ _ _ 0%Z op) by done.
    rewrite inner_loop_step by (simpl; rewrite Hadd; done).
    unfold Normalize.visit. ls_simpl. rewrite Hadd, lookupZ_head.
    rewrite Htgt, Hparent, bool_decide_eq_true_2 by done. cbn [negb].
    rewrite (is_tag_not_text _ _ _ Hp). cbn [andb].
    rewrite Htext, (bool_decide_eq_false_2 (par = root)) by done.
    rewrite andb_false_r. ls_simpl.
    rewrite inner_loop_done by (ls_simpl; rewrite Hadd; done). ls_simpl.
    rewrite outer_loop_done by done. ls_simpl.
    by rewrite updateCaret_same.
  - by exists n, par.
Qed.

(** X1. The nesting rule where it applies. An inserted paragraph element
    that has no text node and not a lone line break among its children,
    that is the last child of the record's target, and above which the
    ancestor walk finds a paragraph before it reaches the root, normalised
    as a one-record batch while the selection lies inside its nodes and
    outside the inserted paragraph: the inner paragraph is removed from
    its parent, its children take its place at the end of the parent's
    child list in their order, and the log is left empty (the record of
    the insertion is dropped and no record describes the promoted
    children). *)
Theorem nested_paragraph_is_unwrapped
    (w : world) (root par n : node_id) (op : record) (c : caret)
    (pre cs : list node_id) (rank : node_id → nat) (fuel : nat) :
  type op = childList → target op = par → addedNodes op = [n] →
  Nomalizer.is_tag (w_dom w) n "p" = true →
  Dom.parentNode (w_dom w) n = Some par →
  Dom.childNodes (w_dom w) par = pre ++ [n] → NoDup (pre ++ [n]) →
  (∀ x, x ∈ pre → Dom.parentNode (w_dom w) x = Some par) →
  Dom.can_have_children (w_dom w) par = true →
  Dom.childNodes (w_dom w) n = cs → NoDup cs →
  (∀ x, x ∈ cs → Dom.parentNode (w_dom w) x = Some n) →
  Normalize.has_text_child (w_dom w) n = false →
  Normalize.only_child_is_br (w_dom w) n = false →
  Normalize.paragraph_above (size (w_dom w)) (w_dom w) root (Some par) = Ok true →
  (∀ m q, Dom.parentNode (w_dom w) m = Some q → (rank q < rank m)%nat) →
  w_sel w = Some c → caret_ok (w_dom w) c →
  startContainer c ≠ n → endContainer c ≠ n →
  ∃ w',
    Normalize.normalize (3 + fuel) root w [op] = Ok (w', [])
    ∧ Dom.parentNode (w_dom w') n = None
    ∧ Dom.childNodes (w_dom w') par = pre ++ cs
    ∧ (∀ x, x ∈ cs → Dom.parentNode (w_dom w') x = Some par)
    ∧ (∀ m, Dom.kind (w_dom w') m = Dom.kind (w_dom w) m).
Proof.
  intros Hty Htgt Hadd Hp Hparent Hcs Hndn Hppre Hcan Hchildren Hnd Hcpar Htext Hbr Habove
    Hrank Hsel Hok Hsn Hen.
  set (d := w_dom w) in *.
  assert (Hn : n ∉ pre).
  { apply NoDup_app in Hndn as (_ & Hndn & _). intros Hin. apply (Hndn n Hin). by left. }
  assert (Hnp : n ≠ par). { intros ->. specialize (Hrank _ _ Hparent). lia. }
  assert (Hn_cs : n ∉ cs).
  { intros Hin. specialize (Hrank _ _ (Hcpar _ Hin)). lia. }
  set (d1 := Dom.detach d n).
  assert (K1 : ∀ m, Dom.kind d1 m = Dom.kind d m) by (intros; apply kind_detach).
  assert (P1 : ∀ m, Dom.parentNode d1 m = if decide (m = n) then None else Dom.parentNode d m)
    by (intros; apply parentNode_detach).
  assert (C1n : Dom.childNodes d1 n = cs).
  { unfold d1. rewrite childNodes_detach, Hparent. case_decide; [congruence | done]. }
  assert (C1p : Dom.childNodes d1 par = pre).
  { unfold d1. rewrite childNodes_detach, Hparent. case_decide; [|done].
    rewrite Hcs. rewrite (filter_ne_middle n pre []) by (done || apply not_elem_of_nil).
    by rewrite app_nil_r. }
  assert (C1o : ∀ m, m ≠ par → Dom.childNodes d1 m = Dom.childNodes d m).
  { intros m Hm. unfold d1. rewrite childNodes_detach, Hparent.
    case_decide; [congruence | done]. }
  destruct (append_promotes rank par n cs d1) as (d2 & E & K2 & P2 & C2 & V2).
  { unfold Dom.can_have_children. rewrite K1. apply Hcan. }
  { done. }
  { done. }
  { intros x Hx. rewrite P1. case_decide; [congruence|].
    split; [by apply Hcpar|].
    pose proof (Hrank _ _ (Hcpar _ Hx)). pose proof (Hrank _ _ Hparent). lia. }
  { intros m q. rewrite P1. case_decide; [done | apply Hrank]. }
  assert (Hnv : Dom.nodeValue d par = None).
  { unfold Dom.can_have_children, Dom.kind in Hcan. unfold Dom.nodeValue.
    destruct (d !! par) as [x|]; [|done]. simpl in Hcan.
    by destruct (nkind x). }
  assert (V : ∀ m, Dom.nodeValue d2 m = Dom.nodeValue d m).
  { intros m. rewrite V2. apply nodeValue_detach. }
  assert (Hci : Nomalizer.getChildIndex d n = Z.of_nat (length pre)).
  { apply (getChildIndex_middle d par n pre []); [done | done |].
    intros x [Hx| ->%list_elem_of_singleton]%elem_of_app; [by apply Hppre | done]. }
  set (c1 := Nomalizer.shift_after_removal c par (Nomalizer.getChildIndex d n)).
  assert (Hc1s : startContainer c1 ≠ n).
  { unfold c1. by destruct (shift_after_removal_start c par (Nomalizer.getChildIndex d n))
      as [-> _]. }
  assert (Hc1e : endContainer c1 ≠ n).
  { unfold c1. by destruct (shift_after_removal_end c par (Nomalizer.getChildIndex d n))
      as [-> _]. }
  assert (Hlen_other : ∀ m, m ≠ par → m ≠ n → node_length d m = node_length d2 m).
  { intros m Hm1 Hm2. unfold node_length. rewrite V, C2 by done.
    rewrite decide_False by done. by rewrite C1o. }
  assert (Hlen_par : node_length d2 par = Z.of_nat (length pre + length cs)).
  { unfold node_length. rewrite V, Hnv, C2 by done. rewrite decide_True by done.
    by rewrite C1p, length_app. }
  assert (Hok1 : caret_ok d2 c1).
  { unfold c1. apply (shift_after_removal_ok d); [done | | | | |].
    - intros Hm. by rewrite Hlen_other.
    - intros Hm. by rewrite Hlen_other.
    - rewrite Hci. lia.
    - rewrite Hci, Hlen_par. lia.
    - rewrite Hlen_par. unfold node_length. rewrite Hnv, Hcs, length_app. simpl. lia. }
  assert (Hexp :
    Nomalizer.expandChildNodesAndInsertOperation d (Some c) [op] 0 0
    = Ok (d2, Some c1, [], (-1)%Z, (-1)%Z, set_addedNodes [] op)).
  { unfold Nomalizer.expandChildNodesAndInsertOperation.
    rewrite lookupZ_head, Hadd, lookupZ_head.
    unfold Nomalizer.cancelInsertOperation. rewrite lookupZ_head, Hadd.
    cbn [splice_start Z.ltb Z.compare length delete list_delete Z.min Z.of_nat Z.to_nat
         Nat.eqb mbind result_bind insert list_insert].
    rewrite Htgt. rewrite removeChild_Ok by done. cbn [mbind result_bind].
    fold d1. rewrite C1n. cbn [fmap option_fmap option_map]. fold c1.
    destruct cs as [|c0 cs'].
    - simpl in E. injection E as <-. done.
    - unfold Nomalizer.replaceOperation. cbn [length Z.of_nat Z.add Z.eqb mbind result_bind].
      unfold Nomalizer.moveNodeList. cbn [Nomalizer.items]. rewrite C1n.
      rewrite (nextSibling_middle d n par pre []) by done. cbn [head].
      rewrite E. cbn [mbind result_bind fmap option_fmap option_map].
      rewrite P1, decide_False by (intros ->; apply Hn_cs; by left).
      rewrite (Hcpar c0) by by left.
      by rewrite move_caret_some_other. }
  eexists. split.
  - unfold Normalize.normalize, getCaret. rewrite Hsel.
    change (3 + fuel)%nat with (S (S (S fuel))).
    rewrite (outer_loop_step _ _ _ _ _ 0%Z op) by done.
    rewrite inner_loop_step by (simpl; rewrite Hadd; done).
    assert (Hv : Normalize.visit root
              {| Normalize.ls_world := w; Normalize.ls_range := Some c;
                 Normalize.ls_records := [op]; Normalize.ls_i := 0;
                 Normalize.ls_j := 0; Normalize.ls_op := op |}
            = Ok {| Normalize.ls_world := with_dom w d2;
                    Normalize.ls_range := Some c1;
                    Normalize.ls_records := [];
                    Normalize.ls_i := -1; Normalize.ls_j := -1;
                    Normalize.ls_op := set_addedNodes [] op |}).
    { unfold Normalize.visit. ls_simpl. rewrite Hadd, lookupZ_head.
      fold d. rewrite Htgt, Hparent, bool_decide_eq_true_2 by done. cbn [negb].
      rewrite (is_tag_not_text _ _ _ Hp). cbn [andb].
      rewrite Htext, Hbr, (is_tag_p_not_br _ _ Hp), Hp. cbn [andb].
      rewrite Habove. cbn [mbind result_bind]. rewrite Hexp. done. }
    rewrite Hv. ls_simpl.
    rewrite inner_loop_done by done. ls_simpl.
    rewrite outer_loop_done by done. ls_simpl.
    rewrite updateCaret_ok by done. ls_simpl. reflexivity.
  - ls_simpl. rewrite P2, C2 by done.
    repeat case_decide; try done.
    split; [by rewrite P1; case_decide|].
    split; [by rewrite C1p|].
    split.
    + intros x Hx. rewrite P2. by case_decide.
    + intros m. by rewrite K2, K1.
Qed.

(** ** Checking the side conditions on explicit trees *)

Lemma forallb_map_to_list (d : gmap node_id dom_node) (f : node_id * dom_node → bool) :
  forallb f (map_to_list d) = true → ∀ m x, d !! m = Some x → f (m, x) = true.
Proof.
  intros H m x Hm. rewrite forallb_forall in H. apply H.
  apply list_elem_of_In. by apply elem_of_map_to_list.
Qed.

Lemma unusedb_spec d n : unusedb d n = true → unused d n.
Proof.
  unfold unusedb. intros [H1 H2]%andb_true_iff.
  apply bool_decide_eq_true in H1.
  pose proof (forallb_map_to_list d _ H2) as H.
  split; [done|]. split.
  - intros m Hp. unfold Dom.parentNode in Hp.
    destruct (d !! m) as [x|] eqn:Hx; [|done]. simpl in Hp.
    specialize (H m x Hx). simpl in H. apply andb_true_iff in H as [H _].
    apply negb_true_iff, bool_decide_eq_false in H. done.
  - intros m Hin. unfold Dom.childNodes in Hin.
    destruct (d !! m) as [x|] eqn:Hx; [|by apply elem_of_nil in Hin]. simpl in Hin.
    specialize (H m x Hx). simpl in H. apply andb_true_iff in H as [_ H].
    apply negb_true_iff, bool_decide_eq_false in H. done.
Qed.

Lemma leafb_spec d n : leafb d n = true → leaf d n.
Proof.
  unfold leafb. intros [H1 H2]%andb_true_iff.
  apply bool_decide_eq_true in H1.
  pose proof (forallb_map_to_list d _ H2) as H.
  split; [done|].
  intros m Hp. unfold Dom.parentNode in Hp.
  destruct (d !! m) as [x|] eqn:Hx; [|done]. simpl in Hp.
  specialize (H m x Hx). simpl in H.
  apply negb_true_iff, bool_decide_eq_false in H. done.
Qed.

Lemma rankedb_spec rank d :
  rankedb rank d = true →
  ∀ m q, Dom.parentNode d m = Some q → (rank q < rank m)%nat.
Proof.
  unfold rankedb. intros H2 m q Hp.
  pose proof (forallb_map_to_list d _ H2) as H.
  unfold Dom.parentNode in Hp.
  destruct (d !! m) as [x|] eqn:Hx; [|done]. simpl in Hp.
  specialize (H m x Hx). simpl in H. rewrite Hp in H.
  by apply Nat.ltb_lt.
Qed.

Lemma children_of_b_spec d n cs :
  children_of_b d n cs = true → ∀ x, x ∈ cs → Dom.parentNode d x = Some n.
Proof.
  unfold children_of_b. rewrite forallb_forall. intros H x Hx.
  apply list_elem_of_In in Hx. apply H in Hx. by apply bool_decide_eq_true in Hx.
Qed.

(** ** The scenarios of the specification *)

(** C4, as stated, fails on the scenario: the log keeps the record that
    targets the root. *)
Lemma bare_text_log_keeps_root_record :
  ∃ w' rs',
    Normalize.normalize 10 0%nat w_bare_text [ins_record 0%nat [1%nat] None None]
    = Ok (w', rs')
    ∧ ¬ single_paragraph_record (w_dom w') 0%nat 1%nat rs'.
Proof.
  eexists _, _. split; [vm_compute; reflexivity|].
  intros (r & Hf & _). vm_compute in Hf. discriminate Hf.
Qed.

Lemma bare_text_under_root_witness :
  ∃ w',
    Normalize.normalize 4 0%nat w_bare_text [ins_record 0%nat [1%nat] None None]
    = Ok (w', [set_addedNodes [2%nat] (ins_record 0%nat [1%nat] None None);
               ins_record 2%nat [1%nat] None None])
    ∧ Nomalizer.is_tag (w_dom w') 2%nat "p" = true
    ∧ Dom.parentNode (w_dom w') 2%nat = Some 0%nat
    ∧ Dom.childNodes (w_dom w') 0%nat = [] ++ 2%nat :: []
    ∧ Dom.childNodes (w_dom w') 2%nat = [1%nat]
    ∧ Dom.parentNode (w_dom w') 1%nat = Some 2%nat.
Proof.
  apply (bare_text_under_root_yields_two_records w_bare_text 0%nat 1%nat
           (ins_record 0%nat [1%nat] None None) [] [] (caret_at 1%nat 2) 0);
    try reflexivity.
  - apply NoDup_singleton.
  - apply leafb_spec. vm_compute. reflexivity.
  - apply unusedb_spec. vm_compute. reflexivity.
  - split; reflexivity.
Defined.

(** C5, as stated, fails on its own scenario: a line break inserted as the
    only child of an empty paragraph stays alone. *)
Lemma lone_line_break_stays_alone :
  ∃ w' rs',
    Normalize.normalize 10 0%nat w_lone_br [ins_record 1%nat [2%nat] None None]
    = Ok (w', rs')
    ∧ Dom.childNodes (w_dom w') 1%nat = [2%nat]
    ∧ line_breaks (w_dom w') 1%nat ≠ 2%nat.
Proof.
  eexists _, _. split; [vm_compute; reflexivity|].
  split; [reflexivity|]. vm_compute. discriminate.
Qed.

Lemma trailing_line_break_witness :
  (∃ w',
     Normalize.normalize 4 0%nat w_text_br [ins_record 1%nat [2%nat] (Some 3%nat) None]
     = Ok (w', [ins_record 1%nat [2%nat] (Some 3%nat) None;
                ins_record 1%nat [4%nat] (Some 3%nat) (Some 2%nat)])
     ∧ Nomalizer.is_tag (w_dom w') 4%nat "br" = true
     ∧ Dom.parentNode (w_dom w') 4%nat = Some 1%nat
     ∧ Dom.childNodes (w_dom w') 1%nat = [] ++ [3%nat; 4%nat; 2%nat])
  ∧ Normalize.normalize 4 0%nat w_lone_br [ins_record 1%nat [2%nat] None None]
    = Ok (w_lone_br, [ins_record 1%nat [2%nat] None None]).
Proof.
  split.
  - apply (proj1 (trailing_line_break_rule w_text_br 0%nat 1%nat 2%nat
                    (ins_record 1%nat [2%nat] (Some 3%nat) None) (caret_at 1%nat 2)
                    eq_refl eq_refl eq_refl ltac:(discriminate) eq_refl eq_refl eq_refl
                    eq_refl (conj eq_refl eq_refl) 0
                    (unusedb_spec (w_dom w_text_br) 4%nat eq_refl)) [] 3%nat);
      try reflexivity.
    vm_compute. intros H. repeat (apply elem_of_cons in H as [H|H]; [discriminate|]).
    by apply elem_of_nil in H.
  - apply (proj2 (trailing_line_break_rule w_lone_br 0%nat 1%nat 2%nat
                    (ins_record 1%nat [2%nat] None None) (caret_at 1%nat 1)
                    eq_refl eq_refl eq_refl ltac:(discriminate) eq_refl eq_refl eq_refl
                    eq_refl (conj eq_refl eq_refl) 0
                    (unusedb_spec (w_dom w_lone_br) 3%nat eq_refl))).
    reflexivity.
Defined.

Lemma paragraph_with_text_witness :
  Normalize.normalize 3 0%nat w_nested_text [ins_record 1%nat [2%nat] None None]
  = Ok (w_nested_text, [ins_record 1%nat [2%nat] None None])
  ∧ nested_paragraphs (w_dom w_nested_text).
Proof.
  apply (paragraph_with_text_stays_nested w_nested_text 0%nat 1%nat 2%nat
           (ins_record 1%nat [2%nat] None None) (caret_at 3%nat 1) 0);
    try reflexivity; try discriminate.
  split; reflexivity.
Defined.

Lemma nested_paragraph_witness :
  ∃ w',
    Normalize.normalize 3 0%nat w_nested_spans [ins_record 1%nat [2%nat] (Some 5%nat) None]
    = Ok (w', [])
    ∧ Dom.parentNode (w_dom w') 2%nat = None
    ∧ Dom.childNodes (w_dom w') 1%nat = [5%nat] ++ [3%nat; 4%nat]
    ∧ (∀ x, x ∈ [3%nat; 4%nat] → Dom.parentNode (w_dom w') x = Some 1%nat)
    ∧ (∀ m, Dom.kind (w_dom w') m = Dom.kind (w_dom w_nested_spans) m).
Proof.
  apply (nested_paragraph_is_unwrapped w_nested_spans 0%nat 1%nat 2%nat
           (ins_record 1%nat [2%nat] (Some 5%nat) None) (caret_at 1%nat 1)
           [5%nat] [3%nat; 4%nat] depth_rank 0);
    try reflexivity; try discriminate.
  - apply NoDup_cons. split; [|apply NoDup_singleton].
    intros H. apply elem_of_cons in H as [H|H]; [discriminate|]. by apply elem_of_nil in H.
  - intros x ->%list_elem_of_singleton. reflexivity.
  - apply NoDup_cons. split.
    + intros H. apply elem_of_cons in H as [H|H]; [discriminate|]. by apply elem_of_nil in H.
    + apply NoDup_singleton.
  - apply children_of_b_spec. reflexivity.
  - apply rankedb_spec. vm_compute. reflexivity.
  - split; reflexivity.
Defined.

(** When the nesting rule does fire while the caret sits in the inserted
    paragraph behind its children, the caret is left pointing into the
    emptied paragraph and the final [updateCaret(range)] raises. *)
Lemma unwrapped_paragraph_strands_caret :
  Normalize.normalize 10 0%nat w_nested_caret_inside
    [ins_record 1%nat [2%nat] (Some 5%nat) None]
  = Throw IndexSizeError.
Proof. vm_compute. reflexivity. Qed.

(** A paragraph among the promoted children is not visited again: it ends
    up directly below the outer paragraph. *)
Lemma promoted_paragraph_stays_nested :
  ∃ w',
    Normalize.normalize 10 0%nat w_nested_three [ins_record 1%nat [2%nat] None None]
    = Ok (w', [])
    ∧ Dom.childNodes (w_dom w') 1%nat = [3%nat]
    ∧ nested_paragraphs (w_dom w').
Proof.
  eexists. split; [vm_compute; reflexivity|]. split; [reflexivity|].
  exists 3%nat, 1%nat. repeat split; reflexivity.
Qed.

(** With a following sibling the children are moved while the live child
    list is being iterated, and every other child is left behind in the
    removed paragraph. *)
Lemma live_child_list_skips_children :
  ∃ w',
    Normalize.normalize 10 0%nat w_nested_spans_mid
      [ins_record 1%nat [2%nat] None (Some 5%nat)]
    = Ok (w', [])
    ∧ Dom.childNodes (w_dom w') 1%nat = [3%nat; 5%nat]
    ∧ Dom.childNodes (w_dom w') 2%nat = [4%nat]
    ∧ Dom.parentNode (w_dom w') 2%nat = None.
Proof. eexists. split; [vm_compute; reflexivity|]. repeat split; reflexivity. Qed.

(** ** Operations that raise *)

(** C9 (failing input). With no selection in the page, [normalize] on an
    empty batch does not return: the final [updateCaret(range)] reads a
    property of [null] and a TypeError is thrown. *)
Theorem normalize_without_selection_throws :
  Normalize.normalize 1 0%nat w_no_selection [] = Throw TypeError.
Proof. reflexivity. Qed.

(** The no-ops of section 7 that do hold. *)
Lemma push_without_capacity s w rs mode :
  (bufferSize s ≤ 0)%Z → UndoBuffer.push s w rs mode = Ok s.
Proof.
  intros H. unfold UndoBuffer.push. by destruct (Z.leb_spec (bufferSize s) 0); [|lia].
Qed.

Lemma undo_at_boundary s w :
  UndoBuffer.existBuffer s (lastPos s) = false → UndoBuffer.undo s w = Ok (s, w).
Proof.
  intros H. unfold UndoBuffer.undo. fold (lastPos s). rewrite H.
  by destruct (bufferSize s =? 0)%Z.
Qed.

Lemma redo_at_boundary s w :
  UndoBuffer.existBuffer s (pos s) = false → UndoBuffer.redo s w = Ok (s, w).
Proof. intros H. unfold UndoBuffer.redo. by rewrite H. Qed.

Lemma normalize_nothing_to_do fuel root w c :
  w_sel w = Some c → caret_ok (w_dom w) c →
  Normalize.normalize (S fuel) root w [] = Ok (w, []).
Proof.
  intros H Hok. unfold Normalize.normalize, getCaret. rewrite H.
  rewrite outer_loop_done by done. ls_simpl.
  by rewrite updateCaret_same.
Qed.

(** ** Ring-buffer scenarios *)

Lemma ring3_two_reachable : reachable ring3_two.
Proof.
  apply (reach_push
           (UndoBuffer.push_new (UndoBuffer.init 0%nat 3 (caret_at 0%nat 0)) w_bare_text [])
           w_bare_text [] false); [|reflexivity].
  apply (reach_push (UndoBuffer.init 0%nat 3 (caret_at 0%nat 0)) w_bare_text [] false);
    [apply reach_init | reflexivity].
Qed.

Lemma existBuffer_window_witness :
  (offset ring3_two = endPos ring3_two → UndoBuffer.existBuffer ring3_two 1 = false)
  ∧ (offset ring3_two ≠ endPos ring3_two →
     (UndoBuffer.existBuffer ring3_two 1 = true ↔ in_window ring3_two 1))
  ∧ ((offset ring3_two < endPos ring3_two)%Z →
     (UndoBuffer.existBuffer ring3_two 1 = true
      ↔ (offset ring3_two ≤ 1 < endPos ring3_two)%Z))
  ∧ ((endPos ring3_two < offset ring3_two)%Z →
     (UndoBuffer.existBuffer ring3_two 1 = true
      ↔ (offset ring3_two ≤ 1 ∨ 1 < endPos ring3_two)%Z)).
Proof. apply (existBuffer_circular_window ring3_two 1). simpl. lia. Defined.

Lemma push_append_witness :
  ∃ p s',
    buffer ring3_two !! Z.to_nat (lastPos ring3_two) = Some (Piece p)
    ∧ UndoBuffer.push ring3_two w_lone_br [ins_record 1%nat [2%nat] None None] true = Ok s'
    ∧ buffer s' !! Z.to_nat (lastPos ring3_two)
      = Some (Piece {| records := records p ++ [ins_record 1%nat [2%nat] None None];
                       oldRange := oldRange p; newRange := newRange p |})
    ∧ offset s' = offset ring3_two ∧ pos s' = pos ring3_two
    ∧ endPos s' = endPos ring3_two
    ∧ bufferSize s' = bufferSize ring3_two
    ∧ length (buffer s') = length (buffer ring3_two)
    ∧ (∀ k : nat, k ≠ Z.to_nat (lastPos ring3_two) → buffer s' !! k = buffer ring3_two !! k)
    ∧ tempBuffer s' = tempBuffer ring3_two ∧ range s' = range ring3_two.
Proof.
  apply (push_append_only_extends_last_piece ring3_two w_lone_br
           [ins_record 1%nat [2%nat] None None]).
  - exact ring3_two_reachable.
  - reflexivity.
Defined.

Lemma push_after_undo_witness :
  (∀ i, redo_available ring3_undone i →
        (i = pos ring3_undone
         ∧ buffer ring3_branch !! Z.to_nat i
           = Some (Piece {| records := [ins_record 1%nat [2%nat] None None];
                            oldRange := range ring3_undone;
                            newRange := getCaret w_lone_br |}))
        ∨ (buffer ring3_branch !! Z.to_nat i = Some Cleared
           ∧ UndoBuffer.existBuffer ring3_branch i = false))
  ∧ (∀ k : nat, (k < length (buffer ring3_branch))%nat → k ≠ Z.to_nat (pos ring3_undone) →
        UndoBuffer.existBuffer ring3_branch (Z.of_nat k) = false →
        buffer ring3_branch !! k = Some Cleared)
  ∧ ((1 < bufferSize ring3_undone)%Z →
     UndoBuffer.existBuffer ring3_branch (pos ring3_undone) = true)
  ∧ (∀ w', UndoBuffer.redo ring3_branch w' = Ok (ring3_branch, w')).
Proof.
  apply (push_after_undo_discards_redo ring3_two ring3_undone ring3_branch
           w_bare_text w_after_undo w_lone_br 1
           [ins_record 1%nat [2%nat] None None]).
  - exact ring3_two_reachable.
  - reflexivity.
  - reflexivity.
Defined.

(** In that scenario slot 1 held a batch available for redo and is cleared
    by the push. *)
Lemma branch_scenario_clears_slot :
  redo_available ring3_undone 1 ∧ buffer ring3_branch !! 1%nat = Some Cleared.
Proof.
  split; [|reflexivity].
  exists 1%Z. split; [lia|]. split; [reflexivity|]. split; [reflexivity|].
  intros e He. assert (e = 0 ∨ e = 1)%Z as [->| ->] by lia; reflexivity.
Qed.

(** ** The round trip of undo and redo *)

Lemma reversible_length d0 bs undone : reversible d0 bs undone → length undone = length bs.
Proof.
  revert d0 undone. induction bs as [|b bs IH]; intros d0 [|u undone] H; simpl in *;
    try done.
  destruct H as (_ & _ & _ & H). f_equal. eauto.
Qed.

Lemma tree_at_cons d0 b0 bs j :
  (j ≤ length bs)%nat →
  tree_at d0 (b0 :: bs) (S j) = tree_at (w_dom (b_world b0)) bs j.
Proof.
  intros Hj. unfold tree_at. destruct j as [|j]; simpl; [done|].
  destruct (lookup_lt_is_Some_2 bs j ltac:(lia)) as [b ->]. done.
Qed.

Lemma reversible_lookup bs : ∀ d0 undone j b,
  reversible d0 bs undone → bs !! j = Some b →
  ∃ u, undone !! j = Some u
       ∧ UndoBuffer.undo_records (w_dom (b_world b)) (b_records b)
         = Ok (tree_at d0 bs j, u)
       ∧ UndoBuffer.redo_records (tree_at d0 bs j) u = Ok (w_dom (b_world b))
       ∧ is_Some (w_sel (b_world b)).
Proof.
  induction bs as [|b0 bs IH]; intros d0 [|u0 undone] j b H Hj; simpl in *; try done.
  destruct H as (Hu & Hr & Hs & H).
  destruct j as [|j]; simpl in *.
  - injection Hj as <-. eauto.
  - destruct (IH _ _ _ _ H Hj) as (u & Hlu & Hu' & Hr' & Hs').
    exists u. split; [done|].
    rewrite tree_at_cons by (apply lookup_lt_Some in Hj; lia). done.
Qed.

Lemma selections_lookup bs : ∀ d0 j b,
  selections_inside d0 bs → bs !! j = Some b →
  caret_ok (tree_at d0 bs j) (b_range b)
  ∧ ∃ c, w_sel (b_world b) = Some c ∧ caret_ok (w_dom (b_world b)) c.
Proof.
  induction bs as [|b0 bs IH]; intros d0 j b H Hj; simpl in *; try done.
  destruct H as (H0 & Hc & H).
  destruct j as [|j]; simpl in *.
  - injection Hj as <-. done.
  - rewrite tree_at_cons by (apply lookup_lt_Some in Hj; lia). by apply IH.
Qed.

Lemma clear_range_empty lo hi b : (hi ≤ lo)%Z → UndoBuffer.clear_range lo hi b = b.
Proof.
  intros H. unfold UndoBuffer.clear_range. by replace (Z.to_nat (hi - lo)) with O by lia.
Qed.

Lemma push_all_walking (C : Z) (bs : list batch) : ∀ pre s,
  (Z.of_nat (length (pre ++ bs)) < C)%Z →
  walking C pre (fun _ b => b_records b) (length pre) s →
  ∃ s', push_all s bs = Ok s'
        ∧ walking C (pre ++ bs) (fun _ b => b_records b) (length (pre ++ bs)) s'.
Proof.
  induction bs as [|b bs IH]; intros pre s Hlen Hw.
  - exists s. rewrite app_nil_r. done.
  - destruct Hw as (HC & Ho & He & Hp & Hl & Hb).
    rewrite length_app in Hlen. simpl in Hlen.
    simpl. unfold UndoBuffer.push. cbn [bufferSize with_capture].
    destruct (Z.leb_spec (bufferSize s) 0) as [|_]; [lia|]. cbn [mbind result_bind].
    replace (pre ++ b :: bs) with ((pre ++ [b]) ++ bs) by (by rewrite <- app_assoc).
    apply IH.
    { rewrite !length_app. simpl. lia. }
    unfold walking, UndoBuffer.push_new.
    cbn [bufferSize offset pos endPos buffer range with_ring with_capture].
    rewrite Hp, Hl, Ho, HC.
    destruct (Z.ltb_spec (Z.of_nat (length pre)) (Z.of_nat (length pre))) as [|_]; [lia|].
    rewrite (rem_succ C (Z.of_nat (length pre))) by lia.
    destruct (Z.eqb_spec (Z.of_nat (length pre) + 1) C) as [|_]; [lia|].
    destruct (Z.eqb_spec (Z.of_nat (length pre) + 1) 0) as [|_]; [lia|].
    destruct (Z.ltb_spec 0 (Z.of_nat (length pre) + 1)) as [_|]; [|lia].
    rewrite !clear_range_empty by (rewrite ?length_app; simpl; lia).
    rewrite !length_app. simpl.
    split; [done|]. split; [done|]. split; [lia|]. split; [lia|].
    split; [lia|].
    intros j b' Hj.
    destruct (decide (j < length pre)%nat) as [Hlt|Hge].
    + rewrite lookup_app_l in Hj by done. rewrite lookup_app_l by lia. by apply Hb.
    + rewrite lookup_app_r in Hj by lia. rewrite lookup_app_r by lia.
      rewrite Hl. destruct (j - length pre)%nat; simpl in *; [|done].
      injection Hj as <-. done.
Qed.

Lemma undo_step (C : Z) (bs : list batch) (undone : list (list record))
    (d0 : gmap node_id dom_node) (k : nat) (s : ubuf) (w : world) :
  (Z.of_nat (length bs) < C)%Z →
  reversible d0 bs undone →
  selections_inside d0 bs →
  (S k ≤ length bs)%nat →
  walking C bs (fun j b => if (j <? S k)%nat then b_records b
                              else default [] (undone !! j)) (S k) s →
  w_dom w = tree_at d0 bs (S k) →
  ∃ s' w',
    UndoBuffer.undo s w = Ok (s', w')
    ∧ walking C bs (fun j b => if (j <? k)%nat then b_records b
                                  else default [] (undone !! j)) k s'
    ∧ w_dom w' = tree_at d0 bs k.
Proof.
  intros Hlen Hrev Hsels Hk (HC & Ho & He & Hp & Hl & Hb) Hw.
  destruct (lookup_lt_is_Some_2 bs k ltac:(lia)) as [b Hbk].
  destruct (reversible_lookup _ _ _ _ _ Hrev Hbk) as (u & Hu & Hundo & _ & _).
  destruct (selections_lookup _ _ _ _ Hsels Hbk) as [Hok0 _].
  pose proof (Hb k b Hbk) as Hslot.
  destruct (Nat.ltb_spec k (S k)) as [_|]; [|lia].
  unfold UndoBuffer.undo.
  destruct (Z.eqb_spec (bufferSize s) 0) as [|_]; [lia|].
  fold (lastPos s). rewrite lastPos_eq by lia. rewrite Hp.
  destruct (Z.eqb_spec (Z.of_nat (S k)) 0) as [|_]; [lia|].
  replace (Z.of_nat (S k) - 1)%Z with (Z.of_nat k) by lia.
  assert (Hex : UndoBuffer.existBuffer s (Z.of_nat k) = true).
  { apply existBuffer_true. lia. }
  rewrite Hex. unfold UndoBuffer.slot_piece. rewrite lookupZ_nat, Hslot.
  cbn [piece_of mbind result_bind records oldRange newRange].
  unfold tree_at in Hw. rewrite Hbk in Hw. simpl in Hw. rewrite Hw, Hundo.
  cbn [mbind result_bind]. rewrite updateCaret_ok by done.
  cbn [mbind result_bind]. eexists _, _. split; [reflexivity|].
  split; [|done].
  unfold walking. cbn [bufferSize offset pos endPos buffer range with_ring with_observing].
  rewrite Nat2Z.id, length_insert.
  split; [done|]. split; [done|]. split; [done|]. split; [done|].
  split; [done|].
  intros j b' Hj.
  destruct (decide (j = k)) as [->|Hne].
  - rewrite list_lookup_insert_eq by lia.
    destruct (Nat.ltb_spec k k) as [|_]; [lia|].
    rewrite Hu. simpl. simplify_eq. done.
  - rewrite list_lookup_insert_ne by done. rewrite (Hb j b' Hj).
    destruct (Nat.ltb_spec j (S k)), (Nat.ltb_spec j k); try lia; done.
Qed.

Lemma undo_phase (C : Z) (bs : list batch) (undone : list (list record))
    (d0 : gmap node_id dom_node) :
  (Z.of_nat (length bs) < C)%Z →
  reversible d0 bs undone →
  selections_inside d0 bs →
  ∀ (k : nat) (s : ubuf) (w : world),
    (k ≤ length bs)%nat →
    walking C bs (fun j b => if (j <? k)%nat then b_records b
                                else default [] (undone !! j)) k s →
    w_dom w = tree_at d0 bs k →
    ∃ s' w',
      undo_n k s w = Ok (s', w')
      ∧ walking C bs (fun j b => default [] (undone !! j)) 0 s'
      ∧ w_dom w' = d0.
Proof.
  intros Hlen Hrev Hsels. induction k as [|k IH]; intros s w Hk Hw Hd.
  - exists s, w. split; [done|]. split; [|done].
    destruct Hw as (? & ? & ? & ? & ? & Hb).
    split; [done|]. split; [done|]. split; [done|]. split; [done|].
    split; [done|].
    intros j b Hj. by rewrite (Hb j b Hj).
  - destruct (undo_step C bs undone d0 k s w Hlen Hrev Hsels Hk Hw Hd)
      as (s1 & w1 & E & Hw1 & Hd1).
    destruct (IH s1 w1 ltac:(lia) Hw1 Hd1) as (s' & w' & E' & Hw' & Hd').
    exists s', w'. split; [|done]. simpl. rewrite E. done.
Qed.

Lemma redo_phase (C : Z) (bs : list batch) (undone : list (list record))
    (d0 : gmap node_id dom_node) :
  (Z.of_nat (length bs) < C)%Z →
  reversible d0 bs undone →
  selections_inside d0 bs →
  ∀ (m k : nat) (s : ubuf) (w : world),
    (k + m ≤ length bs)%nat →
    walking C bs (fun j b => default [] (undone !! j)) k s →
    w_dom w = tree_at d0 bs k →
    ∃ s' w',
      redo_n m s w = Ok (s', w')
      ∧ walking C bs (fun j b => default [] (undone !! j)) (k + m) s'
      ∧ w_dom w' = tree_at d0 bs (k + m).
Proof.
  intros Hlen Hrev Hsels. induction m as [|m IH]; intros k s w Hk Hw Hd.
  - exists s, w. rewrite Nat.add_0_r. done.
  - destruct Hw as (HC & Ho & He & Hp & Hl & Hb).
    destruct (lookup_lt_is_Some_2 bs k ltac:(lia)) as [b Hbk].
    destruct (reversible_lookup _ _ _ _ _ Hrev Hbk) as (u & Hu & _ & Hredo & _).
    destruct (selections_lookup _ _ _ _ Hsels Hbk) as (_ & cr & Hsel & Hokr).
    pose proof (Hb k b Hbk) as Hslot. rewrite Hu in Hslot. simpl in Hslot.
    assert (Hex : UndoBuffer.existBuffer s (pos s) = true).
    { apply existBuffer_true. lia. }
    simpl. unfold UndoBuffer.redo. rewrite Hex.
    unfold UndoBuffer.slot_piece. rewrite Hp, lookupZ_nat, Hslot.
    cbn [piece_of mbind result_bind records oldRange newRange].
    rewrite Hd, Hredo. cbn [mbind result_bind]. rewrite Hsel.
    rewrite updateCaret_ok by done. cbn [mbind result_bind].
    replace (k + S m)%nat with (S k + m)%nat by lia.
    apply IH; [lia| |].
    + unfold walking.
      cbn [bufferSize offset pos endPos buffer range with_ring with_observing].
      rewrite HC, (rem_succ C (Z.of_nat k)) by lia.
      destruct (Z.eqb_spec (Z.of_nat k + 1) C) as [|_]; [lia|].
      split; [done|]. split; [done|]. split; [done|]. split; [lia|]. done.
    + unfold tree_at. rewrite Hbk. done.
Qed.



Lemma set_data_same x : set_data (ndata x) x = x.
Proof. by destruct x. Qed.

Lemma set_data_twice a b x : set_data a (set_data b x) = set_data a x.
Proof. done. Qed.

(** The record of a text change replays reversibly. *)
Lemma text_edit_is_reversible d n v old :
  Dom.nodeValue d n = Some old →
  ∃ d',
    apply_edit d (SetData n v) = Ok (d', [text_record n (Some old) None])
    ∧ Dom.nodeValue d' n = Some v
    ∧ UndoBuffer.undo_records d' [text_record n (Some old) None]
      = Ok (d, [text_record n (Some old) (Some v)])
    ∧ UndoBuffer.redo_records d [text_record n (Some old) (Some v)] = Ok d'.
Proof.
  intros Hv. unfold apply_edit. rewrite Hv. eexists. split; [reflexivity|].
  unfold Dom.nodeValue, Dom.set_nodeValue in *.
  destruct (d !! n) as [x|] eqn:Hx; [|done].
  destruct (Dom.is_character_data (nkind x)) eqn:Hk; [|done].
  injection Hv as <-.
  split; [|split].
  - rewrite lookup_insert_eq. simpl. by rewrite Hk.
  - simpl. unfold UndoBuffer.undo_op. simpl.
    unfold Dom.nodeValue, Dom.set_nodeValue. rewrite lookup_insert_eq. simpl. rewrite Hk.
    rewrite insert_insert_eq. cbn [default from_option].
    replace (set_data (ndata x) (set_data v x)) with x by (by destruct x).
    rewrite insert_id by done. done.
  - simpl. unfold UndoBuffer.redo_op. simpl.
    unfold Dom.set_nodeValue. rewrite Hx, Hk. done.
Qed.



(** The reverse replay of a record that removed several nodes puts them
    back in the opposite order. *)
Lemma undo_reverses_removed_nodes :
  ∃ d rs',
    UndoBuffer.undo_records
      (list_to_map
         [(0%nat, mk_node (ElementNode "DIV") "" None []);
          (1%nat, mk_node (ElementNode "BR") "" None []);
          (2%nat, mk_node (ElementNode "BR") "" None [])])
      [{| type := childList; target := 0%nat; addedNodes := [];
          removedNodes := [1%nat; 2%nat]; previousSibling := None; nextSibling := None;
          attributeName := None; attributeNamespace := None; oldValue := None;
          newValue := None |}]
    = Ok (d, rs')
    ∧ Dom.childNodes d 0%nat = [2%nat; 1%nat].
Proof. eexists _, _. split; [vm_compute; reflexivity | reflexivity]. Qed.

(** ** How many batches the ring holds *)

Lemma reachable_ring_inv s : reachable s → (0 < bufferSize s)%Z → ring_inv s.
Proof.
  intros Hr Hc. apply reachable_ring_ok in Hr. unfold ring_ok in Hr.
  destruct (Z.leb_spec (bufferSize s) 0); [lia | done].
Qed.

Lemma ring_inv_undo_available s :
  ring_inv s → (UndoBuffer.existBuffer s (lastPos s) = true ↔ pos s ≠ offset s).
Proof.
  intros [Ho Hp He _ [Hw1 Hw2] _].
  rewrite existBuffer_true, lastPos_eq by done.
  destruct (Z.eqb_spec (pos s) 0); lia.
Qed.

Lemma ring_inv_redo_available s :
  ring_inv s → (UndoBuffer.existBuffer s (pos s) = true ↔ pos s ≠ endPos s).
Proof.
  intros [Ho Hp He _ [Hw1 Hw2] _]. rewrite existBuffer_true. lia.
Qed.

(** X2. In every state the object can reach with a positive size, the three
    cursors stay inside the ring, the array never outgrows the size, and
    every position the validity test accepts holds a piece, so that
    [undo()] and [redo()] never read an empty slot. *)
Theorem reachable_ring_is_well_formed (s : ubuf) :
  reachable s → (0 < bufferSize s)%Z →
  (0 ≤ offset s < bufferSize s)%Z
  ∧ (0 ≤ pos s < bufferSize s)%Z
  ∧ (0 ≤ endPos s < bufferSize s)%Z
  ∧ (Z.of_nat (length (buffer s)) ≤ bufferSize s)%Z
  ∧ ∀ i, UndoBuffer.existBuffer s i = true →
         ∃ p, UndoBuffer.slot_piece (buffer s) i = Ok p.
Proof.
  intros Hr Hc. destruct (reachable_ring_inv s Hr Hc) as [Ho Hp He Hl Hw Hv].
  repeat (split; [lia|]).
  intros i Hi. destruct (Hv i Hi) as [p Hpiece]. exists p.
  apply existBuffer_true in Hi.
  unfold UndoBuffer.slot_piece, lookupZ.
  destruct (Z.ltb_spec i 0); [lia|]. by rewrite Hpiece.
Qed.

Lemma reachable_ring_is_well_formed_witness :
  (0 ≤ offset ring3_two < bufferSize ring3_two)%Z
  ∧ (0 ≤ pos ring3_two < bufferSize ring3_two)%Z
  ∧ (0 ≤ endPos ring3_two < bufferSize ring3_two)%Z
  ∧ (Z.of_nat (length (buffer ring3_two)) ≤ bufferSize ring3_two)%Z
  ∧ ∀ i, UndoBuffer.existBuffer ring3_two i = true →
         ∃ p, UndoBuffer.slot_piece (buffer ring3_two) i = Ok p.
Proof.
  apply (reachable_ring_is_well_formed ring3_two).
  - exact ring3_two_reachable.
  - simpl. lia.
Defined.

(** X3. [undo()] can take effect exactly when [#pos] differs from [#offset]
    and [redo()] exactly when [#pos] differs from [#endPos]; at the two
    boundaries the calls return without changing the object or the page. *)
Theorem undo_redo_availability (s : ubuf) :
  reachable s → (0 < bufferSize s)%Z →
  (UndoBuffer.existBuffer s (lastPos s) = true ↔ pos s ≠ offset s)
  ∧ (UndoBuffer.existBuffer s (pos s) = true ↔ pos s ≠ endPos s)
  ∧ (pos s = offset s → ∀ w, UndoBuffer.undo s w = Ok (s, w))
  ∧ (pos s = endPos s → ∀ w, UndoBuffer.redo s w = Ok (s, w)).
Proof.
  intros Hr Hc. pose proof (reachable_ring_inv s Hr Hc) as Hinv.
  pose proof (ring_inv_undo_available s Hinv) as Hu.
  pose proof (ring_inv_redo_available s Hinv) as Hd.
  split; [done|]. split; [done|]. split.
  - intros Heq w. apply undo_at_boundary.
    destruct (UndoBuffer.existBuffer s (lastPos s)); [|done].
    exfalso. by apply Hu.
  - intros Heq w. by apply redo_at_end_is_noop.
Qed.

Lemma undo_redo_availability_witness :
  (UndoBuffer.existBuffer ring3_two (lastPos ring3_two) = true
   ↔ pos ring3_two ≠ offset ring3_two)
  ∧ (UndoBuffer.existBuffer ring3_two (pos ring3_two) = true
     ↔ pos ring3_two ≠ endPos ring3_two)
  ∧ (pos ring3_two = offset ring3_two → ∀ w, UndoBuffer.undo ring3_two w = Ok (ring3_two, w))
  ∧ (pos ring3_two = endPos ring3_two → ∀ w, UndoBuffer.redo ring3_two w = Ok (ring3_two, w)).
Proof.
  apply (undo_redo_availability ring3_two).
  - exact ring3_two_reachable.
  - simpl. lia.
Defined.

Lemma mod_wrap (C a b : Z) :
  (0 ≤ a < C)%Z → (0 ≤ b < C)%Z →
  ((a - b) `mod` C = if (b <=? a)%Z then a - b else a - b + C)%Z.
Proof.
  intros Ha Hb. destruct (Z.leb_spec b a).
  - apply Z.mod_small. lia.
  - symmetry. apply (Z.mod_unique_pos _ _ (-1)); lia.
Qed.

Lemma push_new_depth s w rs :
  (0 ≤ offset s < bufferSize s)%Z → (0 ≤ pos s < bufferSize s)%Z →
  undo_depth (UndoBuffer.push_new s w rs)
  = Z.min (undo_depth s + 1) (bufferSize s - 1)
  ∧ redo_depth (UndoBuffer.push_new s w rs) = 0%Z.
Proof.
  intros Ho Hp. unfold undo_depth, redo_depth, UndoBuffer.push_new. simpl.
  rewrite Z.sub_diag, Z.mod_0_l by lia. split; [|done].
  rewrite !rem_succ by lia.
  set (C := bufferSize s) in *. set (p := pos s) in *. set (o := offset s) in *.
  rewrite (mod_wrap C p o) by lia.
  destruct (Z.eqb_spec (p + 1) C) as [E1|E1].
  - destruct (Z.eqb_spec 0 o) as [E2|E2].
    + destruct (Z.eqb_spec (o + 1) C) as [E3|E3].
      * rewrite mod_wrap by lia. destruct (Z.leb_spec o p), (Z.leb_spec 0 0); lia.
      * rewrite mod_wrap by lia.
        destruct (Z.leb_spec o p), (Z.leb_spec (o + 1) 0); lia.
    + rewrite mod_wrap by lia. destruct (Z.leb_spec o p), (Z.leb_spec o 0); lia.
  - destruct (Z.eqb_spec (p + 1) o) as [E2|E2].
    + destruct (Z.eqb_spec (o + 1) C) as [E3|E3].
      * rewrite mod_wrap by lia. destruct (Z.leb_spec o p), (Z.leb_spec 0 (p + 1)); lia.
      * rewrite mod_wrap by lia.
        destruct (Z.leb_spec o p), (Z.leb_spec (o + 1) (p + 1)); lia.
    + rewrite mod_wrap by lia. destruct (Z.leb_spec o p), (Z.leb_spec o (p + 1)); lia.
Qed.




(** X5. Each [undo()] that returns lowers the number of batches that can be
    undone by one and raises the number that can be redone by one; at
    depth 0 it changes nothing.  [redo()] does the converse. *)
Theorem undo_redo_move_one_step (s : ubuf) (w : world) :
  reachable s → (0 < bufferSize s)%Z →
  (∀ s' w', UndoBuffer.undo s w = Ok (s', w') →
      if (undo_depth s =? 0)%Z then s' = s ∧ w' = w
      else undo_depth s' = (undo_depth s - 1)%Z
           ∧ redo_depth s' = (redo_depth s + 1)%Z)
  ∧ (∀ s' w', UndoBuffer.redo s w = Ok (s', w') →
      if (redo_depth s =? 0)%Z then s' = s ∧ w' = w
      else redo_depth s' = (redo_depth s - 1)%Z
           ∧ undo_depth s' = (undo_depth s + 1)%Z).
Proof.
  intros Hr Hc. pose proof (reachable_ring_inv s Hr Hc) as Hinv.
  pose proof (ring_inv_undo_available s Hinv) as Hu.
  pose proof (ring_inv_redo_available s Hinv) as Hd.
  destruct Hinv as [Ho Hp He _ [Hw1 Hw2] _].
  assert (Hud : (undo_depth s = if (offset s <=? pos s)%Z then pos s - offset s
                               else pos s - offset s + bufferSize s)%Z)
    by (apply mod_wrap; lia).
  assert (Hrd : (redo_depth s = if (pos s <=? endPos s)%Z then endPos s - pos s
                               else endPos s - pos s + bufferSize s)%Z)
    by (apply mod_wrap; lia).
  split.
  - intros s' w' H. unfold UndoBuffer.undo in H.
    destruct (Z.eqb_spec (bufferSize s) 0); [lia|].
    fold (lastPos s) in H.
    destruct (decide (pos s = offset s)) as [Heq|E].
    2:{ rewrite (proj2 Hu E) in H.
      inv_bind H. destruct (UndoBuffer.undo_records _ _) as [[d' rs']| |] eqn:E2;
        try discriminate. cbn [mbind result_bind] in H. inv_bind H. inversion H; subst s'.
      destruct (Z.eqb_spec (undo_depth s) 0) as [Z0|Z0].
      { exfalso. rewrite Hud in Z0. destruct (Z.leb_spec (offset s) (pos s)); lia. }
      rewrite Hud, Hrd. unfold undo_depth, redo_depth. simpl.
      rewrite lastPos_eq by done.
      destruct (Z.eqb_spec (pos s) 0).
      * rewrite !mod_wrap by lia.
        repeat match goal with |- context [Z.leb ?a ?b] => destruct (Z.leb_spec a b) end;
          lia.
      * rewrite !mod_wrap by lia.
        repeat match goal with |- context [Z.leb ?a ?b] => destruct (Z.leb_spec a b) end;
          lia. }
    assert (E : UndoBuffer.existBuffer s (lastPos s) = false).
    { apply not_true_is_false. intros E. by apply Hu in E. }
    rewrite E in H. inversion H; subst.
    destruct (Z.eqb_spec (undo_depth s') 0) as [Z0|Z0]; [done|].
    exfalso. apply Z0. rewrite Hud, Heq.
    destruct (Z.leb_spec (offset s') (offset s')); lia.
  - intros s' w' H. unfold UndoBuffer.redo in H.
    destruct (decide (pos s = endPos s)) as [Heq|E].
    2:{ rewrite (proj2 Hd E) in H.
      inv_bind H. inv_bind H. inv_bind H. inversion H; subst s'.
      destruct (Z.eqb_spec (redo_depth s) 0) as [Z0|Z0].
      { exfalso. rewrite Hrd in Z0. destruct (Z.leb_spec (pos s) (endPos s)); lia. }
      rewrite Hud, Hrd. unfold undo_depth, redo_depth. simpl.
      rewrite rem_succ by done.
      destruct (Z.eqb_spec (pos s + 1) (bufferSize s)).
      * rewrite !mod_wrap by lia.
        repeat match goal with |- context [Z.leb ?a ?b] => destruct (Z.leb_spec a b) end;
          lia.
      * rewrite !mod_wrap by lia.
        repeat match goal with |- context [Z.leb ?a ?b] => destruct (Z.leb_spec a b) end;
          lia. }
    assert (E : UndoBuffer.existBuffer s (pos s) = false).
    { apply not_true_is_false. intros E. by apply Hd in E. }
    rewrite E in H. inversion H; subst.
    destruct (Z.eqb_spec (redo_depth s') 0) as [Z0|Z0]; [done|].
    exfalso. apply Z0. rewrite Hrd, Heq.
    destruct (Z.leb_spec (endPos s') (endPos s')); lia.
Qed.

Lemma undo_redo_move_one_step_witness :
  (∀ s' w', UndoBuffer.undo ring3_two w_bare_text = Ok (s', w') →
      if (undo_depth ring3_two =? 0)%Z then s' = ring3_two ∧ w' = w_bare_text
      else undo_depth s' = (undo_depth ring3_two - 1)%Z
           ∧ redo_depth s' = (redo_depth ring3_two + 1)%Z)
  ∧ (∀ s' w', UndoBuffer.redo ring3_two w_bare_text = Ok (s', w') →
      if (redo_depth ring3_two =? 0)%Z then s' = ring3_two ∧ w' = w_bare_text
      else redo_depth s' = (redo_depth ring3_two - 1)%Z
           ∧ undo_depth s' = (undo_depth ring3_two + 1)%Z).
Proof.
  apply (undo_redo_move_one_step ring3_two w_bare_text).
  - exact ring3_two_reachable.
  - simpl. lia.
Defined.

(** X6. An object constructed with a size of 0 or less records nothing:
    [push], [undo] and [redo] all return without changing it. *)
Theorem no_capacity_means_no_history (s : ubuf) (w : world) (rs : list record)
    (mode : bool) :
  reachable s → (bufferSize s ≤ 0)%Z →
  UndoBuffer.push s w rs mode = Ok s
  ∧ UndoBuffer.undo s w = Ok (s, w)
  ∧ UndoBuffer.redo s w = Ok (s, w).
Proof.
  intros Hr Hc. pose proof (reachable_ring_ok s Hr) as Hok. unfold ring_ok in Hok.
  destruct (Z.leb_spec (bufferSize s) 0); [|lia].
  destruct Hok as (Ho & Hp & He & Hb).
  split; [by apply push_without_capacity|]. split.
  - apply undo_at_boundary. apply existBuffer_false. lia.
  - apply redo_at_boundary. apply existBuffer_false. lia.
Qed.

Lemma no_capacity_means_no_history_witness :
  UndoBuffer.push (UndoBuffer.init 0%nat 0 (caret_at 0%nat 0)) w_bare_text [] false
  = Ok (UndoBuffer.init 0%nat 0 (caret_at 0%nat 0))
  ∧ UndoBuffer.undo (UndoBuffer.init 0%nat 0 (caret_at 0%nat 0)) w_bare_text
    = Ok (UndoBuffer.init 0%nat 0 (caret_at 0%nat 0), w_bare_text)
  ∧ UndoBuffer.redo (UndoBuffer.init 0%nat 0 (caret_at 0%nat 0)) w_bare_text
    = Ok (UndoBuffer.init 0%nat 0 (caret_at 0%nat 0), w_bare_text).
Proof.
  apply (no_capacity_means_no_history (UndoBuffer.init 0%nat 0 (caret_at 0%nat 0))
           w_bare_text [] false).
  - apply reach_init.
  - simpl. lia.
Defined.

(** ** Replaying text and attribute records *)

Section replay.

Implicit Types d : gmap node_id dom_node.

Lemma alter_alter_id d (f g : dom_node → dom_node) n :
  (∀ x, d !! n = Some x → f (g x) = x) → alter f n (alter g n d) = d.
Proof.
  intros H. apply map_eq. intros m. rewrite !lookup_alter.
  destruct (decide (n = m)) as [<-|]; [|done].
  destruct (decide (n = n)); [|done].
  destruct (d !! n) as [x|] eqn:E; [|done]. simpl. f_equal. by apply H.
Qed.

Lemma set_attrs_same x : set_attrs (nattrs x) x = x.
Proof. by destruct x. Qed.

Lemma set_attrs_twice a b x : set_attrs a (set_attrs b x) = set_attrs a x.
Proof. done. Qed.

Lemma undo_op_then_redo_op d op d' op' :
  is_value_record op = true →
  UndoBuffer.undo_op d op = Ok (d', op') →
  UndoBuffer.redo_op d' op' = Ok d.
Proof.
  unfold is_value_record, is_childList, UndoBuffer.undo_op, UndoBuffer.redo_op.
  destruct (type op) eqn:Ety; [| |done]; intros _ H.
  - (* attributes *)
    inv_bind H. inv_bind H. inversion H; subst d' op'; clear H. simpl. rewrite Ety.
    unfold Dom.getAttribute in Hbind.
    destruct (Dom.is_element d (target op)) eqn:Hel; [|done].
    inversion Hbind; subst a; clear Hbind.
    set (k := record_attr op) in *.
    assert (Hel' : ∀ f, Dom.is_element (alter (λ x, set_attrs (f x) x) (target op) d)
                          (target op) = true).
    { intros f. unfold Dom.is_element in *. by rewrite kind_alter. }
    assert (Ha0 : ∃ f, a0 = alter (λ x, set_attrs (f x) x) (target op) d
                       ∧ ∀ x, f x = match oldValue op with
                                     | None => delete k (nattrs x)
                                     | Some o => <[k := o]> (nattrs x)
                                     end).
    { destruct (oldValue op) as [o|];
        [unfold Dom.setAttribute in Hbind0 | unfold Dom.removeAttribute in Hbind0];
        rewrite Hel in Hbind0; inversion Hbind0; eauto. }
    destruct Ha0 as (f & -> & Hf).
    destruct (d !! target op) as [x|] eqn:Hx; simpl.
    + destruct (nattrs x !! k) as [v|] eqn:Hv.
      * unfold Dom.setAttribute. rewrite Hel'. f_equal.
        apply alter_alter_id. intros y Hy. simplify_eq.
        rewrite set_attrs_twice. cbn [nattrs set_attrs].
        rewrite Hf. destruct (oldValue op).
        -- rewrite insert_insert_eq, insert_id by done. apply set_attrs_same.
        -- rewrite insert_delete_id by done. apply set_attrs_same.
      * unfold Dom.removeAttribute. rewrite Hel'. f_equal.
        apply alter_alter_id. intros y Hy. simplify_eq.
        rewrite set_attrs_twice. cbn [nattrs set_attrs].
        rewrite Hf. destruct (oldValue op).
        -- rewrite delete_insert_id by done. apply set_attrs_same.
        -- rewrite delete_delete_eq, delete_id by done. apply set_attrs_same.
    + unfold Dom.is_element, Dom.kind in Hel. by rewrite Hx in Hel.
  - (* characterData *)
    inversion H; subst d' op'; clear H. simpl. rewrite Ety. f_equal.
    unfold Dom.set_nodeValue, Dom.nodeValue.
    destruct (d !! target op) as [x|] eqn:Hx; [|by rewrite Hx].
    destruct (Dom.is_character_data (nkind x)) eqn:Hk; [|by rewrite Hx, Hk].
    rewrite lookup_insert_eq. simpl. rewrite Hk. simpl.
    rewrite insert_insert_eq. rewrite set_data_twice, set_data_same.
    by apply insert_id.
Qed.

Lemma undo_records_then_redo_records (rs : list record) : ∀ d d' rs',
  forallb is_value_record rs = true →
  UndoBuffer.undo_records d rs = Ok (d', rs') →
  UndoBuffer.redo_records d' rs' = Ok d.
Proof.
  induction rs as [|op rs IH]; intros d d' rs' Hall H; simpl in *.
  - by inversion H.
  - apply andb_true_iff in Hall as [Hop Hall].
    inv_bind H. destruct a as [d1 rest']. cbn [mbind result_bind] in H.
    inv_bind H. destruct a as [d2 op']. inversion H; subst; clear H.
    simpl. rewrite (undo_op_then_redo_op _ _ _ _ Hop Hbind0).
    cbn [mbind result_bind]. by apply IH.
Qed.

End replay.

(** X7. For a batch that holds only text and attribute records, the forward
    replay of [#redo] exactly inverts the reverse replay of [#undo]: when
    [#undo] returns, [#redo] on the records it updated gives back the very
    tree [#undo] started from. *)
Theorem value_records_replay_round_trip (d d' : gmap node_id dom_node)
    (rs rs' : list record) :
  forallb is_value_record rs = true →
  UndoBuffer.undo_records d rs = Ok (d', rs') →
  UndoBuffer.redo_records d' rs' = Ok d.
Proof. apply undo_records_then_redo_records. Qed.

(** ** Replaying structural records *)

Section structural.

Implicit Types d : gmap node_id dom_node.

Implicit Types n m p : node_id.

Lemma set_parent_back x po : nparent x = po → set_parent po (set_parent None x) = x.
Proof. intros <-. by destruct x. Qed.

Lemma head_in (l : list node_id) r : head l = Some r → r ∈ l.
Proof. destruct l; intros [= ->]. by left. Qed.

Lemma detach_detached d n : Dom.parentNode d n = None → Dom.detach d n = d.
Proof. intros H. unfold Dom.detach. by rewrite H. Qed.

Lemma attach_detach_id d p n (pre post : list node_id) :
  Dom.parentNode d n = Some p → Dom.childNodes d p = pre ++ n :: post →
  NoDup (pre ++ n :: post) → n ≠ p →
  Dom.attach (Dom.detach d n) p n (head post) = d.
Proof.
  intros Hpn Hcs Hnd Hnp. unfold Dom.detach. rewrite Hpn.
  apply NoDup_app in Hnd as (Hnd_pre & Hnd_x & Hnd_tp).
  apply NoDup_cons in Hnd_tp as (Hn_post & Hnd_post).
  assert (Hn_pre : n ∉ pre). { intros Hin. apply (Hnd_x n Hin). by left. }
  unfold Dom.attach. apply map_eq. intros m.
  rewrite !lookup_alter.
  unfold Dom.parentNode in Hpn. unfold Dom.childNodes in Hcs.
  destruct (decide (n = m)) as [<-|Hnm].
  - destruct (decide (p = n)); [congruence|].
    destruct (decide (n = n)); [|done].
    destruct (d !! n) as [x|] eqn:Hx; [|done]. simpl in *. f_equal.
    by apply set_parent_back.
  - destruct (decide (p = m)) as [<-|Hpm]; [|done].
    destruct (decide (p = p)); [|done].
    destruct (decide (n = p)); [congruence|].
    destruct (d !! p) as [y|] eqn:Hy; [|done]. simpl in *. f_equal.
    rewrite Hcs, filter_ne_middle by done.
    rewrite place_head.
    + rewrite <- Hcs. by destruct y.
    + apply NoDup_app. split; [done|]. split; [|done].
      intros z Hz Hz'. apply (Hnd_x z Hz). by right.
Qed.

(** A walk of the parent chain that does not meet [n1] is not affected by
    a change of the parent link of [n1]. *)
Lemma ancestor_walk_ext fuel d d1 a n1 : ∀ x,
  (∀ m, m ≠ n1 → Dom.parentNode d1 m = Dom.parentNode d m) →
  Dom.ancestor_walk fuel d n1 x = false →
  Dom.ancestor_walk fuel d1 a x = Dom.ancestor_walk fuel d a x.
Proof.
  induction fuel as [|f IH]; intros x Hsame Hw; simpl in *.
  - done.
  - destruct (decide (a = x)); [done|].
    destruct (decide (n1 = x)) as [->|Hne]; [done|].
    rewrite Hsame by done.
    destruct (Dom.parentNode d x) as [q|]; [|done]. by apply IH.
Qed.

Lemma is_inclusive_ancestor_ext d d1 a n1 x :
  size d1 = size d →
  (∀ m, m ≠ n1 → Dom.parentNode d1 m = Dom.parentNode d m) →
  Dom.is_inclusive_ancestor d n1 x = false →
  Dom.is_inclusive_ancestor d1 a x = Dom.is_inclusive_ancestor d a x.
Proof.
  unfold Dom.is_inclusive_ancestor. intros -> Hs Hw. by apply ancestor_walk_ext with n1.
Qed.

Lemma not_ancestor_ne d a x : Dom.is_inclusive_ancestor d a x = false → a ≠ x.
Proof.
  unfold Dom.is_inclusive_ancestor. intros H ->.
  destruct (size d); simpl in H; by destruct (decide (x = x)).
Qed.

Lemma insertBefore_each_app (l1 l2 : list node_id) : ∀ d p ref,
  UndoBuffer.insertBefore_each d p (l1 ++ l2) ref
  = mbind (λ d1, UndoBuffer.insertBefore_each d1 p l2 ref)
      (UndoBuffer.insertBefore_each d p l1 ref).
Proof.
  induction l1 as [|n l1 IH]; intros d p ref; simpl; [done|].
  destruct (Dom.insertBefore d p n ref); simpl; [apply IH|done|done].
Qed.

(** Nodes without a parent are inserted one after the other before the
    same reference node. *)
Lemma insertBefore_each_detached p (post l : list node_id) : ∀ d pre,
  Dom.can_have_children d p = true →
  Dom.childNodes d p = pre ++ post →
  NoDup (pre ++ post) →
  match head post with Some r => Dom.parentNode d r = Some p | None => True end →
  NoDup l →
  (∀ n, n ∈ l → Dom.parentNode d n = None ∧ is_Some (d !! n) ∧ (n ∉ pre ++ post)
                ∧ Dom.is_inclusive_ancestor d n p = false) →
  ∃ d', UndoBuffer.insertBefore_each d p l (head post) = Ok d'
        ∧ Dom.childNodes d' p = pre ++ l ++ post
        ∧ (∀ m, Dom.parentNode d' m = if decide (m ∈ l) then Some p else Dom.parentNode d m)
        ∧ (∀ m, m ≠ p → Dom.childNodes d' m = Dom.childNodes d m)
        ∧ (∀ m, Dom.kind d' m = Dom.kind d m)
        ∧ (∀ m, Dom.nodeValue d' m = Dom.nodeValue d m)
        ∧ (∀ m, is_Some (d' !! m) ↔ is_Some (d !! m))
        ∧ (∀ a, Dom.is_inclusive_ancestor d' a p = Dom.is_inclusive_ancestor d a p).
Proof.
  induction l as [|n l IH]; intros d pre Hc Hcs Hnd Href Hl Hall.
  - exists d. simpl. split; [done|]. split; [done|]. split; [|done].
    intros m. destruct (decide (m ∈ [])) as [Hin|]; [|done]. by apply elem_of_nil in Hin.
  - apply NoDup_cons in Hl as [Hnl Hl].
    destruct (Hall n) as (Hpn & Hsn & Hfresh & Hanc); [by left|].
    assert (Hnp : n ≠ p) by (by apply not_ancestor_ne in Hanc).
    assert (Hp_some : is_Some (d !! p)) by (by apply can_have_children_is_Some).
    simpl. rewrite insertBefore_Ok; try done.
    2:{ destruct (head post) as [r|] eqn:Hr; [|done]. intros [= ->].
        apply Hfresh. apply elem_of_app. right. by apply head_in. }
    rewrite detach_detached by done. cbn [mbind result_bind].
    set (d1 := Dom.attach d p n (head post)).
    assert (Hpar1 : ∀ m, Dom.parentNode d1 m
                         = if decide (m = n) then Some p else Dom.parentNode d m)
      by (intros m; by apply parentNode_attach).
    assert (Hch1 : ∀ m, Dom.childNodes d1 m
                        = if decide (m = p) then pre ++ n :: post else Dom.childNodes d m).
    { intros m. unfold d1. rewrite childNodes_attach by done.
      destruct (decide (m = p)); [|done]. by rewrite Hcs, place_head. }
    assert (Hanc1 : ∀ a, Dom.is_inclusive_ancestor d1 a p = Dom.is_inclusive_ancestor d a p).
    { intros a. apply is_inclusive_ancestor_ext with n.
      - apply size_attach.
      - intros m Hm. by rewrite Hpar1, decide_False.
      - done. }
    destruct (IH d1 (pre ++ [n])) as (d' & Hins & Hch & Hpar & Hoth & Hk & Hv & Hs & Ha).
    + unfold Dom.can_have_children, d1 in *. by rewrite kind_attach.
    + rewrite Hch1, decide_True by done. by rewrite <- app_assoc.
    + rewrite <- app_assoc. simpl. apply NoDup_app in Hnd as (H1 & H2 & H3).
      apply NoDup_app. split; [done|]. split.
      * intros z Hz Hz'. apply elem_of_cons in Hz' as [->|Hz'].
        -- apply Hfresh. apply elem_of_app. by left.
        -- by apply (H2 z).
      * apply NoDup_cons. split; [|done]. intros Hz. apply Hfresh. apply elem_of_app. by right.
    + destruct (head post) as [r|] eqn:Hr; [|done]. rewrite Hpar1.
      destruct (decide (r = n)); done.
    + done.
    + intros x Hx. destruct (Hall x) as (Hpx & Hsx & Hfx & Hax); [by right|].
      assert (Hxn : x ≠ n) by (intros ->; done).
      split; [by rewrite Hpar1, decide_False|]. split; [by apply is_Some_attach|]. split.
      * rewrite <- app_assoc. simpl. intros Hin. apply elem_of_app in Hin as [Hin|Hin].
        -- apply Hfx. apply elem_of_app. by left.
        -- apply elem_of_cons in Hin as [->|Hin]; [done|].
           apply Hfx. apply elem_of_app. by right.
      * by rewrite Hanc1.
    + exists d'. split; [done|]. split; [by rewrite Hch, <- app_assoc|]. split.
      * intros m. rewrite Hpar, Hpar1.
        destruct (decide (m ∈ l)) as [Hin|Hin].
        -- rewrite decide_True; [done|by right].
        -- destruct (decide (m = n)) as [->|Hmn].
           ++ rewrite decide_True; [done|by left].
           ++ rewrite decide_False; [done|]. intros Hin'.
              apply elem_of_cons in Hin' as [->|Hin']; done.
      * split; [|split; [|split; [|split]]].
        -- intros m Hm. by rewrite Hoth, Hch1, decide_False.
        -- intros m. rewrite Hk. apply kind_attach.
        -- intros m. rewrite Hv. apply nodeValue_attach.
        -- intros m. rewrite Hs. apply is_Some_attach.
        -- intros a. by rewrite Ha, Hanc1.
Qed.

Lemma set_parent_none x po : nparent x = None → set_parent None (set_parent po x) = x.
Proof. intros H. destruct x; simpl in *. by subst. Qed.

Lemma filter_place n ref (cs : list node_id) :
  n ∉ cs → filter (λ c, c ≠ n) (Dom.place n ref cs) = cs.
Proof.
  intros Hn. unfold Dom.place.
  assert (Hend : filter (λ c, c ≠ n) (cs ++ [n]) = cs).
  { replace (cs ++ [n]) with (cs ++ n :: []) by done.
    rewrite filter_ne_middle; [apply app_nil_r|done|]. apply not_elem_of_nil. }
  destruct ref as [r|]; [|done].
  destruct (index_of r cs) as [i|]; [|done].
  rewrite <- (take_drop i cs) in Hn. apply not_elem_of_app in Hn as [H1 H2].
  rewrite filter_ne_middle by done. apply take_drop.
Qed.

Lemma detach_attach_id d p n ref :
  Dom.parentNode d n = None → is_Some (d !! n) → n ∉ Dom.childNodes d p → n ≠ p →
  Dom.detach (Dom.attach d p n ref) n = d.
Proof.
  intros Hpn [x Hx] Hn Hnp. unfold Dom.detach.
  rewrite parentNode_attach by eauto. rewrite decide_True by done.
  unfold Dom.attach. apply map_eq. intros m.
  rewrite !lookup_alter.
  destruct (decide (n = m)) as [<-|Hnm].
  - destruct (decide (p = n)); [congruence|].
    destruct (decide (n = n)); [|done].
    rewrite Hx. simpl. f_equal. apply set_parent_none.
    unfold Dom.parentNode in Hpn. by rewrite Hx in Hpn.
  - destruct (decide (p = m)) as [<-|Hpm]; [|done].
    destruct (decide (p = p)); [|done].
    destruct (decide (n = p)); [congruence|].
    unfold Dom.childNodes in Hn.
    destruct (d !! p) as [y|] eqn:Hy; [|done]. simpl in *. f_equal.
    rewrite filter_place by done. by destruct y.
Qed.

(** Detached nodes inserted before the same reference node, then removed
    in the opposite order. *)
Lemma insert_then_removeChild p (post l : list node_id) : ∀ d pre,
  Dom.can_have_children d p = true →
  Dom.childNodes d p = pre ++ post →
  NoDup (pre ++ post) →
  match head post with Some r => Dom.parentNode d r = Some p | None => True end →
  NoDup l →
  (∀ n, n ∈ l → Dom.parentNode d n = None ∧ is_Some (d !! n) ∧ (n ∉ pre ++ post)
                ∧ Dom.is_inclusive_ancestor d n p = false) →
  ∃ d', UndoBuffer.insertBefore_each d p l (head post) = Ok d'
        ∧ UndoBuffer.removeChild_each d' p (reverse l) = Ok d.
Proof.
  induction l as [|n l IH] using rev_ind; intros d pre Hc Hcs Hnd Href Hl Hall.
  - exists d. done.
  - apply NoDup_app in Hl as (Hl & Hln & _).
    assert (Hall_l : ∀ x, x ∈ l → Dom.parentNode d x = None ∧ is_Some (d !! x)
                                   ∧ (x ∉ pre ++ post)
                                   ∧ Dom.is_inclusive_ancestor d x p = false).
    { intros x Hx. apply Hall. apply elem_of_app. by left. }
    destruct (Hall n) as (Hpn & Hsn & Hfresh & Hanc); [apply elem_of_app; right; by left|].
    assert (Hnl : n ∉ l). { intros Hin. apply (Hln n Hin). by left. }
    destruct (IH d pre) as (d1 & Hins & Hrem); try done.
    destruct (insertBefore_each_detached p post l d pre)
      as (d1' & Hins' & Hch & Hpar & _ & Hk & _ & Hs & Ha); try done.
    rewrite Hins in Hins'. inversion Hins'; subst d1'; clear Hins'.
    assert (Hpn1 : Dom.parentNode d1 n = None) by (by rewrite Hpar, decide_False).
    assert (Hn1 : n ∉ Dom.childNodes d1 p).
    { rewrite Hch. intros Hin. apply elem_of_app in Hin as [Hin|Hin].
      - apply Hfresh. apply elem_of_app. by left.
      - apply elem_of_app in Hin as [Hin|Hin]; [done|].
        apply Hfresh. apply elem_of_app. by right. }
    assert (Hnp : n ≠ p) by (by apply not_ancestor_ne in Hanc).
    assert (Hsn1 : is_Some (d1 !! n)) by (by apply Hs).
    exists (Dom.attach d1 p n (head post)). split.
    + rewrite insertBefore_each_app, Hins. cbn [mbind result_bind]. simpl.
      rewrite insertBefore_Ok.
      * cbn [mbind result_bind]. by rewrite detach_detached.
      * unfold Dom.can_have_children in *. by rewrite Hk.
      * by rewrite Ha.
      * destruct (head post) as [r|] eqn:Hr; [|done].
        rewrite Hpar. destruct (decide (r ∈ l)); done.
      * destruct (head post) as [r|] eqn:Hr; [|done]. intros [= ->].
        apply Hfresh. apply elem_of_app. right. by apply head_in.
    + rewrite reverse_snoc. simpl. rewrite removeChild_Ok.
      * cbn [mbind result_bind]. by rewrite detach_attach_id.
      * by rewrite parentNode_attach, decide_True.
Qed.

End structural.

(** X8. The reverse replay of a record that removed several nodes puts them
    back in the reverse order: every node of [removedNodes], from the last
    to the first, is inserted before the same [nextSibling], so the
    children of the target end up as [pre ++ reverse removed ++ post]. *)
Theorem undo_reinserts_removed_nodes_reversed (d : gmap node_id dom_node)
    (op : record) (p : node_id) (pre post : list node_id) :
  type op = childList → target op = p → addedNodes op = [] →
  nextSibling op = head post →
  Dom.can_have_children d p = true →
  Dom.childNodes d p = pre ++ post →
  NoDup (pre ++ post) →
  match head post with Some r => Dom.parentNode d r = Some p | None => True end →
  NoDup (removedNodes op) →
  (∀ n, n ∈ removedNodes op →
        Dom.parentNode d n = None ∧ is_Some (d !! n) ∧ (n ∉ pre ++ post)
        ∧ Dom.is_inclusive_ancestor d n p = false) →
  ∃ d', UndoBuffer.undo_op d op = Ok (d', op)
        ∧ Dom.childNodes d' p = pre ++ reverse (removedNodes op) ++ post
        ∧ (∀ n, n ∈ removedNodes op → Dom.parentNode d' n = Some p)
        ∧ UndoBuffer.redo_op d' op = Ok d.
Proof.
  intros Hty Htg Hadd Hnext Hc Hcs Hnd Href Hl Hall.
  assert (Hl' : NoDup (reverse (removedNodes op))) by (by rewrite reverse_Permutation).
  assert (Hall' : ∀ n, n ∈ reverse (removedNodes op) →
                       Dom.parentNode d n = None ∧ is_Some (d !! n) ∧ (n ∉ pre ++ post)
                       ∧ Dom.is_inclusive_ancestor d n p = false).
  { intros n Hn. apply Hall. by apply elem_of_reverse. }
  destruct (insertBefore_each_detached p post (reverse (removedNodes op)) d pre)
    as (d' & Hins & Hch & Hpar & _); try done.
  destruct (insert_then_removeChild p post (reverse (removedNodes op)) d pre)
    as (d'' & Hins' & Hrem); try done.
  rewrite Hins in Hins'. inversion Hins'; subst d''; clear Hins'.
  rewrite reverse_involutive in Hrem.
  exists d'. unfold UndoBuffer.undo_op, UndoBuffer.redo_op.
  rewrite Hty, Hadd, Htg, Hnext. simpl.
  rewrite Hins. simpl. split; [done|]. split; [done|]. split; [|done].
  intros n Hn. rewrite Hpar, decide_True; [done|]. by apply elem_of_reverse.
Qed.

Section insertion.

Implicit Types d : gmap node_id dom_node.

Implicit Types n m p : node_id.

Lemma removeChild_then_insert p (post : list node_id) (ns : list node_id) : ∀ d pre,
  Dom.can_have_children d p = true →
  Dom.childNodes d p = pre ++ ns ++ post →
  NoDup (pre ++ ns ++ post) →
  (∀ x, x ∈ ns ++ post → Dom.parentNode d x = Some p) →
  (∀ x, x ∈ ns → Dom.is_inclusive_ancestor d x p = false) →
  ∃ d0, UndoBuffer.removeChild_each d p (reverse ns) = Ok d0
        ∧ UndoBuffer.insertBefore_each d0 p ns (head post) = Ok d
        ∧ Dom.childNodes d0 p = pre ++ post
        ∧ (∀ x, x ∈ ns → Dom.parentNode d0 x = None)
        ∧ (∀ m, m ∉ ns → Dom.parentNode d0 m = Dom.parentNode d m)
        ∧ (∀ m, m ≠ p → Dom.childNodes d0 m = Dom.childNodes d m).
Proof.
  induction ns as [|n ns IH] using rev_ind; intros d pre Hc Hcs Hnd Hpar Hanc.
  - exists d. simpl in *. split; [done|]. split; [done|]. split; [done|].
    split; [|done]. intros x Hx. by apply elem_of_nil in Hx.
  - rewrite reverse_snoc. simpl.
    assert (Hpn : Dom.parentNode d n = Some p).
    { apply Hpar. apply elem_of_app. left. apply elem_of_app. right. by left. }
    rewrite removeChild_Ok by done. cbn [mbind result_bind].
    assert (Hnp : n ≠ p).
    { apply (not_ancestor_ne d). apply Hanc. apply elem_of_app. right. by left. }
    rewrite <- !app_assoc in Hcs, Hnd. simpl in Hcs, Hnd.
    assert (Hcs' : Dom.childNodes d p = (pre ++ ns) ++ n :: post)
      by (by rewrite <- app_assoc).
    assert (Hnd' : NoDup ((pre ++ ns) ++ n :: post)) by (by rewrite <- app_assoc).
    pose proof Hnd' as Hnd2.
    apply NoDup_app in Hnd2 as (Hnd_l & Hnd_x & Hnd_r).
    apply NoDup_cons in Hnd_r as (Hn_post & Hnd_post).
    assert (Hn_l : n ∉ pre ++ ns). { intros Hin. apply (Hnd_x n Hin). by left. }
    set (d' := Dom.detach d n).
    assert (Hpar' : ∀ m, Dom.parentNode d' m
                         = if decide (m = n) then None else Dom.parentNode d m)
      by (intros m; apply parentNode_detach).
    assert (Hch' : Dom.childNodes d' p = pre ++ ns ++ post).
    { unfold d'. rewrite childNodes_detach, decide_True by done.
      rewrite Hcs', filter_ne_middle by done. by rewrite <- app_assoc. }
    destruct (IH d' pre) as (d0 & Hrem & Hins & Hch0 & Hdet & Hkeep & Hoth).
    + unfold Dom.can_have_children, d' in *. by rewrite kind_detach.
    + done.
    + rewrite app_assoc. apply NoDup_app. split; [done|]. split; [|done].
      intros z Hz Hz'. apply (Hnd_x z Hz). by right.
    + intros x Hx. rewrite Hpar'. destruct (decide (x = n)) as [->|].
      * exfalso. apply elem_of_app in Hx as [Hx|Hx]; [|done].
        apply Hn_l. apply elem_of_app. by right.
      * apply Hpar. apply elem_of_app in Hx as [Hx|Hx]; apply elem_of_app.
        -- left. apply elem_of_app. by left.
        -- by right.
    + intros x Hx. rewrite <- (Hanc x) by (apply elem_of_app; by left).
      apply is_inclusive_ancestor_ext with n.
      * apply size_detach.
      * intros m Hm. by rewrite Hpar', decide_False.
      * apply Hanc. apply elem_of_app. right. by left.
    + exists d0. split; [done|]. split.
      { rewrite insertBefore_each_app, Hins. cbn [mbind result_bind].
        simpl. rewrite insertBefore_Ok.
        - cbn [mbind result_bind]. f_equal.
          rewrite detach_detached by (by rewrite Hpar', decide_True).
          by apply attach_detach_id with (pre ++ ns).
        - unfold Dom.can_have_children, d' in *. by rewrite kind_detach.
        - rewrite <- (Hanc n) by (apply elem_of_app; right; by left).
          apply is_inclusive_ancestor_ext with n.
          + apply size_detach.
          + intros m Hm. by rewrite Hpar', decide_False.
          + apply Hanc. apply elem_of_app. right. by left.
        - destruct (head post) as [r|] eqn:Hr; [|done].
          assert (Hrp : r ∈ post) by (by apply head_in).
          rewrite Hpar'. destruct (decide (r = n)) as [->|]; [done|].
          apply Hpar. apply elem_of_app. by right.
        - destruct (head post) as [r|] eqn:Hr; [|done]. intros [= ->].
          apply Hn_post. by apply head_in. }
      split; [done|]. split; [|split].
      * intros x Hx. apply elem_of_app in Hx as [Hx|Hx]; [by apply Hdet|].
        apply list_elem_of_singleton in Hx as ->.
        rewrite Hkeep, Hpar', decide_True; [done|done|].
        intros Hin. apply Hn_l. apply elem_of_app. by right.
      * intros m Hm. rewrite Hkeep, Hpar', decide_False; [done| |].
        -- intros ->. apply Hm. apply elem_of_app. right. by left.
        -- intros Hin. apply Hm. apply elem_of_app. by left.
      * intros m Hm. rewrite Hoth by done. unfold d'.
        rewrite childNodes_detach, decide_False; [done|]. congruence.
Qed.

End insertion.

(** X9. A record that inserted a run of adjacent nodes is replayed exactly
    in both directions: [#undo] removes the nodes (last to first) and
    leaves them without a parent, and [#redo] of the same record then
    inserts them again before [nextSibling], which gives back the very
    tree [#undo] started from. *)
Theorem insertion_record_replay_round_trip (d : gmap node_id dom_node)
    (op : record) (p : node_id) (pre post : list node_id) :
  type op = childList → target op = p → removedNodes op = [] →
  nextSibling op = head post →
  Dom.can_have_children d p = true →
  Dom.childNodes d p = pre ++ addedNodes op ++ post →
  NoDup (pre ++ addedNodes op ++ post) →
  (∀ x, x ∈ addedNodes op ++ post → Dom.parentNode d x = Some p) →
  (∀ x, x ∈ addedNodes op → Dom.is_inclusive_ancestor d x p = false) →
  ∃ d0, UndoBuffer.undo_op d op = Ok (d0, op)
        ∧ Dom.childNodes d0 p = pre ++ post
        ∧ (∀ x, x ∈ addedNodes op → Dom.parentNode d0 x = None)
        ∧ UndoBuffer.redo_op d0 op = Ok d.
Proof.
  intros Hty Htg Hrem Hnext Hc Hcs Hnd Hpar Hanc.
  destruct (removeChild_then_insert p post (addedNodes op) d pre)
    as (d0 & Hr & Hi & Hch & Hdet & _); try done.
  exists d0. unfold UndoBuffer.undo_op, UndoBuffer.redo_op.
  rewrite Hty, Htg, Hrem, Hnext, Hr. simpl. rewrite Hi. done.
Qed.

(** ** Helpers of the normaliser *)

(** X10. [getChildIndex] returns the position of the node among the children
    of its parent (the number of siblings before it), and 0 for a node
    without a parent. *)
Theorem getChildIndex_is_sibling_position (d : gmap node_id dom_node)
    (p n : node_id) (pre post : list node_id) :
  Dom.childNodes d p = pre ++ n :: post →
  NoDup (pre ++ [n]) →
  (∀ x, x ∈ pre ++ [n] → Dom.parentNode d x = Some p) →
  Nomalizer.getChildIndex d n = Z.of_nat (length pre)
  ∧ Dom.childNodes d p !! length pre = Some n
  ∧ ∀ m, Dom.parentNode d m = None → Nomalizer.getChildIndex d m = 0%Z.
Proof.
  intros Hcs Hnd Hpar. split; [|split].
  - by apply getChildIndex_middle with p post.
  - rewrite Hcs. by apply list_lookup_middle.
  - intros m Hm. unfold Nomalizer.getChildIndex. by rewrite Hm.
Qed.

Section replace.

Context (node tgt : node_id) (prev next : option node_id).

Lemma replaced_cons r rs :
  replaced node tgt prev next (r :: rs)
  = if is_childList r then retarget node tgt prev next r :: replaced node tgt prev next rs
    else if decide (target r = node) then replaced node tgt prev next rs
    else r :: replaced node tgt prev next rs.
Proof.
  unfold replaced. destruct (is_childList r) eqn:E.
  - rewrite filter_cons_True by (by left). simpl. by rewrite E.
  - destruct (decide (target r = node)) as [Ht|Ht].
    + rewrite filter_cons_False; [done|]. intros [?|?]; congruence.
    + rewrite filter_cons_True by (by right). simpl. by rewrite E.
Qed.

Lemma replace_loop_spec (n : nat) : ∀ (rs : list record) (begin : nat),
  (begin + n ≤ length rs)%nat →
  Nomalizer.replace_loop n rs node tgt prev next begin
  = Ok (take begin rs ++ replaced node tgt prev next (take n (drop begin rs))
        ++ drop (begin + n) rs).
Proof.
  induction n as [|n IH]; intros rs begin Hlen; simpl.
  - rewrite Nat.add_0_r. unfold replaced. simpl. by rewrite take_drop.
  - destruct (rs !! begin) as [r|] eqn:Hr.
    2:{ apply lookup_ge_None in Hr. lia. }
    rewrite (drop_S _ _ _ Hr). simpl. rewrite replaced_cons.
    unfold is_childList. destruct (type r) eqn:Ety.
    + destruct (decide (target r = node)).
      * rewrite IH by (rewrite length_delete by eauto; lia).
        rewrite delete_take_drop. f_equal.
        rewrite take_app_length' by (rewrite length_take; lia).
        rewrite drop_app_length' by (rewrite length_take; lia).
        f_equal. rewrite drop_app_ge by (rewrite length_take; lia).
        rewrite length_take, drop_drop. do 2 f_equal. lia.
      * rewrite IH by lia. rewrite (take_S_r _ _ _ Hr), <- app_assoc. simpl.
        by rewrite Nat.add_succ_r.
    + destruct (decide (target r = node)).
      * rewrite IH by (rewrite length_delete by eauto; lia).
        rewrite delete_take_drop. f_equal.
        rewrite take_app_length' by (rewrite length_take; lia).
        rewrite drop_app_length' by (rewrite length_take; lia).
        f_equal. rewrite drop_app_ge by (rewrite length_take; lia).
        rewrite length_take, drop_drop. do 2 f_equal. lia.
      * rewrite IH by lia. rewrite (take_S_r _ _ _ Hr), <- app_assoc. simpl.
        by rewrite Nat.add_succ_r.
    + rewrite IH by (rewrite length_insert; lia).
      rewrite take_insert_lt by lia.
      rewrite (take_S_r _ _ _ Hr).
      rewrite insert_app_r_alt by (rewrite length_take; lia).
      rewrite length_take. replace (begin - begin `min` length rs)%nat with 0%nat by lia.
      simpl. rewrite <- app_assoc. simpl.
      rewrite !drop_insert_lt by lia. by rewrite Nat.add_succ_r.
Qed.

Lemma replace_loop_overrun (n : nat) : ∀ (rs : list record) (begin : nat),
  (length rs < begin + S n)%nat →
  Nomalizer.replace_loop (S n) rs node tgt prev next begin = Throw TypeError.
Proof.
  induction n as [|n IH]; intros rs begin Hlen.
  - simpl. rewrite lookup_ge_None_2; [done|lia].
  - cbn [Nomalizer.replace_loop].
    destruct (rs !! begin) as [r|] eqn:Hr; [|done].
    apply lookup_lt_Some in Hr.
    destruct (type r).
    + destruct (decide (target r = node)); apply IH.
      * rewrite length_delete by (by apply lookup_lt_is_Some). lia.
      * lia.
    + destruct (decide (target r = node)); apply IH.
      * rewrite length_delete by (by apply lookup_lt_is_Some). lia.
      * lia.
    + apply IH. rewrite length_insert. lia.
Qed.

End replace.

(** X11. [replaceOperation] over the index range [[begin, end)] leaves the
    records outside the range alone; inside it, it drops the text and
    attribute records whose target is [node], redirects the [target],
    [previousSibling] and [nextSibling] fields of structural records that
    name [node], and keeps everything else in order.  A range that runs
    past the array makes the loop read a missing record and throw. *)
Theorem replaceOperation_rewrites_range (rs : list record) (node tgt : node_id)
    (prev next : option node_id) (b e : nat) :
  ((b ≤ e ≤ length rs)%nat →
   Nomalizer.replaceOperation rs node tgt prev next (Z.of_nat b) (Z.of_nat e)
   = Ok (take b rs ++ replaced node tgt prev next (take (e - b) (drop b rs))
         ++ drop e rs))
  ∧ ((b < e)%nat → (length rs < e)%nat →
     Nomalizer.replaceOperation rs node tgt prev next (Z.of_nat b) (Z.of_nat e)
     = Throw TypeError).
Proof.
  split.
  - intros Hbe. unfold Nomalizer.replaceOperation.
    destruct (Z.eqb_spec (Z.of_nat b) (Z.of_nat e)) as [E|E].
    + assert (b = e) as -> by lia. rewrite Nat.sub_diag. unfold replaced. simpl.
      by rewrite take_drop.
    + destruct (Z.leb_spec 0 (Z.of_nat b)); [|lia].
      destruct (Z.ltb_spec (Z.of_nat b) (Z.of_nat e)); [|lia]. simpl.
      rewrite Nat2Z.id. replace (Z.to_nat (Z.of_nat e - Z.of_nat b)) with (e - b)%nat by lia.
      rewrite replace_loop_spec by lia. repeat f_equal; lia.
  - intros Hbe Hlen. unfold Nomalizer.replaceOperation.
    destruct (Z.eqb_spec (Z.of_nat b) (Z.of_nat e)); [lia|].
    destruct (Z.leb_spec 0 (Z.of_nat b)); [|lia].
    destruct (Z.ltb_spec (Z.of_nat b) (Z.of_nat e)); [|lia]. simpl.
    replace (Z.to_nat (Z.of_nat e - Z.of_nat b)) with (S (e - b - 1)) by lia.
    apply replace_loop_overrun. lia.
Qed.

(** ** Moving a live child list *)

Lemma alternate_cons a l : alternate (a :: l) = a :: alternate (tail l).
Proof. by destruct l. Qed.

Lemma elem_of_tail (l : list node_id) x : x ∈ tail l → x ∈ l.
Proof. destruct l; simpl; [done|]. by right. Qed.

Lemma alternate_subset (l : list node_id) :
  (∀ x, x ∈ alternate l → x ∈ l) ∧ (∀ x, x ∈ alternate (tail l) → x ∈ tail l).
Proof.
  induction l as [|a l [IH1 IH2]]; [done|]. split; [|done].
  intros x. rewrite alternate_cons. intros Hx.
  apply elem_of_cons in Hx as [->|Hx]; [by left|].
  right. apply elem_of_tail. by apply IH2.
Qed.

Lemma alternate_disjoint (l : list node_id) :
  NoDup l →
  (∀ x, x ∈ alternate l → x ∉ alternate (tail l))
  ∧ (∀ x, x ∈ alternate (tail l) → x ∉ alternate (tail (tail l))).
Proof.
  induction l as [|a l IH]; intros Hnd; [split; intros x Hx; by apply elem_of_nil in Hx|].
  apply NoDup_cons in Hnd as [Ha Hnd]. destruct (IH Hnd) as [IH1 IH2].
  split; [|done].
  intros x. rewrite alternate_cons. simpl. intros Hx Hx'.
  apply elem_of_cons in Hx as [->|Hx].
  - apply Ha. by apply alternate_subset.
  - by apply (IH1 x).
Qed.

Section live.

Implicit Types d : gmap node_id dom_node.

Context (node refParent ref : node_id) (post : list node_id).

Hypothesis Hdiff : node ≠ refParent.

Lemma move_one d a (kept rest pre : list node_id) :
  Dom.can_have_children d refParent = true →
  Dom.childNodes d refParent = pre ++ ref :: post →
  NoDup (pre ++ ref :: post) →
  Dom.parentNode d ref = Some refParent →
  Dom.childNodes d node = kept ++ a :: rest →
  NoDup (kept ++ a :: rest) →
  Dom.parentNode d a = Some node →
  Dom.is_inclusive_ancestor d a refParent = false →
  ∃ d1, Dom.insertBefore d refParent a (Some ref) = Ok d1
        ∧ Dom.can_have_children d1 refParent = true
        ∧ Dom.childNodes d1 refParent = (pre ++ [a]) ++ ref :: post
        ∧ Dom.childNodes d1 node = kept ++ rest
        ∧ (∀ m, Dom.parentNode d1 m
                = if decide (m = a) then Some refParent else Dom.parentNode d m)
        ∧ (∀ x, Dom.is_inclusive_ancestor d1 x refParent
                = Dom.is_inclusive_ancestor d x refParent).
Proof.
  intros Hc Hcs Hnd Href Hn Hndn Hpa Hanc.
  assert (Hra : ref ≠ a) by (intros ->; congruence).
  rewrite insertBefore_Ok; try done; [|congruence].
  eexists. split; [done|].
  assert (Hsa : is_Some (Dom.detach d a !! a)).
  { apply is_Some_detach. by eapply parentNode_is_Some. }
  assert (Hsp : is_Some (Dom.detach d a !! refParent)).
  { apply is_Some_detach. by apply can_have_children_is_Some. }
  apply NoDup_app in Hndn as (Hk & Hka & Har). apply NoDup_cons in Har as [Har Hr].
  assert (Hak : a ∉ kept). { intros Hin. apply (Hka a Hin). by left. }
  apply NoDup_app in Hnd as (Hp & Hpr & _).
  assert (Hrp : ref ∉ pre). { intros Hin. apply (Hpr ref Hin). by left. }
  split; [|split; [|split; [|split]]].
  - unfold Dom.can_have_children in *. by rewrite kind_attach, kind_detach.
  - rewrite childNodes_attach, decide_True by done.
    rewrite childNodes_detach, decide_False by congruence.
    rewrite Hcs, place_before by done. by rewrite <- app_assoc.
  - rewrite childNodes_attach, decide_False by done.
    rewrite childNodes_detach, decide_True by done.
    rewrite Hn. by apply filter_ne_middle.
  - intros m. rewrite parentNode_attach by done. rewrite parentNode_detach.
    by destruct (decide (m = a)).
  - intros x. apply is_inclusive_ancestor_ext with a.
    + by rewrite size_attach, size_detach.
    + intros m Hm. rewrite parentNode_attach by done. rewrite parentNode_detach.
      by rewrite !decide_False.
    + done.
Qed.

Lemma move_each_live (n : nat) : ∀ d (kept rest pre : list node_id),
  (length rest ≤ n)%nat →
  Dom.can_have_children d refParent = true →
  Dom.childNodes d refParent = pre ++ ref :: post →
  NoDup (pre ++ ref :: post) →
  Dom.parentNode d ref = Some refParent →
  Dom.childNodes d node = kept ++ rest →
  NoDup (kept ++ rest) →
  (∀ x, x ∈ rest → Dom.parentNode d x = Some node
                   ∧ Dom.is_inclusive_ancestor d x refParent = false) →
  (∀ x, x ∈ rest → x ∉ pre ++ ref :: post) →
  ∃ d', Nomalizer.move_each n d (ChildNodesOf node) (length kept) refParent ref = Ok d'
        ∧ Dom.childNodes d' refParent = pre ++ alternate rest ++ ref :: post
        ∧ Dom.childNodes d' node = kept ++ alternate (tail rest)
        ∧ (∀ m, Dom.parentNode d' m
                = if decide (m ∈ alternate rest) then Some refParent
                  else Dom.parentNode d m).
Proof.
  induction n as [|n IH]; intros d kept rest pre Hlen Hc Hcs Hnd Href Hn Hndn Hall Hfresh.
  - destruct rest; [|simpl in Hlen; lia]. exists d. simpl. rewrite app_nil_r in *.
    split; [done|]. split; [done|]. split; [done|]. intros m.
    destruct (decide (m ∈ [])) as [Hin|]; [|done]. by apply elem_of_nil in Hin.
  - cbn [Nomalizer.move_each Nomalizer.items]. rewrite Hn.
    destruct rest as [|a rest1].
    { rewrite app_nil_r, lookup_ge_None_2 by lia. exists d. simpl.
      rewrite app_nil_r in *. split; [done|]. split; [done|]. split; [done|]. intros m.
      destruct (decide (m ∈ [])) as [Hin|]; [|done]. by apply elem_of_nil in Hin. }
    rewrite list_lookup_middle by done.
    destruct (Hall a) as [Hpa Hanc]; [by left|].
    destruct (move_one d a kept rest1 pre) as (d1 & Hins & Hc1 & Hcs1 & Hn1 & Hpar1 & Hanc1);
      try done.
    rewrite Hins. cbn [mbind result_bind].
    pose proof Hndn as Hndn'.
    apply NoDup_app in Hndn' as (Hk & Hka & Har). apply NoDup_cons in Har as [Har Hr].
    assert (Hak : a ∉ kept). { intros Hin. apply (Hka a Hin). by left. }
    destruct rest1 as [|b rest2].
    { exists d1. split.
      - destruct n; [done|]. cbn [Nomalizer.move_each Nomalizer.items].
        rewrite Hn1, app_nil_r, lookup_ge_None_2 by lia. done.
      - simpl. rewrite Hcs1, Hn1, <- app_assoc. split; [done|]. split; [done|].
        intros m. rewrite Hpar1. destruct (decide (m = a)) as [->|Hm].
        + rewrite decide_True; [done|by left].
        + rewrite decide_False; [done|]. intros Hin.
          apply elem_of_cons in Hin as [->|Hin]; [done|]. by apply elem_of_nil in Hin. }
    apply NoDup_cons in Hr as [Hb Hr].
    assert (Hab : a ≠ b) by (intros ->; apply Har; by left).
    destruct (IH d1 (kept ++ [b]) rest2 (pre ++ [a])) as (d' & Hmv & Hcs' & Hn' & Hpar').
    + simpl in Hlen. lia.
    + done.
    + done.
    + rewrite <- app_assoc. simpl. apply NoDup_app in Hnd as (Hp & Hpr & Hrp).
      apply NoDup_app. split; [done|]. split.
      * intros z Hz Hz'. apply elem_of_cons in Hz' as [->|Hz'].
        -- apply (Hfresh a); [by left|]. apply elem_of_app. by left.
        -- by apply (Hpr z).
      * apply NoDup_cons. split; [|done]. intros Hin. apply (Hfresh a); [by left|].
        apply elem_of_app. by right.
    + rewrite Hpar1, decide_False; [done|]. intros ->. congruence.
    + by rewrite Hn1, <- app_assoc.
    + rewrite <- app_assoc. simpl. apply NoDup_app. split; [done|]. split.
      * intros z Hz Hz'. apply (Hka z Hz). by right.
      * by apply NoDup_cons.
    + intros x Hx.
      assert (Hxa : x ≠ a) by (intros ->; apply Har; by right).
      rewrite Hpar1, decide_False by done. rewrite Hanc1.
      apply Hall. right. by right.
    + intros x Hx Hin.
      assert (Hxa : x ≠ a) by (intros ->; apply Har; by right).
      rewrite <- app_assoc in Hin. simpl in Hin.
      apply (Hfresh x); [right; by right|].
      apply elem_of_app in Hin as [Hin|Hin]; [apply elem_of_app; by left|].
      apply elem_of_cons in Hin as [->|Hin]; [done|]. apply elem_of_app. by right.
    + exists d'. rewrite length_app in Hmv. simpl in Hmv.
      replace (length kept + 1)%nat with (S (length kept)) in Hmv by lia.
      split; [done|]. simpl. split; [by rewrite Hcs', <- app_assoc|].
      split; [rewrite Hn', <- app_assoc; by destruct rest2|].
      intros m. rewrite Hpar', Hpar1.
      destruct (decide (m ∈ alternate rest2)) as [Hin|Hin].
      * rewrite decide_True; [done|by right].
      * destruct (decide (m = a)) as [->|Hm].
        -- rewrite decide_True; [done|by left].
        -- rewrite decide_False; [done|]. intros Hin'.
           apply elem_of_cons in Hin' as [->|Hin']; done.
Qed.

End live.

(** X12. Moving the live child list of a node before a reference node moves
    only every other child: the loop of [moveNodeList] reads index [k] of
    [node.childNodes] after [k] children have already left the list, so
    the children at the positions 1, 3, 5, ... stay under [node]. *)
Theorem live_child_list_moves_every_other_child (d : gmap node_id dom_node)
    (range : option caret) (node refParent ref : node_id) (pre post : list node_id) :
  node ≠ refParent →
  Dom.can_have_children d refParent = true →
  Dom.childNodes d refParent = pre ++ ref :: post →
  NoDup (pre ++ ref :: post) →
  (∀ x, x ∈ pre ++ ref :: post → Dom.parentNode d x = Some refParent) →
  NoDup (Dom.childNodes d node) →
  (∀ x, x ∈ Dom.childNodes d node →
        Dom.parentNode d x = Some node
        ∧ Dom.is_inclusive_ancestor d x refParent = false) →
  ∃ d' range',
    Nomalizer.moveNodeList d range (ChildNodesOf node) refParent (Some ref)
    = Ok (d', range')
    ∧ Dom.childNodes d' refParent
      = pre ++ alternate (Dom.childNodes d node) ++ ref :: post
    ∧ Dom.childNodes d' node = alternate (tail (Dom.childNodes d node))
    ∧ ∀ x, x ∈ alternate (tail (Dom.childNodes d node)) → Dom.parentNode d' x = Some node.
Proof.
  intros Hdiff Hc Hcs Hnd Hkids Hndn Hall.
  unfold Nomalizer.moveNodeList. cbn [Nomalizer.items].
  destruct (Dom.childNodes d node) as [|t0 cs] eqn:Hn.
  { exists d, range. simpl. split; [done|]. split; [done|]. split; [done|].
    intros x Hx. by apply elem_of_nil in Hx. }
  assert (Hfresh : ∀ x, x ∈ t0 :: cs → x ∉ pre ++ ref :: post).
  { intros x Hx Hin. destruct (Hall x Hx) as [Hpx _].
    rewrite (Hkids x Hin) in Hpx. congruence. }
  assert (Href : Dom.parentNode d ref = Some refParent).
  { apply Hkids. apply elem_of_app. right. by left. }
  destruct (move_each_live node refParent ref post Hdiff (length (t0 :: cs)) d [] (t0 :: cs) pre)
    as (d' & Hmv & Hcs' & Hn' & Hpar'); try done.
  change (length (@nil node_id)) with 0%nat in Hmv. rewrite Hmv.
  cbn [mbind result_bind]. eexists _, _. split; [done|]. split; [done|]. split; [done|].
  intros x Hx. rewrite Hpar'.
  destruct (alternate_disjoint (t0 :: cs) Hndn) as [Hdis _].
  rewrite decide_False by (intros Hin; by apply (Hdis x)).
  apply Hall. apply elem_of_tail. by apply alternate_subset.
Qed.

(** ** Batches the normaliser leaves alone *)

Section skip.

Context (root : node_id).

Lemma visit_settled (st : Normalize.loop_state) :
  settled root (w_dom (Normalize.ls_world st)) (Normalize.ls_op st) →
  type (Normalize.ls_op st) = childList →
  (0 ≤ Normalize.ls_j st < Z.of_nat (length (addedNodes (Normalize.ls_op st))))%Z →
  Normalize.visit root st = Ok st.
Proof.
  intros Hs Hty Hj.
  destruct (lookupZ (addedNodes (Normalize.ls_op st)) (Normalize.ls_j st)) as [node|] eqn:E.
  - assert (Hin : node ∈ addedNodes (Normalize.ls_op st)).
    { unfold lookupZ in E. destruct (Z.ltb_spec (Normalize.ls_j st) 0); [lia|].
      by eapply list_elem_of_lookup_2. }
    destruct (Hs Hty node Hin) as [Hp|(Hk & Hc & Hne)].
    + unfold Normalize.visit. rewrite E. by rewrite bool_decide_eq_false_2.
    + by apply (visit_text_elsewhere root st node).
  - unfold lookupZ in E. destruct (Z.ltb_spec (Normalize.ls_j st) 0); [lia|].
    apply lookup_ge_None in E. lia.
Qed.

Lemma inner_loop_settled (k : nat) : ∀ (fuel : nat) (st : Normalize.loop_state),
  settled root (w_dom (Normalize.ls_world st)) (Normalize.ls_op st) →
  type (Normalize.ls_op st) = childList →
  (0 ≤ Normalize.ls_j st)%Z →
  (Normalize.ls_j st + Z.of_nat k
   = Z.of_nat (length (addedNodes (Normalize.ls_op st))))%Z →
  (k < fuel)%nat →
  ∃ st', Normalize.inner_loop fuel root st = Ok st'
         ∧ Normalize.ls_world st' = Normalize.ls_world st
         ∧ Normalize.ls_range st' = Normalize.ls_range st
         ∧ Normalize.ls_records st' = Normalize.ls_records st
         ∧ Normalize.ls_i st' = Normalize.ls_i st.
Proof.
  induction k as [|k IH]; intros fuel st Hs Hty Hj0 Hj Hf.
  - destruct fuel as [|fuel]; [lia|]. exists st.
    rewrite inner_loop_done by lia. done.
  - destruct fuel as [|fuel]; [lia|].
    rewrite inner_loop_step by lia.
    rewrite visit_settled by (done || lia). cbn [mbind result_bind].
    destruct (IH fuel (Normalize.next_j st)) as (st' & H & H1 & H2 & H3 & H4);
      try done; try (simpl; lia).
    exists st'. done.
Qed.

Lemma outer_loop_settled (M k : nat) : ∀ (fuel : nat) w range rs (i : nat),
  (∀ r, r ∈ rs → settled root (w_dom w) r ∧ (length (addedNodes r) ≤ M)%nat) →
  length rs = (i + k)%nat →
  (k + M + 1 < fuel)%nat →
  Normalize.outer_loop fuel root w range rs (Z.of_nat i) = Ok (w, range, rs).
Proof.
  induction k as [|k IH]; intros fuel w range rs i Hall Hlen Hf.
  - destruct fuel as [|fuel]; [lia|]. apply outer_loop_done. f_equal. lia.
  - destruct fuel as [|fuel]; [lia|].
    destruct (rs !! i) as [op|] eqn:Hop.
    2:{ apply lookup_ge_None in Hop. lia. }
    destruct (Hall op) as [Hs HM]; [by eapply list_elem_of_lookup_2|].
    destruct (type op) eqn:Hty.
    + simpl. destruct (Z.eqb_spec (Z.of_nat i) (Z.of_nat (length rs))); [lia|].
      rewrite lookupZ_nat, Hop, Hty.
      replace (Z.of_nat i + 1)%Z with (Z.of_nat (S i)) by lia.
      apply IH; [done|lia|lia].
    + simpl. destruct (Z.eqb_spec (Z.of_nat i) (Z.of_nat (length rs))); [lia|].
      rewrite lookupZ_nat, Hop, Hty.
      replace (Z.of_nat i + 1)%Z with (Z.of_nat (S i)) by lia.
      apply IH; [done|lia|lia].
    + rewrite (outer_loop_step _ _ _ _ _ _ op) by (by rewrite ?lookupZ_nat).
      destruct (inner_loop_settled (length (addedNodes op)) fuel
                  {| Normalize.ls_world := w; Normalize.ls_range := range;
                     Normalize.ls_records := rs; Normalize.ls_i := Z.of_nat i;
                     Normalize.ls_j := 0; Normalize.ls_op := op |})
        as (st' & H & H1 & H2 & H3 & H4); try done; try (simpl; lia).
      rewrite H. cbn [mbind result_bind]. rewrite H1, H2, H3, H4. simpl.
      replace (Z.of_nat i + 1)%Z with (Z.of_nat (S i)) by lia.
      apply IH; [done|lia|lia].
Qed.

End skip.

(** X13. [normalize] changes neither the tree nor the records of a batch in
    which every record is settled (text changes, attribute changes,
    removals, insertions that were moved away since, text nodes put below
    a node other than the root): the loops return, and the records come
    back as they are, the selection being written back unchanged. *)
Theorem normalize_leaves_settled_batches (fuel M : nat) (root : node_id) (w : world)
    (rs : list record) (c : caret) :
  w_sel w = Some c → caret_ok (w_dom w) c →
  (∀ r, r ∈ rs → settled root (w_dom w) r ∧ (length (addedNodes r) ≤ M)%nat) →
  (length rs + M + 1 < fuel)%nat →
  Normalize.normalize fuel root w rs = Ok (w, rs).
Proof.
  intros Hsel Hok Hall Hf. unfold Normalize.normalize.
  change 0%Z with (Z.of_nat 0).
  rewrite (outer_loop_settled root M (length rs) fuel w (getCaret w) rs 0); try done.
  cbn [mbind result_bind]. unfold getCaret. rewrite Hsel.
  by rewrite updateCaret_same.
Qed.

(** ** Composition sessions *)

Section session.

Implicit Types d : gmap node_id dom_node.

Lemma undo_records_app (rs2 : list record) : ∀ (rs1 : list record) d,
  UndoBuffer.undo_records d (rs1 ++ rs2)
  = mbind (λ '(d1, rs2'),
           mbind (λ '(d2, rs1'), Ok (d2, rs1' ++ rs2')) (UndoBuffer.undo_records d1 rs1))
      (UndoBuffer.undo_records d rs2).
Proof.
  induction rs1 as [|op rs1 IH]; intros d; simpl.
  - destruct (UndoBuffer.undo_records d rs2) as [[d1 rs2']| |]; done.
  - rewrite IH. destruct (UndoBuffer.undo_records d rs2) as [[d1 rs2']| |]; simpl; [|done|done].
    destruct (UndoBuffer.undo_records d1 rs1) as [[d2 rs1']| |]; simpl; [|done|done].
    destruct (UndoBuffer.undo_op d2 op) as [[d3 op']| |]; done.
Qed.




End session.

Section composition.

Lemma value_edits_records (es : list edit) : ∀ d d' rs,
  forallb value_edit es = true →
  apply_edits d es = Ok (d', rs) →
  filter (λ r, is_childList r = true) rs = [].
Proof.
  induction es as [|e es IH]; intros d d' rs Hall H; simpl in *.
  - by inversion H.
  - apply andb_true_iff in Hall as [He Hall].
    inv_bind H. destruct a as [d1 r1]. cbn [mbind result_bind] in H.
    inv_bind H. destruct a as [d2 r2]. inversion H; subst; clear H.
    rewrite filter_app, (IH _ _ _ Hall Hbind0), app_nil_r.
    destruct e; try done; simpl in Hbind.
    + destruct (Dom.nodeValue d n); inversion Hbind; done.
    + inv_bind Hbind. inv_bind Hbind. by inversion Hbind.
    + inv_bind Hbind. destruct a; [|by inversion Hbind].
      inv_bind Hbind. by inversion Hbind.
Qed.


End composition.

(** X14. While a composition is in progress the main observer is
    disconnected: whatever the host changes, no batch is pushed, the caret
    snapshot is frozen ([beforeinput] is ignored) and the scratch buffer
    receives the structural records only, with [newValue] reset. *)
Theorem composition_session_records_nothing (fuel : nat) (s s' : ubuf)
    (w w1 w' : world) (es : list edit) :
  Controller.host_edits fuel (Controller.compositionstart s w) w1 es = Ok (s', w') →
  offset s' = offset s ∧ pos s' = pos s ∧ endPos s' = endPos s ∧ buffer s' = buffer s
  ∧ observing s' = false ∧ tempObserving s' = true
  ∧ Forall (λ r, type r = childList ∧ newValue r = None) (tempBuffer s')
  ∧ (∀ w'', Controller.beforeinput s' w'' = s').
Proof.
  unfold Controller.host_edits. intros H. inv_bind H. destruct a as [d1 rs].
  simpl in H. inversion H; subst; clear H. simpl.
  repeat (split; [done|]). split; [|done].
  apply Forall_fmap, Forall_forall. intros r Hr.
  apply list_elem_of_filter in Hr as [Hr _]. unfold is_childList in Hr. simpl.
  by destruct (type r).
Qed.


Section commit.

Implicit Types d : gmap node_id dom_node.

Lemma kind_set_nodeValue d n v m : Dom.kind (Dom.set_nodeValue d n v) m = Dom.kind d m.
Proof.
  unfold Dom.set_nodeValue. destruct (d !! n) as [x|] eqn:Hx; [|done].
  destruct (Dom.is_character_data (nkind x)); [|done].
  rewrite kind_insert. destruct (decide (m = n)) as [->|]; [|done].
  unfold Dom.kind. by rewrite Hx.
Qed.

Lemma nodeValue_set_nodeValue d n v :
  is_Some (Dom.nodeValue d n) →
  Dom.nodeValue (Dom.set_nodeValue d n (Some v)) n = Some v.
Proof.
  unfold Dom.nodeValue, Dom.set_nodeValue. intros H.
  destruct (d !! n) as [x|] eqn:Hx; [|by destruct H].
  destruct (Dom.is_character_data (nkind x)) eqn:Hk; [|by destruct H].
  rewrite lookup_insert_eq. simpl. by rewrite Hk.
Qed.

Lemma nodeValue_set_nodeValue_Some d m v n :
  is_Some (Dom.nodeValue d n) → is_Some (Dom.nodeValue (Dom.set_nodeValue d m v) n).
Proof.
  unfold Dom.set_nodeValue. intros H.
  destruct (d !! m) as [x|] eqn:Hx; [|done].
  destruct (Dom.is_character_data (nkind x)) eqn:Hk; [|done].
  unfold Dom.nodeValue in *. destruct (decide (n = m)) as [->|Hne].
  - rewrite lookup_insert_eq. simpl. rewrite Hk. eauto.
  - by rewrite lookup_insert_ne.
Qed.

Lemma insertBefore_nodeValue d p n ref d' m :
  Dom.insertBefore d p n ref = Ok d' → Dom.nodeValue d' m = Dom.nodeValue d m.
Proof.
  unfold Dom.insertBefore. intros H.
  repeat match type of H with (if ?b then _ else _) = _ => destruct b; [done|] end.
  inversion H; subst. by rewrite nodeValue_attach, nodeValue_detach.
Qed.

Lemma removeChild_nodeValue d p n d' m :
  Dom.removeChild d p n = Ok d' → Dom.nodeValue d' m = Dom.nodeValue d m.
Proof.
  unfold Dom.removeChild. intros H. case_decide; [|done].
  inversion H; subst. apply nodeValue_detach.
Qed.

Lemma removeChild_each_nodeValue tgt (l : list node_id) m : ∀ d d',
  UndoBuffer.removeChild_each d tgt l = Ok d' → Dom.nodeValue d' m = Dom.nodeValue d m.
Proof.
  induction l as [|n l IH]; intros d d' H; simpl in H.
  - by inversion H.
  - inv_bind H. rewrite (IH _ _ H). by eapply removeChild_nodeValue.
Qed.

Lemma insertBefore_each_nodeValue tgt ref (l : list node_id) m : ∀ d d',
  UndoBuffer.insertBefore_each d tgt l ref = Ok d' → Dom.nodeValue d' m = Dom.nodeValue d m.
Proof.
  induction l as [|n l IH]; intros d d' H; simpl in H.
  - by inversion H.
  - inv_bind H. rewrite (IH _ _ H). by eapply insertBefore_nodeValue.
Qed.

(** The reverse replay of structural records leaves every text alone. *)
Lemma undo_structure_nodeValue (rs : list record) m : ∀ d d' rs',
  Forall (λ r, type r = childList) rs →
  UndoBuffer.undo_records d rs = Ok (d', rs') →
  Dom.nodeValue d' m = Dom.nodeValue d m.
Proof.
  induction rs as [|r rs IH]; intros d d' rs' Hall H; simpl in H.
  - by inversion H.
  - apply Forall_cons in Hall as [Hr Hall].
    inv_bind H. destruct a as [d1 rest']. cbn [mbind result_bind] in H.
    inv_bind H. destruct a as [d2 op']. inversion H; subst; clear H.
    rewrite <- (IH _ _ _ Hall Hbind).
    unfold UndoBuffer.undo_op in Hbind0. rewrite Hr in Hbind0.
    inv_bind Hbind0. inv_bind Hbind0. inversion Hbind0; subst.
    erewrite insertBefore_each_nodeValue by done.
    by eapply removeChild_each_nodeValue.
Qed.

Lemma apply_edit_nodeValue d e d' rs n :
  apply_edit d e = Ok (d', rs) →
  is_Some (Dom.nodeValue d n) → is_Some (Dom.nodeValue d' n).
Proof.
  destruct e; simpl; intros H Hn.
  - destruct (Dom.nodeValue d n0); inversion H; subst;
      [by apply nodeValue_set_nodeValue_Some|done].
  - inv_bind H. inv_bind H. inversion H; subst. unfold Dom.setAttribute in Hbind0.
    destruct (Dom.is_element d n0); inversion Hbind0. by rewrite nodeValue_alter.
  - inv_bind H. destruct a; [|by inversion H; subst]. inv_bind H. inversion H; subst.
    unfold Dom.removeAttribute in Hbind0.
    destruct (Dom.is_element d n0); inversion Hbind0. by rewrite nodeValue_alter.
  - inv_bind H. inversion H; subst. by erewrite insertBefore_nodeValue.
  - inv_bind H. inversion H; subst. by erewrite removeChild_nodeValue.
Qed.

Lemma apply_edits_nodeValue (es : list edit) : ∀ d d' rs n,
  apply_edits d es = Ok (d', rs) →
  is_Some (Dom.nodeValue d n) → is_Some (Dom.nodeValue d' n).
Proof.
  induction es as [|e es IH]; intros d d' rs n H Hn; simpl in *.
  - by inversion H; subst.
  - inv_bind H. destruct a as [d1 r1]. cbn [mbind result_bind] in H.
    inv_bind H. destruct a as [d2 r2]. inversion H; subst; clear H.
    eapply IH; [done|]. by eapply apply_edit_nodeValue.
Qed.

End commit.

(** C8 (amended). A composition that starts with the caret in a text node
    and ends with a non-empty commit, on an object whose ring has at least
    two slots, where no rule of the normaliser applies to the scratch
    records: the listener pushes one batch, the scratch records (child-list
    changes only) followed by one synthesized text record for the caret's
    node whose [oldValue] is the text frozen at [compositionstart], and
    connects the main observer again.  When the reverse replay of that
    batch returns and the caret frozen at [compositionstart] fits the tree
    it leaves, one [undo()] steps back over the whole batch and the text
    node holds its value of before the composition. *)
Theorem committed_composition_is_one_undo_step (fuel M : nat) (s s2 : ubuf)
    (w w2 w3 : world) (es : list edit) (data : string) (c c3 : caret) (v0 : string)
    (d4 : gmap node_id dom_node) (rs4 : list record) :
  reachable s → (1 < bufferSize s)%Z →
  w_sel w = Some c →
  Dom.nodeValue (w_dom w) (startContainer c) = Some v0 →
  Controller.host_edits fuel (Controller.compositionstart s w) w es = Ok (s2, w2) →
  w_dom w3 = w_dom w2 → w_sel w3 = Some c3 → caret_ok (w_dom w3) c3 →
  (0 < String.length data)%nat →
  (∀ r, r ∈ tempBuffer s2 →
        settled (ub_target s) (w_dom w3) r ∧ (length (addedNodes r) ≤ M)%nat) →
  (length (tempBuffer s2) + M + 2 < fuel)%nat →
  UndoBuffer.undo_records (w_dom w3)
    (tempBuffer s2 ++ [data_record (w_dom w3) (startContainer c) (Some v0)])
  = Ok (d4, rs4) →
  caret_ok d4 c →
  ∃ s3 s4,
    Controller.compositionend fuel s2 w3 data = Ok (s3, w3, false)
    ∧ UndoBuffer.slot_piece (buffer s3) (pos s)
      = Ok {| records := tempBuffer s2
                         ++ [data_record (w_dom w3) (startContainer c) (Some v0)];
              oldRange := c; newRange := Some c3 |}
    ∧ Forall (λ r, type r = childList) (tempBuffer s2)
    ∧ pos s3 = Z.rem (pos s + 1) (bufferSize s)
    ∧ undo_depth s3 = Z.min (undo_depth s + 1) (bufferSize s - 1)
    ∧ observing s3 = true ∧ tempObserving s3 = false ∧ caretTracking s3 = true
    ∧ UndoBuffer.undo s3 w3
      = Ok (s4, {| w_dom := d4; w_sel := Some c; w_next := w_next w3 |})
    ∧ pos s4 = pos s
    ∧ Dom.nodeValue d4 (startContainer c) = Some v0.
Proof.
  intros Hr Hc Hsel Hv0 Hhost Hd3 Hsel3 Hok3 Hdata Hset Hfuel Hundo Hok4.
  pose proof (reachable_ring_inv s Hr ltac:(lia)) as Hinv.
  unfold Controller.host_edits in Hhost. inv_bind Hhost. destruct a as [d2 rs].
  simpl in Hhost. inversion Hhost; subst s2 w2; clear Hhost.
  simpl in Hd3.
  destruct (apply_edits_nodeValue es _ _ _ (startContainer c) Hbind) as [v2 Hv2];
    [by rewrite Hv0|].
  rewrite <- Hd3 in Hv2.
  set (tb := set_newValue None <$> filter (λ r, is_childList r = true) rs) in *.
  assert (Htb : Forall (λ r, type r = childList) tb).
  { unfold tb. apply Forall_fmap, Forall_forall. intros r Hr'.
    apply list_elem_of_filter in Hr' as [Hr' _]. unfold is_childList in Hr'. simpl.
    by destruct (type r). }
  assert (Htemp : tempBuffer
                    (Controller.tempObserver_callback (Controller.compositionstart s w)
                       (filter (λ r, is_childList r = true) rs)) = tb) by done.
  rewrite Htemp in *.
  set (n := startContainer c) in *.
  set (synth := data_record (w_dom w3) n (Some v0)) in *.
  unfold Controller.compositionend.
  destruct (Nat.ltb_spec 0 (String.length data)) as [_|]; [|lia].
  unfold Controller.tempObserver_callback, Controller.compositionstart,
    Controller.observeCaretEvent, getCaret. rewrite Hsel.
  cbn [with_capture with_observing tempBuffer range comp_oldValue ub_target observing
       tempObserving caretTracking bufferSize offset pos endPos buffer default
       from_option app id].
  fold n. rewrite Hv0. fold tb.
  change {| type := characterData; target := n; addedNodes := [];
            removedNodes := []; previousSibling := Dom.previousSibling (w_dom w3) n;
            nextSibling := Dom.nextSibling (w_dom w3) n; attributeName := None;
            attributeNamespace := None; oldValue := Some v0; newValue := None |}
    with synth.
  assert (Hnorm : Normalize.normalize fuel (ub_target s) w3 (tb ++ [synth])
                  = Ok (w3, tb ++ [synth])).
  { unfold Normalize.normalize. change 0%Z with (Z.of_nat 0).
    rewrite (outer_loop_settled (ub_target s) M (length (tb ++ [synth])) fuel w3
               (getCaret w3) (tb ++ [synth]) 0); [| |done|rewrite length_app; simpl; lia].
    - cbn [mbind result_bind]. unfold getCaret. rewrite Hsel3.
      by rewrite updateCaret_same.
    - intros r [Hr'| ->%list_elem_of_singleton]%elem_of_app; [by apply Hset|].
      split; [|simpl; lia]. intros Hty. discriminate Hty. }
  rewrite Hnorm. cbn [mbind result_bind].
  match goal with |- context [UndoBuffer.push ?x _ _ _] => set (sA := x) end.
  assert (HrA : reachable sA).
  { unfold sA. repeat (apply reach_observing || apply reach_capture). exact Hr. }
  assert (HinvA : ring_inv sA) by (apply reachable_ring_inv; [done|simpl; lia]).
  assert (Hpush : UndoBuffer.push sA w3 (tb ++ [synth]) false
                  = Ok (UndoBuffer.push_new sA w3 (tb ++ [synth]))).
  { unfold UndoBuffer.push. change (bufferSize sA) with (bufferSize s).
    destruct (Z.leb_spec (bufferSize s) 0); [lia|done]. }
  rewrite Hpush. cbn [mbind result_bind].
  set (sB := UndoBuffer.push_new sA w3 (tb ++ [synth])).
  destruct (push_new_spec sA w3 (tb ++ [synth]) HinvA)
    as (HB1 & HB2 & HB3 & HB4 & HB5 & HB6 & HB7).
  fold sB in HB1, HB2, HB3, HB4, HB5, HB6, HB7.
  change (bufferSize sA) with (bufferSize s) in *.
  change (pos sA) with (pos s) in *. change (offset sA) with (offset s) in *.
  change (range sA) with c in *.
  assert (Hcar : getCaret w3 = Some c3) by done.
  rewrite Hcar in HB6.
  destruct Hinv as [Ho Hp He Hl Hw Hval].
  assert (HrB : reachable sB) by (by apply (reach_push sA w3 (tb ++ [synth]) false)).
  set (s3 := with_observing sB true (tempObserving sB)).
  assert (Hr3 : reachable s3) by (by apply reach_observing).
  assert (Hinv3 : ring_inv s3) by (apply reachable_ring_inv; [done|simpl; lia]).
  assert (Hlast : lastPos s3 = pos s).
  { unfold lastPos. change (pos s3) with (pos sB). change (bufferSize s3) with (bufferSize sB).
    rewrite HB1, HB2, rem_succ by done.
    destruct (Z.eqb_spec (pos s + 1) (bufferSize s)) as [E|E].
    - rewrite rem_pred by lia. simpl. lia.
    - rewrite rem_pred by lia. destruct (Z.eqb_spec (pos s + 1) 0); lia. }
  assert (Hne : pos s3 ≠ offset s3).
  { change (pos s3) with (pos sB). change (offset s3) with (offset sB).
    rewrite HB4, HB2. rewrite !rem_succ by done.
    destruct (Z.eqb_spec (pos s + 1) (bufferSize s)); repeat case_match; lia. }
  assert (Hex : UndoBuffer.existBuffer s3 (pos s) = true).
  { rewrite <- Hlast. by apply ring_inv_undo_available. }
  assert (Hslot : UndoBuffer.slot_piece (buffer s3) (pos s)
                  = Ok {| records := tb ++ [synth]; oldRange := c; newRange := Some c3 |}).
  { unfold UndoBuffer.slot_piece, lookupZ. destruct (Z.ltb_spec (pos s) 0); [lia|].
    change (buffer s3) with (buffer sB). by rewrite HB6. }
  eexists s3, _. split; [done|]. split; [done|]. split; [done|]. split; [done|]. split.
  { change (undo_depth s3) with (undo_depth sB).
    destruct (push_new_depth sA w3 (tb ++ [synth])) as [Hd _]; [done|done|].
    exact Hd. }
  split; [done|]. split; [done|]. split; [done|].
  unfold UndoBuffer.undo. fold (lastPos s3). rewrite Hlast.
  destruct (Z.eqb_spec (bufferSize s3) 0) as [E|E]; [simpl in E; lia|].
  rewrite Hex, Hslot. cbn [mbind result_bind records oldRange newRange].
  rewrite Hundo. cbn [mbind result_bind].
  rewrite updateCaret_ok by done. cbn [mbind result_bind w_dom w_next with_dom].
  split; [reflexivity|]. split; [done|].
  rewrite undo_records_app in Hundo.
  simpl in Hundo. unfold UndoBuffer.undo_op in Hundo. simpl in Hundo.
  inv_bind Hundo. destruct a as [d5 rs5]. inversion Hundo; subst; clear Hundo.
  rewrite (undo_structure_nodeValue tb n _ _ _ Htb Hbind0).
  by apply nodeValue_set_nodeValue.
Qed.

Lemma ime_state_tempBuffer size :
  tempBuffer (ime_state size) = [ins_record 1%nat [3%nat] (Some 2%nat) None].
Proof. reflexivity. Qed.

(** C8, as stated, fails on a ring with a single slot: the batch of the
    commit is evicted by its own push, [undo()] finds nothing to take
    back and the text keeps the committed value. *)
Lemma committed_composition_in_ring_of_size_one :
  ∃ s3,
    Controller.compositionend 10 (ime_state 1) ime_world "b" = Ok (s3, ime_world, false)
    ∧ UndoBuffer.undo s3 ime_world = Ok (s3, ime_world)
    ∧ Dom.nodeValue (w_dom (w_para_spare "a")) 2%nat = Some "a"%string
    ∧ Dom.nodeValue (w_dom ime_world) 2%nat = Some "ab"%string.
Proof.
  eexists. split; [vm_compute; reflexivity|].
  split; [vm_compute; reflexivity|]. split; reflexivity.
Qed.

Lemma committed_composition_witness :
  ∃ s3 s4,
    Controller.compositionend 10 (ime_state 3) ime_world "b" = Ok (s3, ime_world, false)
    ∧ UndoBuffer.slot_piece (buffer s3) (pos (UndoBuffer.init 0%nat 3 (caret_at 0%nat 0)))
      = Ok {| records := tempBuffer (ime_state 3)
                         ++ [data_record (w_dom ime_world)
                               (startContainer (caret_at 2%nat 1)) (Some "a"%string)];
              oldRange := caret_at 2%nat 1; newRange := Some (caret_at 2%nat 2) |}
    ∧ Forall (λ r, type r = childList) (tempBuffer (ime_state 3))
    ∧ pos s3 = Z.rem (pos (UndoBuffer.init 0%nat 3 (caret_at 0%nat 0)) + 1)
                 (bufferSize (UndoBuffer.init 0%nat 3 (caret_at 0%nat 0)))
    ∧ undo_depth s3
      = Z.min (undo_depth (UndoBuffer.init 0%nat 3 (caret_at 0%nat 0)) + 1)
          (bufferSize (UndoBuffer.init 0%nat 3 (caret_at 0%nat 0)) - 1)
    ∧ observing s3 = true ∧ tempObserving s3 = false ∧ caretTracking s3 = true
    ∧ UndoBuffer.undo s3 ime_world
      = Ok (s4, {| w_dom := w_dom (w_para_spare "a"); w_sel := Some (caret_at 2%nat 1);
                   w_next := w_next ime_world |})
    ∧ pos s4 = pos (UndoBuffer.init 0%nat 3 (caret_at 0%nat 0))
    ∧ Dom.nodeValue (w_dom (w_para_spare "a")) (startContainer (caret_at 2%nat 1))
      = Some "a"%string.
Proof.
  eapply (committed_composition_is_one_undo_step 10 1
            (UndoBuffer.init 0%nat 3 (caret_at 0%nat 0)) (ime_state 3)
            (w_para_spare "a") _ ime_world ime_session "b"
            (caret_at 2%nat 1) (caret_at 2%nat 2) "a").
  - apply reach_init.
  - reflexivity.
  - reflexivity.
  - reflexivity.
  - vm_compute. reflexivity.
  - vm_compute. reflexivity.
  - reflexivity.
  - split; reflexivity.
  - simpl. lia.
  - rewrite ime_state_tempBuffer. intros r ->%list_elem_of_singleton.
    split; [|simpl; lia].
    intros _ n ->%list_elem_of_singleton. right.
    split; [reflexivity|]. split; [reflexivity|]. discriminate.
  - rewrite ime_state_tempBuffer. simpl. lia.
  - vm_compute. reflexivity.
  - split; reflexivity.
Defined.



(** ** Shift+Enter in a container *)

Section fresh.

Implicit Types d : gmap node_id dom_node.

(** A node just created is inserted among the children of [par], before
    the first node of [post]. *)
Lemma insert_new_at d par b (x : dom_node) (pre post : list node_id) :
  Dom.can_have_children d par = true →
  Dom.childNodes d par = pre ++ post →
  NoDup (pre ++ post) →
  match head post with Some r => Dom.parentNode d r = Some par | None => True end →
  unused d b →
  nparent x = None → nchildren x = [] →
  ∃ d2,
    Dom.insertBefore (<[b := x]> d) par b (head post) = Ok d2
    ∧ (∀ m, Dom.kind d2 m = if decide (m = b) then nkind x else Dom.kind d m)
    ∧ (∀ m, Dom.parentNode d2 m = if decide (m = b) then Some par else Dom.parentNode d m)
    ∧ (∀ m, Dom.childNodes d2 m
            = if decide (m = par) then pre ++ b :: post
              else if decide (m = b) then [] else Dom.childNodes d m)
    ∧ (∀ m, m ≠ b → d2 !! m = if decide (m = par)
                              then set_children (pre ++ b :: post) <$> d !! m
                              else d !! m)
    ∧ d2 !! b = Some (set_parent (Some par) x).
Proof.
  intros Hpar Hcs Hnd Href (Hb_none & Hb_par & Hb_ch) Hxp Hxc.
  set (d1 := <[b := x]> d).
  assert (Hps : is_Some (d !! par)) by by apply can_have_children_is_Some.
  assert (Hbp : b ≠ par). { intros ->. rewrite Hb_none in Hps. by destruct Hps. }
  assert (Hbr : head post ≠ Some b).
  { intros Hh. rewrite Hh in Href. apply parentNode_is_Some in Href.
    rewrite Hb_none in Href. by destruct Href. }
  assert (P1 : ∀ m, Dom.parentNode d1 m = if decide (m = b) then None else Dom.parentNode d m).
  { intros m. unfold d1. rewrite parentNode_insert. by rewrite Hxp. }
  assert (C1 : ∀ m, Dom.childNodes d1 m = if decide (m = b) then [] else Dom.childNodes d m).
  { intros m. unfold d1. rewrite childNodes_insert. by rewrite Hxc. }
  assert (K1 : ∀ m, Dom.kind d1 m = if decide (m = b) then nkind x else Dom.kind d m).
  { intros m. unfold d1. by rewrite kind_insert. }
  assert (S1 : ∀ m, is_Some (d !! m) → is_Some (d1 !! m)).
  { intros m [y Hy]. unfold d1. rewrite lookup_insert. case_decide; eauto. }
  assert (S1b : is_Some (d1 !! b)).
  { unfold d1. rewrite lookup_insert_eq. eauto. }
  assert (Hdet : Dom.detach d1 b = d1).
  { apply detach_detached. by rewrite P1, decide_True. }
  exists (Dom.attach d1 par b (head post)).
  split; [|split; [|split; [|split; [|split]]]].
  - rewrite insertBefore_Ok, Hdet; [done| | | |done].
    + unfold Dom.can_have_children. rewrite K1. rewrite decide_False by done. apply Hpar.
    + apply not_ancestor_of_leaf; [|done].
      intros m. rewrite P1. case_decide; [done | apply Hb_par].
    + destruct (head post) as [r|] eqn:Hr; [|done]. rewrite P1.
      rewrite decide_False; [done|]. intros ->. by apply Hbr.
  - intros m. by rewrite kind_attach, K1.
  - intros m. rewrite parentNode_attach by done. rewrite P1. repeat case_decide; done.
  - intros m. rewrite childNodes_attach by (by apply S1).
    rewrite !C1. repeat case_decide; simplify_eq; try done.
    rewrite Hcs. by rewrite place_head.
  - intros m Hm. unfold Dom.attach. rewrite lookup_alter_ne by done.
    rewrite lookup_alter. unfold d1. rewrite lookup_insert_ne by done.
    destruct (decide (par = m)) as [->|].
    2:{ rewrite lookup_insert_ne by done. rewrite decide_False by congruence. done. }
    rewrite decide_True by done.
    destruct (d !! m) as [y|] eqn:Hy; [|done]. simpl. f_equal.
    unfold Dom.childNodes in Hcs. rewrite Hy in Hcs. simpl in Hcs.
    rewrite Hcs, place_head by done. done.
  - unfold Dom.attach. rewrite lookup_alter_eq, lookup_alter_ne by done.
    unfold d1. by rewrite lookup_insert_eq.
Qed.

End fresh.

Lemma is_collapsed_caret_at n o : is_collapsed (caret_at n o) = true.
Proof.
  unfold is_collapsed. simpl. rewrite bool_decide_eq_true_2 by done. by rewrite Z.eqb_refl.
Qed.

Lemma caret_after_middle (w : world) (br par : node_id) (pre post : list node_id) :
  Dom.nodeValue (w_dom w) par = None →
  Dom.childNodes (w_dom w) par = pre ++ br :: post →
  NoDup (pre ++ [br]) →
  (∀ x, x ∈ pre ++ [br] → Dom.parentNode (w_dom w) x = Some par) →
  caret_after w br
  = Ok {| w_dom := w_dom w;
          w_sel := Some (caret_at par (Z.of_nat (length pre) + 1));
          w_next := w_next w |}.
Proof.
  intros Hnv Hcs Hnd Hpar. unfold caret_after.
  rewrite (Hpar br) by (apply elem_of_app; right; by left).
  rewrite (getChildIndex_middle _ par br pre post) by done.
  unfold boundary_ok, node_length. rewrite Hnv, Hcs, length_app. simpl.
  destruct (Z.leb_spec 0 (Z.of_nat (length pre) + 1)); [|lia].
  destruct (Z.leb_spec (Z.of_nat (length pre) + 1)
              (Z.of_nat (length pre + S (length post)))); [done|lia].
Qed.

(** X15. Shift+Enter with the caret between two children of an element (or
    at its end) inserts one new line-break element at the caret position
    and moves the caret right behind it; no other node changes. *)
Theorem shiftEnter_in_container
    (deleteContents : gmap node_id dom_node → caret → gmap node_id dom_node * caret)
    (w : world) (par : node_id) (pre post : list node_id) :
  w_sel w = Some (caret_at par (Z.of_nat (length pre))) →
  Dom.can_have_children (w_dom w) par = true →
  Dom.childNodes (w_dom w) par = pre ++ post →
  NoDup (pre ++ post) →
  (∀ x, x ∈ pre ++ post → Dom.parentNode (w_dom w) x = Some par) →
  unused (w_dom w) (w_next w) →
  let br := w_next w in
  ∃ w',
    shiftEnter deleteContents w = Ok w'
    ∧ Dom.childNodes (w_dom w') par = pre ++ br :: post
    ∧ Nomalizer.is_tag (w_dom w') br "br" = true
    ∧ Dom.parentNode (w_dom w') br = Some par
    ∧ Dom.childNodes (w_dom w') br = []
    ∧ w_sel w' = Some (caret_at par (Z.of_nat (length pre) + 1))
    ∧ (∀ m, m ≠ br → m ≠ par → w_dom w' !! m = w_dom w !! m)
    ∧ (∀ m, m ≠ br → Dom.parentNode (w_dom w') m = Dom.parentNode (w_dom w) m).
Proof.
  intros Hsel Hc Hcs Hnd Hkids Hun br.
  unfold shiftEnter. rewrite Hsel, is_collapsed_caret_at.
  cbn [createElement w_dom w_sel w_next startContainer startOffset caret_at].
  fold br. change (toUpperCase "br") with "BR"%string.
  assert (Hps : is_Some (w_dom w !! par)) by (by apply can_have_children_is_Some).
  assert (Hbp : par ≠ br).
  { intros ->. destruct Hun as [Hn _]. fold br in Hn. rewrite Hn in Hps. by destruct Hps. }
  assert (Href : match head post with
                 | Some r => Dom.parentNode (w_dom w) r = Some par
                 | None => True
                 end).
  { destruct (head post) as [r|] eqn:Hr; [|done]. apply Hkids.
    apply elem_of_app. right. by apply head_in. }
  destruct (insert_new_at (w_dom w) par br (blank_element "BR") pre post)
    as (d2 & Hins & K2 & P2 & C2 & L2 & Lb); try done.
  assert (Hrefeq : (if (Z.of_nat (length pre)
                        =? Z.of_nat (length (Dom.childNodes
                                               (<[br := blank_element "BR"]> (w_dom w)) par)))%Z
                    then None
                    else lookupZ (Dom.childNodes (<[br := blank_element "BR"]> (w_dom w)) par)
                           (Z.of_nat (length pre)))
                   = head post).
  { rewrite childNodes_insert, decide_False by done. rewrite Hcs, length_app.
    destruct post as [|r post'].
    - simpl. rewrite Nat.add_0_r, Z.eqb_refl. done.
    - destruct (Z.eqb_spec (Z.of_nat (length pre))
                  (Z.of_nat (length pre + length (r :: post')))); [simpl in *; lia|].
      rewrite lookupZ_nat. by rewrite list_lookup_middle. }
  assert (Hkind : Dom.kind (<[br := blank_element "BR"]> (w_dom w)) par
                  = Dom.kind (w_dom w) par).
  { by rewrite kind_insert, decide_False. }
  rewrite Hkind. unfold Dom.can_have_children in Hc.
  assert (Hnv : Dom.nodeValue d2 par = None).
  { unfold Dom.nodeValue. rewrite L2, decide_True by done.
    destruct (w_dom w !! par) as [y|] eqn:Hy; [|done]. simpl.
    unfold Dom.kind in Hc. rewrite Hy in Hc. simpl in Hc. by destruct (nkind y). }
  assert (Hgo : insert_under
                  {| w_dom := <[br := blank_element "BR"]> (w_dom w);
                     w_sel := Some (caret_at par (Z.of_nat (length pre)));
                     w_next := S br |}
                  (Some par) br
                  (if (Z.of_nat (length pre)
                       =? Z.of_nat (length (Dom.childNodes
                                              (<[br := blank_element "BR"]> (w_dom w)) par)))%Z
                   then None
                   else lookupZ (Dom.childNodes (<[br := blank_element "BR"]> (w_dom w)) par)
                          (Z.of_nat (length pre)))
                ≫= (fun w2 => caret_after w2 br)
                = Ok {| w_dom := d2;
                        w_sel := Some (caret_at par (Z.of_nat (length pre) + 1));
                        w_next := S br |}).
  { rewrite Hrefeq. unfold insert_under. cbn [w_dom]. rewrite Hins.
    cbn [mbind result_bind].
    rewrite (caret_after_middle _ br par pre post); [done|done| | |].
    - simpl. by rewrite C2, decide_True.
    - apply NoDup_app. split; [by apply NoDup_app in Hnd as (? & _)|]. split.
      + intros x Hx Hx'. apply list_elem_of_singleton in Hx' as ->.
        destruct Hun as (_ & _ & Hch). apply (Hch par). rewrite Hcs.
        apply elem_of_app. by left.
      + apply NoDup_singleton.
    - intros x Hx. simpl. rewrite P2. apply elem_of_app in Hx as [Hx|Hx].
      + rewrite decide_False; [apply Hkids; apply elem_of_app; by left|].
        intros ->. destruct Hun as (_ & _ & Hch). apply (Hch par). rewrite Hcs.
        apply elem_of_app. by left.
      + apply list_elem_of_singleton in Hx as ->. by rewrite decide_True. }
  exists {| w_dom := d2; w_sel := Some (caret_at par (Z.of_nat (length pre) + 1));
            w_next := S br |}.
  split.
  { destruct (Dom.kind (w_dom w) par); try done. }
  cbn [w_dom w_sel]. split; [by rewrite C2, decide_True|]. split.
  { rewrite is_tag_kind, K2, decide_True by done. done. }
  split; [by rewrite P2, decide_True|]. split.
  { rewrite C2, decide_False, decide_True by done. done. }
  split; [done|]. split.
  - intros m Hm1 Hm2. rewrite L2 by done. by rewrite decide_False.
  - intros m Hm. by rewrite P2, decide_False.
Qed.

Lemma shiftEnter_in_container_witness :
  ∃ w',
    shiftEnter (fun d r => (d, r)) w_text_br = Ok w'
    ∧ Dom.childNodes (w_dom w') 1%nat = [3%nat; 2%nat] ++ w_next w_text_br :: []
    ∧ Nomalizer.is_tag (w_dom w') (w_next w_text_br) "br" = true
    ∧ Dom.parentNode (w_dom w') (w_next w_text_br) = Some 1%nat
    ∧ Dom.childNodes (w_dom w') (w_next w_text_br) = []
    ∧ w_sel w' = Some (caret_at 1%nat (Z.of_nat (length [3%nat; 2%nat]) + 1))
    ∧ (∀ m, m ≠ w_next w_text_br → m ≠ 1%nat → w_dom w' !! m = w_dom w_text_br !! m)
    ∧ (∀ m, m ≠ w_next w_text_br →
            Dom.parentNode (w_dom w') m = Dom.parentNode (w_dom w_text_br) m).
Proof.
  apply (shiftEnter_in_container (fun d r => (d, r)) w_text_br 1%nat [3%nat; 2%nat] []);
    try reflexivity.
  - rewrite app_nil_r. apply NoDup_cons. split; [|apply NoDup_singleton].
    intros H. apply list_elem_of_singleton in H. discriminate H.
  - intros x Hx. rewrite app_nil_r in Hx. apply elem_of_cons in Hx as [->|Hx];
      [|apply list_elem_of_singleton in Hx as ->]; reflexivity.
  - apply unusedb_spec. vm_compute. reflexivity.
Defined.

(** ** The round trip of typing *)

Section typing.

Context (fuel : nat) (r0 c : caret).

Hypothesis Hfuel : (2 < fuel)%nat.

Lemma typed_batches_length w es : length (typed_batches r0 w es) = length es.
Proof.
  revert w. induction es as [|[n v] es IH]; intros w; simpl; [done|]. by rewrite IH.
Qed.

Lemma typed_final_tree es : ∀ w,
  final_tree (w_dom w) (typed_batches r0 w es) = typed_tree (w_dom w) es.
Proof.
  induction es as [|[n v] es IH]; intros w; [done|].
  simpl typed_batches. simpl typed_tree.
  pose proof (IH (with_dom w (Dom.set_nodeValue (w_dom w) n (Some v)))) as H.
  cbn [w_dom with_dom] in H. rewrite <- H.
  unfold final_tree.
  destruct (typed_batches r0 (with_dom w (Dom.set_nodeValue (w_dom w) n (Some v))) es)
    as [|b bs] eqn:E; [done|].
  cbn [last]. fold (last bs). change (match bs with [] => Some b | _ :: _ => last bs end)
    with (last (b :: bs)).
  destruct (last (b :: bs)) eqn:El; [done|]. by apply last_None in El.
Qed.

Lemma typed_reversible es : ∀ w,
  w_sel w = Some c →
  typing_fits r0 c (w_dom w) es →
  reversible (w_dom w) (typed_batches r0 w es) (typed_undone (w_dom w) es)
  ∧ selections_inside (w_dom w) (typed_batches r0 w es).
Proof.
  induction es as [|[n v] es IH]; intros w Hsel Hfit; [done|].
  destruct Hfit as ([old Hold] & Hr0 & Hc & Hfit).
  destruct (text_edit_is_reversible (w_dom w) n v old Hold) as (d' & Hap & _ & Hun & Hre).
  assert (d' = Dom.set_nodeValue (w_dom w) n (Some v)) as ->.
  { simpl in Hap. rewrite Hold in Hap. by inversion Hap. }
  destruct (IH (with_dom w (Dom.set_nodeValue (w_dom w) n (Some v))) Hsel Hfit)
    as [Hrev Hsels].
  simpl. rewrite Hold. split.
  - split; [done|]. split; [done|]. split; [by rewrite Hsel|done].
  - split; [done|]. split; [|done]. exists c. done.
Qed.

(** One text change through the observer callback is one [push]. *)
Lemma host_edits_text (s : ubuf) (w : world) (n : node_id) (v old : string) :
  observing s = true → tempObserving s = false → range s = r0 →
  (0 < bufferSize s)%Z →
  w_sel w = Some c →
  Dom.nodeValue (w_dom w) n = Some old →
  caret_ok (Dom.set_nodeValue (w_dom w) n (Some v)) c →
  let w1 := with_dom w (Dom.set_nodeValue (w_dom w) n (Some v)) in
  let s1 := UndoBuffer.push_new s w1 [text_record n (Some old) None] in
  Controller.host_edits fuel s w [SetData n v] = Ok (s1, w1)
  ∧ UndoBuffer.push
      (with_capture s (tempBuffer s) r0 (caretTracking s) (comp_oldValue s)) w1
      [text_record n (Some old) None] false = Ok s1.
Proof.
  intros Hobs Htemp Hr Hc Hsel Hold Hok w1 s1.
  assert (Hs : with_capture s (tempBuffer s) r0 (caretTracking s) (comp_oldValue s) = s).
  { destruct s; simpl in *. by subst. }
  split.
  - unfold Controller.host_edits. simpl apply_edits. rewrite Hold.
    cbn [mbind result_bind app]. rewrite Htemp, Hobs.
    unfold Controller.observer_callback.
    fold (text_record n (Some old) None). fold w1.
    change (set_newValue None <$> [text_record n (Some old) None])
      with [text_record n (Some old) None].
    assert (Hnorm : Normalize.normalize fuel (ub_target s) w1
                      [text_record n (Some old) None]
                    = Ok (w1, [text_record n (Some old) None])).
    { unfold Normalize.normalize. change 0%Z with (Z.of_nat 0).
      rewrite (outer_loop_settled (ub_target s) 0 1 fuel w1 (getCaret w1)
                 [text_record n (Some old) None] 0); [|  |done|lia].
      - cbn [mbind result_bind]. unfold getCaret. simpl w_sel. rewrite Hsel.
        by rewrite updateCaret_same.
      - intros r ->%list_elem_of_singleton. split; [|simpl; lia].
        intros Hty. discriminate Hty. }
    rewrite Hnorm. cbn [mbind result_bind].
    unfold UndoBuffer.push. cbn [bufferSize with_observing].
    destruct (Z.leb_spec (bufferSize s) 0); [lia|]. cbn [mbind result_bind].
    f_equal. f_equal. unfold s1. destruct s; simpl in *. by subst.
  - rewrite Hs. unfold UndoBuffer.push.
    destruct (Z.leb_spec (bufferSize s) 0); [lia|]. done.
Qed.

(** Typing is pushing the batches of the text changes. *)
Lemma type_all_push_all es : ∀ s w,
  observing s = true → tempObserving s = false → range s = r0 →
  (0 < bufferSize s)%Z →
  w_sel w = Some c →
  typing_fits r0 c (w_dom w) es →
  ∀ s', push_all s (typed_batches r0 w es) = Ok s' →
        type_all fuel s w es = Ok (s', with_dom w (typed_tree (w_dom w) es)).
Proof.
  induction es as [|[n v] es IH]; intros s w Hobs Htemp Hr Hc Hsel Hfit s' Hpush.
  - simpl in *. inversion Hpush; subst. by destruct w.
  - destruct Hfit as ([old Hold] & Hr0 & Hcok & Hfit).
    destruct (host_edits_text s w n v old Hobs Htemp Hr Hc Hsel Hold Hcok) as [Hh Hp].
    simpl in Hpush. rewrite Hold, Hp in Hpush. cbn [mbind result_bind] in Hpush.
    simpl type_all. rewrite Hh. cbn [mbind result_bind].
    rewrite (IH (UndoBuffer.push_new s
                   (with_dom w (Dom.set_nodeValue (w_dom w) n (Some v)))
                   [text_record n (Some old) None])
                (with_dom w (Dom.set_nodeValue (w_dom w) n (Some v)))
                Hobs Htemp Hr Hc Hsel Hfit s' Hpush).
    done.
Qed.

End typing.

(** X16. Typing end to end.  Text changes of character-data nodes, fewer
    than the size of a new undo buffer, reach the object through the
    observer callback ([normalize], then [push]); when the stored caret
    and the selection of the page fit the trees they meet, as many
    [undo()] calls as there were changes return and give back the tree of
    before the first change, and as many [redo()] calls then return and
    give back the tree of after the last one. *)
Theorem typing_round_trip (fuel : nat) (tgt : node_id) (C : Z) (r0 c : caret)
    (w : world) (es : list (node_id * string)) :
  (2 < fuel)%nat →
  (Z.of_nat (length es) < C)%Z →
  w_sel w = Some c →
  typing_fits r0 c (w_dom w) es →
  ∃ s w' s1 w1 s2 w2,
    type_all fuel (UndoBuffer.init tgt C r0) w es = Ok (s, w')
    ∧ w_dom w' = typed_tree (w_dom w) es
    ∧ undo_n (length es) s w' = Ok (s1, w1)
    ∧ w_dom w1 = w_dom w
    ∧ redo_n (length es) s1 w1 = Ok (s2, w2)
    ∧ w_dom w2 = typed_tree (w_dom w) es.
Proof.
  intros Hfuel Hlen Hsel Hfit.
  set (bs := typed_batches r0 w es).
  assert (Hbl : length bs = length es) by apply typed_batches_length.
  destruct (typed_reversible r0 c es w Hsel Hfit) as [Hrev Hsels]. fold bs in Hrev, Hsels.
  destruct (push_all_walking C bs [] (UndoBuffer.init tgt C r0)) as (s & Hpush & Hwalk).
  { simpl. lia. }
  { unfold walking. simpl.
    split; [done|]. split; [done|]. split; [done|]. split; [done|].
    split; [done|]. intros j b Hj. done. }
  simpl in Hwalk.
  pose proof (type_all_push_all fuel r0 c Hfuel es (UndoBuffer.init tgt C r0) w
                eq_refl eq_refl eq_refl) as Htype.
  simpl in Htype. specialize (Htype ltac:(destruct es; simpl in *; lia) Hsel Hfit s Hpush).
  set (w' := with_dom w (typed_tree (w_dom w) es)) in *.
  assert (Hfinal : final_tree (w_dom w) bs = tree_at (w_dom w) bs (length bs)).
  { unfold final_tree, tree_at. rewrite last_lookup.
    destruct bs as [|b bs']; [done|]. simpl length. simpl Nat.pred. cbv iota.
    generalize (b :: bs'). intros l. by destruct (l !! length bs'). }
  assert (Hw' : w_dom w' = tree_at (w_dom w) bs (length bs)).
  { rewrite <- Hfinal. unfold bs. by rewrite typed_final_tree. }
  destruct (undo_phase C bs (typed_undone (w_dom w) es) (w_dom w) ltac:(lia) Hrev Hsels
              (length bs) s w') as (s1 & w1 & E1 & Hw1 & Hd1).
  { done. }
  { destruct Hwalk as (? & ? & ? & ? & ? & Hb).
    split; [done|]. split; [done|]. split; [done|]. split; [done|].
    split; [done|].
    intros j b Hj. rewrite (Hb j b Hj).
    apply lookup_lt_Some in Hj. by destruct (Nat.ltb_spec j (length bs)); [|lia]. }
  { done. }
  destruct (redo_phase C bs (typed_undone (w_dom w) es) (w_dom w) ltac:(lia) Hrev Hsels
              (length bs) 0 s1 w1) as (s2 & w2 & E2 & Hw2 & Hd2).
  { simpl. lia. }
  { done. }
  { done. }
  rewrite Hbl in *.
  exists s, w', s1, w1, s2, w2. split; [done|]. split; [done|]. split; [done|].
  split; [done|]. split; [done|].
  simpl in Hd2. rewrite Hd2, <- Hfinal. unfold bs. by rewrite typed_final_tree.
Qed.

Lemma typing_round_trip_witness :
  ∃ s w' s1 w1 s2 w2,
    type_all 3 (UndoBuffer.init 0%nat 3 (caret_at 0%nat 0)) (w_para "a")
      [(2%nat, "ab"%string); (2%nat, "abc"%string)]
    = Ok (s, w')
    ∧ w_dom w' = typed_tree (w_dom (w_para "a")) [(2%nat, "ab"%string); (2%nat, "abc"%string)]
    ∧ undo_n (length [(2%nat, "ab"%string); (2%nat, "abc"%string)]) s w' = Ok (s1, w1)
    ∧ w_dom w1 = w_dom (w_para "a")
    ∧ redo_n (length [(2%nat, "ab"%string); (2%nat, "abc"%string)]) s1 w1 = Ok (s2, w2)
    ∧ w_dom w2 = typed_tree (w_dom (w_para "a")) [(2%nat, "ab"%string); (2%nat, "abc"%string)].
Proof.
  apply (typing_round_trip 3 0%nat 3 (caret_at 0%nat 0) (caret_at 2%nat 1) (w_para "a")
           [(2%nat, "ab"%string); (2%nat, "abc"%string)]).
  - lia.
  - simpl. lia.
  - reflexivity.
  - simpl. repeat split; try reflexivity; by eexists.
Defined.

(** ** Worked examples *)

Lemma value_records_replay_witness :
  ∃ d' rs',
    UndoBuffer.undo_records (d_classed "new") value_batch = Ok (d', rs')
    ∧ UndoBuffer.redo_records d' rs' = Ok (d_classed "new").
Proof.
  eexists _, _. split; [vm_compute; reflexivity|].
  apply (value_records_replay_round_trip (d_classed "new") _ value_batch _).
  - reflexivity.
  - vm_compute. reflexivity.
Defined.

Lemma undo_reinserts_removed_nodes_witness :
  ∃ d', UndoBuffer.undo_op d_two_spare removal_of_two = Ok (d', removal_of_two)
        ∧ Dom.childNodes d' 0%nat = [] ++ reverse (removedNodes removal_of_two) ++ []
        ∧ (∀ n, n ∈ removedNodes removal_of_two → Dom.parentNode d' n = Some 0%nat)
        ∧ UndoBuffer.redo_op d' removal_of_two = Ok d_two_spare.
Proof.
  apply (undo_reinserts_removed_nodes_reversed d_two_spare removal_of_two 0%nat [] []);
    try reflexivity.
  - apply NoDup_nil_2.
  - apply NoDup_cons. split; [|apply NoDup_singleton].
    intros H. apply list_elem_of_singleton in H. discriminate H.
  - intros n Hn. apply elem_of_cons in Hn as [->|Hn];
      [|apply list_elem_of_singleton in Hn as ->];
      (split; [reflexivity|]; split; [by eexists|]; split;
       [apply not_elem_of_nil | reflexivity]).
Defined.

Lemma insertion_record_replay_witness :
  ∃ d0, UndoBuffer.undo_op (w_dom w_text_br) (ins_record 1%nat [2%nat] (Some 3%nat) None)
        = Ok (d0, ins_record 1%nat [2%nat] (Some 3%nat) None)
        ∧ Dom.childNodes d0 1%nat = [3%nat] ++ []
        ∧ (∀ x, x ∈ addedNodes (ins_record 1%nat [2%nat] (Some 3%nat) None) →
                Dom.parentNode d0 x = None)
        ∧ UndoBuffer.redo_op d0 (ins_record 1%nat [2%nat] (Some 3%nat) None)
          = Ok (w_dom w_text_br).
Proof.
  apply (insertion_record_replay_round_trip (w_dom w_text_br)
           (ins_record 1%nat [2%nat] (Some 3%nat) None) 1%nat [3%nat] []);
    try reflexivity.
  - apply NoDup_cons. split; [|apply NoDup_singleton].
    intros H. apply list_elem_of_singleton in H. discriminate H.
  - intros x Hx. apply list_elem_of_singleton in Hx as ->. reflexivity.
  - intros x Hx. apply list_elem_of_singleton in Hx as ->. reflexivity.
Defined.

Lemma getChildIndex_witness :
  Nomalizer.getChildIndex (w_dom w_text_br) 2%nat = Z.of_nat (length [3%nat])
  ∧ Dom.childNodes (w_dom w_text_br) 1%nat !! length [3%nat] = Some 2%nat
  ∧ ∀ m, Dom.parentNode (w_dom w_text_br) m = None →
         Nomalizer.getChildIndex (w_dom w_text_br) m = 0%Z.
Proof.
  apply (getChildIndex_is_sibling_position (w_dom w_text_br) 1%nat 2%nat [3%nat] []).
  - reflexivity.
  - apply NoDup_cons. split; [|apply NoDup_singleton].
    intros H. apply list_elem_of_singleton in H. discriminate H.
  - intros x Hx. apply elem_of_cons in Hx as [->|Hx];
      [|apply list_elem_of_singleton in Hx as ->]; reflexivity.
Defined.

Lemma replaceOperation_witness :
  Nomalizer.replaceOperation log_about_2 2%nat 1%nat (Some 3%nat) (Some 3%nat)
    (Z.of_nat 1) (Z.of_nat 4)
  = Ok (take 1 log_about_2
        ++ replaced 2%nat 1%nat (Some 3%nat) (Some 3%nat) (take (4 - 1) (drop 1 log_about_2))
        ++ drop 4 log_about_2).
Proof.
  apply (proj1 (replaceOperation_rewrites_range log_about_2 2%nat 1%nat
                  (Some 3%nat) (Some 3%nat) 1 4)).
  simpl. lia.
Defined.

Lemma live_child_list_witness :
  ∃ d' range',
    Nomalizer.moveNodeList (w_dom w_nested_spans_mid) (Some (caret_at 1%nat 1))
      (ChildNodesOf 2%nat) 1%nat (Some 5%nat)
    = Ok (d', range')
    ∧ Dom.childNodes d' 1%nat
      = [2%nat] ++ alternate (Dom.childNodes (w_dom w_nested_spans_mid) 2%nat)
        ++ 5%nat :: []
    ∧ Dom.childNodes d' 2%nat
      = alternate (tail (Dom.childNodes (w_dom w_nested_spans_mid) 2%nat))
    ∧ ∀ x, x ∈ alternate (tail (Dom.childNodes (w_dom w_nested_spans_mid) 2%nat)) →
           Dom.parentNode d' x = Some 2%nat.
Proof.
  apply (live_child_list_moves_every_other_child (w_dom w_nested_spans_mid)
           (Some (caret_at 1%nat 1)) 2%nat 1%nat 5%nat [2%nat] []);
    try reflexivity; try discriminate.
  - apply NoDup_cons. split; [|apply NoDup_singleton].
    intros H. apply list_elem_of_singleton in H. discriminate H.
  - intros x Hx. apply elem_of_cons in Hx as [->|Hx];
      [|apply list_elem_of_singleton in Hx as ->]; reflexivity.
  - apply NoDup_cons. split; [|apply NoDup_singleton].
    intros H. apply list_elem_of_singleton in H. discriminate H.
  - intros x Hx. apply elem_of_cons in Hx as [->|Hx];
      [|apply list_elem_of_singleton in Hx as ->]; split; reflexivity.
Defined.

Lemma normalize_settled_witness :
  Normalize.normalize 5 0%nat (w_para "ab")
    [text_record 2%nat (Some "a"%string) None; ins_record 1%nat [2%nat] None None]
  = Ok (w_para "ab",
        [text_record 2%nat (Some "a"%string) None; ins_record 1%nat [2%nat] None None]).
Proof.
  apply (normalize_leaves_settled_batches 5 1 0%nat (w_para "ab")
           [text_record 2%nat (Some "a"%string) None; ins_record 1%nat [2%nat] None None]
           (caret_at 2%nat 1)).
  - reflexivity.
  - split; reflexivity.
  - intros r Hr. apply elem_of_cons in Hr as [->|Hr];
      [|apply list_elem_of_singleton in Hr as ->].
    + split; [|simpl; lia]. intros Hty. discriminate Hty.
    + split; [|simpl; lia]. intros _ n ->%list_elem_of_singleton. right.
      split; [reflexivity|]. split; [reflexivity|]. discriminate.
  - simpl. lia.
Defined.

Lemma composition_session_witness :
  offset (ime_state 3) = offset (UndoBuffer.init 0%nat 3 (caret_at 0%nat 0))
  ∧ pos (ime_state 3) = pos (UndoBuffer.init 0%nat 3 (caret_at 0%nat 0))
  ∧ endPos (ime_state 3) = endPos (UndoBuffer.init 0%nat 3 (caret_at 0%nat 0))
  ∧ buffer (ime_state 3) = buffer (UndoBuffer.init 0%nat 3 (caret_at 0%nat 0))
  ∧ observing (ime_state 3) = false ∧ tempObserving (ime_state 3) = true
  ∧ Forall (λ r, type r = childList ∧ newValue r = None) (tempBuffer (ime_state 3))
  ∧ (∀ w'', Controller.beforeinput (ime_state 3) w'' = ime_state 3).
Proof.
  eapply (composition_session_records_nothing 10
            (UndoBuffer.init 0%nat 3 (caret_at 0%nat 0)) (ime_state 3)
            (w_para_spare "a") (w_para_spare "a") _ ime_session).
  vm_compute. reflexivity.
Defined.
